(** * AgentBuilder: permission-gated tool execution and sandboxed code blocks

    A shallow embedding of the code of the AgentBuilder repository (the
    main process and the stores of the renderer) and the properties its
    specification states about it:

    - [Json]          JavaScript values as they travel through
                      [JSON.stringify]
    - [Permissions]   the permission records of [tool.schema.ts]
    - [Sandbox]       [runCodeBlock], the QuickJS code-block executor
    - [Db], [Migrations]  [db.ts]: the connection and [runMigrations]
    - [Audit]         [audit.repo.ts]
    - [Runner]        [runner.ipc.ts]: start / stop / confirm and
                      [runAgent]
    - [RunnerStore]   [useRunnerStore], the renderer's view of a run
    - [Settings], [SettingsStore], [AppSettings]
                      [settings.repo.ts], the secret handlers of
                      [settings.ipc.ts] and [useSettingsStore]
    - [Zod], [Schemas]  the schema combinators and the schemas of
                      [tool.schema.ts], [provider.schema.ts] and
                      [agent.schema.ts]
    - [Agents], [AgentList]  [agents.repo.ts]
    - [Policy]        the permission model and the policy evaluator

    JavaScript strings are modelled as [string] (ASCII), numbers as
    rationals [Q] (every finite double is one), objects as association
    lists in property order, [undefined] as [None]. *)

From Stdlib Require Import ZArith QArith String Ascii List Bool Lia.
From Stdlib Require Import DecimalString Sorted.
From stdpp Require Import base option list strings gmap.

Import ListNotations.
Set Warnings "-register-all".
Local Open Scope list_scope.
Local Open Scope string_scope.

(** ** Exceptions

    A JavaScript computation either returns or throws; [String(e)] of the
    thrown value is what every handler of the repository keeps of it. *)

Inductive Except (A : Type) : Type :=
| Return (a : A)
| Throw (e : string).
Arguments Return {A} a.
Arguments Throw {A} e.

Definition bindE {A B} (m : Except A) (k : A -> Except B) : Except B :=
  match m with
  | Return a => k a
  | Throw e => Throw e
  end.

Notation "'let!' x ':=' m 'in' k" := (bindE m (fun x => k))
  (at level 10, x name, m at level 100, k at level 200).

Lemma bindE_Return {A B} (m : Except A) (k : A -> Except B) (b : B) :
  bindE m k = Return b -> exists a, m = Return a /\ k a = Return b.
Proof. destruct m as [a|e]; simpl; [eauto | discriminate]. Qed.

(** [try { body } catch (e) { handler(e) }] *)
Definition tryCatch {A} (body : Except A) (handler : string -> A) : A :=
  match body with
  | Return a => a
  | Throw e => handler e
  end.

(** Whether a computation returns. *)
Definition returns {A} (m : Except A) : bool :=
  match m with
  | Return _ => true
  | Throw _ => false
  end.

(** ** JavaScript values and [JSON.stringify] *)

Module Json.

Inductive json : Type :=
| JNull
| JBool (b : bool)
| JNum (q : Q)
| JStr (s : string)
| JArr (items : list json)
| JObj (fields : list (string * json)).

(** A JavaScript value is [undefined] or a JSON value. *)
Definition jsval : Type := option json.

(** [obj[key]]: the first property of that name. *)
Fixpoint get_prop (key : string) (fields : list (string * json)) : jsval :=
  match fields with
  | [] => None
  | (k, v) :: rest => if String.eqb k key then Some v else get_prop key rest
  end.

(** [obj[key] = v]: overwrite in place, or append a new property. This
    is the order of property names that are not array indices, as all
    the names of the repository's objects are; JavaScript lists names
    such as ["0"] before the others. *)
Fixpoint set_prop (key : string) (v : json) (fields : list (string * json))
  : list (string * json) :=
  match fields with
  | [] => [(key, v)]
  | (k, w) :: rest =>
      if String.eqb k key then (k, v) :: rest else (k, w) :: set_prop key v rest
  end.

(** [{...a, ...b}]: the properties of [b] written over those of [a]. *)
Definition spread (a b : list (string * json)) : list (string * json) :=
  fold_left (fun acc kv => set_prop (fst kv) (snd kv) acc) b a.

(** The double quote character, and the backslash. *)
Definition dquote : string := String "034"%char EmptyString.
Definition backslash : string := String "092"%char EmptyString.

Definition hex_digit (n : nat) : string :=
  String (nth n (list_ascii_of_string "0123456789abcdef") "0"%char) EmptyString.

(** QuoteJSONString, one code unit: the quote and the backslash are
    escaped, control characters get their short or [\u00XX] form. *)
Definition escape_char (c : ascii) : string :=
  let n := nat_of_ascii c in
  if Nat.eqb n 34 then backslash ++ dquote
  else if Nat.eqb n 92 then backslash ++ backslash
  else if Nat.eqb n 8 then backslash ++ "b"
  else if Nat.eqb n 9 then backslash ++ "t"
  else if Nat.eqb n 10 then backslash ++ "n"
  else if Nat.eqb n 12 then backslash ++ "f"
  else if Nat.eqb n 13 then backslash ++ "r"
  else if Nat.ltb n 32 then
    backslash ++ "u00" ++ hex_digit (Nat.div n 16) ++ hex_digit (Nat.modulo n 16)
  else String c EmptyString.

Fixpoint escape (s : string) : string :=
  match s with
  | EmptyString => EmptyString
  | String c rest => escape_char c ++ escape rest
  end.

Definition quote (s : string) : string := dquote ++ escape s ++ dquote.

Definition string_of_Z (z : Z) : string := NilZero.string_of_int (Z.to_int z).

(** The fractional digits of [r / d] (with [0 <= r < d]), at most [fuel]. *)
Fixpoint frac_digits (fuel : nat) (r d : Z) : string :=
  match fuel with
  | O => EmptyString
  | S fuel' =>
      if Z.eqb r 0 then EmptyString
      else string_of_Z (Z.div (10 * r) d) ++ frac_digits fuel' (Z.modulo (10 * r) d) d
  end.

(** Number::toString for the values the model holds: integers print in
    decimal, other rationals as their decimal expansion (17 digits).
    JavaScript prints the shortest digits that read back as the same
    double, and an exponent from [1e21] on and below [1e-6]: the two
    agree on the integers below [1e21] and on the fractions whose
    decimal expansion ends within 17 digits. *)
Definition number_to_string (q : Q) : string :=
  let n := Qnum q in
  let d := Zpos (Qden q) in
  if Z.eqb (Z.modulo n d) 0 then string_of_Z (Z.div n d)
  else
    (if Z.ltb n 0 then "-" else "") ++
    string_of_Z (Z.div (Z.abs n) d) ++ "." ++ frac_digits 17 (Z.modulo (Z.abs n) d) d.

Fixpoint join (sep : string) (parts : list string) : string :=
  match parts with
  | [] => EmptyString
  | [p] => p
  | p :: rest => p ++ sep ++ join sep rest
  end.

(** [JSON.stringify(v)] without indentation, on a defined value. *)
Fixpoint stringify (v : json) : string :=
  match v with
  | JNull => "null"
  | JBool true => "true"
  | JBool false => "false"
  | JNum q => number_to_string q
  | JStr s => quote s
  | JArr items => "[" ++ join "," (map stringify items) ++ "]"
  | JObj fields =>
      "{" ++ join "," (map (fun kv => quote (fst kv) ++ ":" ++ stringify (snd kv)) fields) ++ "}"
  end.

(** [JSON.stringify(v)]: [undefined] stays [undefined]. *)
Definition JSON_stringify (v : jsval) : option string :=
  match v with
  | None => None
  | Some j => Some (stringify j)
  end.

(** [s.slice(0, n)] *)
Fixpoint slice_to (n : nat) (s : string) : string :=
  match n, s with
  | S n', String c rest => String c (slice_to n' rest)
  | _, _ => EmptyString
  end.

(** [s.slice(n)] *)
Fixpoint slice_from (n : nat) (s : string) : string :=
  match n, s with
  | S n', String _ rest => slice_from n' rest
  | _, _ => s
  end.

(** [s.startsWith(p)] *)
Definition startsWith (p s : string) : bool := String.prefix p s.

(** [s.includes(p)] *)
Fixpoint includes (p s : string) : bool :=
  String.prefix p s ||
  match s with
  | EmptyString => false
  | String _ rest => includes p rest
  end.

(** A host value handed to [JSON.stringify]: a plain value, a value
    [JSON.stringify] maps to [undefined] (a function, a symbol), or one it
    throws on (a cycle, a BigInt). *)
Inductive HostValue : Type :=
| Serializable (v : jsval)
| Opaque
| Unserializable (e : string).

(** String conversion, as [+=] and a template literal do it. *)
Fixpoint toString_json (v : json) : string :=
  match v with
  | JNull => "null"
  | JBool true => "true"
  | JBool false => "false"
  | JNum q => number_to_string q
  | JStr s => s
  | JArr items =>
      join "," (map (fun x => match x with JNull => "" | _ => toString_json x end) items)
  | JObj _ => "[object Object]"
  end.

Definition toString (v : jsval) : string :=
  match v with
  | None => "undefined"
  | Some j => toString_json j
  end.

(** [v.key] for a key that no prototype defines: reading a property of
    [null] throws, a primitive and an array have no such property. *)
Definition member (key : string) (v : json) : Except jsval :=
  match v with
  | JNull =>
      Throw ("TypeError: Cannot read properties of null (reading '" ++ key ++ "')")
  | JObj fields => Return (get_prop key fields)
  | _ => Return None
  end.

End Json.

Import Json.

(** ** The permission model ([tool.schema.ts])

    The types zod infers from the four permission schemas. A field that
    several records share ([enabled], [timeoutMs]) carries the record's
    prefix. *)

Module Permissions.

Inductive FsAccess : Type := AccessRead | AccessReadWrite.

Inductive HttpMethod : Type := GET | POST | PUT | PATCH | DELETE | HEAD.

Record FileSystemPermission : Type := {
  fs_enabled : bool;
  access : FsAccess;
  allowedPaths : list string;
  deniedPaths : list string;
  maxFileSizeBytes : Z
}.

Record HttpPermission : Type := {
  http_enabled : bool;
  allowedDomains : list string;
  blockedDomains : list string;
  allowedMethods : list HttpMethod;
  rateLimitPerMinute : Z;
  http_timeoutMs : Z;
  followRedirects : bool;
  maxResponseBytes : Z
}.

Record ShellPermission : Type := {
  shell_enabled : bool;
  allowedCommands : list string;
  blockedPatterns : list string;
  workingDirectory : option string;
  shell_timeoutMs : Z;
  requiresConfirmation : bool;
  env : list (string * string)
}.

Record CodeExecPermission : Type := {
  codeExec_enabled : bool;
  memoryLimitMb : Z;
  timeLimitMs : Z;
  networkAccess : bool;
  allowedModules : list string
}.

Record ToolPermissions : Type := {
  filesystem : FileSystemPermission;
  http : HttpPermission;
  shell : ShellPermission;
  codeExec : CodeExecPermission
}.

Definition DEFAULT_BLOCKED_PATTERNS : list string :=
  ["rm" ++ backslash ++ "s+-rf"; "sudo"; "> /dev"; "chmod 777";
   "curl.*" ++ backslash ++ "|.*sh"].

Definition DEFAULT_TOOL_PERMISSIONS : ToolPermissions := {|
  filesystem := {|
    fs_enabled := false;
    access := AccessRead;
    allowedPaths := [];
    deniedPaths := [];
    maxFileSizeBytes := 10 * 1024 * 1024
  |};
  http := {|
    http_enabled := false;
    allowedDomains := [];
    blockedDomains := [];
    allowedMethods := [GET];
    rateLimitPerMinute := 30;
    http_timeoutMs := 10000;
    followRedirects := true;
    maxResponseBytes := 5 * 1024 * 1024
  |};
  shell := {|
    shell_enabled := false;
    allowedCommands := [];
    blockedPatterns := DEFAULT_BLOCKED_PATTERNS;
    workingDirectory := None;
    shell_timeoutMs := 30000;
    requiresConfirmation := true;
    env := []
  |};
  codeExec := {|
    codeExec_enabled := false;
    memoryLimitMb := 128;
    timeLimitMs := 10000;
    networkAccess := false;
    allowedModules := []
  |}
|}.

End Permissions.

(** ** The code-block executor ([runCodeBlock])

    QuickJS itself is not part of the repository: the model takes the
    engine as a record. What [runCodeBlock] adds is the harness around the
    user's code, the interrupt handler that sets [timedOut], and the
    normalisation of every outcome into a [SandboxResult]. *)

Module Sandbox.
Import Permissions.

(** One call of [blockCtx.log]: its arguments, as [vm.dump] gives them. *)
Definition LogCall : Type := list jsval.

(** How a run of guest statements ends. *)
Inductive Completion : Type :=
| Normal                 (* the statements ran to their end *)
| Returned (v : jsval)   (* a [return] of a value that is no promise; [v] is its [vm.dump] *)
| ReturnedPromise        (* a [return] of a promise, as from an [async] function *)
| Threw (e : jsval)      (* an uncaught [throw]; [e] is [vm.dump] of the thrown value *)
| Interrupt              (* the interrupt handler returned [true] *)
| Crash (e : string).    (* the engine failed: [vm.evalCode] throws on the host *)

(** What the host observes of a run of guest statements: the calls of
    [__ctx_log] it made, then how it ended. *)
Record Body : Type := {
  logs : list LogCall;
  completion : Completion
}.

(** The meaning the engine gives the user's code, placed in the body of
    the harness's function. *)
Inductive Program : Type :=
| SyntaxError (e : jsval)
    (* the harness does not parse: nothing runs *)
| Script (top : Body) (run : option (jsval -> Body)).
    (* the top-level statements, and [run] when [typeof run === 'function'] *)

Record Engine : Type := {
  (* [import('quickjs-emscripten')], [getQuickJS()], [QuickJS.newContext()] *)
  boot : Except unit;
  (* the user's code under a memory limit (bytes) and a time limit (ms) *)
  exec : Z -> Z -> string -> Program;
  (* the [stack] property QuickJS gives the harness's own [Error] *)
  stack : string;
  (* [vm.dispose()] *)
  dispose : Except unit
}.

Record SandboxResult : Type := {
  success : bool;
  result : jsval;
  error : option string;
  timedOut : option bool
}.

(** [vm.dump] of a guest [Error]: QuickJS copies [name], [message] and
    [stack] into the dumped object. *)
Definition dump_Error (name message stk : string) : jsval :=
  Some (JObj [("name", JStr name); ("message", JStr message); ("stack", JStr stk)]).

Definition NO_RUN_MESSAGE : string :=
  "Code block must define a function named " ++ dquote ++ "run" ++ dquote.

(** The result of [vm.evalCode]: an error handle, or a value handle,
    which holds a promise or a value [vm.dump] can copy. *)
Inductive EvalResult : Type :=
| EvalError (e : jsval)
| EvalValue (v : jsval)
| EvalPromise.

(** [vm.evalCode(harness)]: the harness sets up [__input] and [__ctx],
    executes the user's code, then checks [typeof run] and calls
    [run(__input, __ctx)]. Returns the log calls made, whether the
    interrupt handler fired, and the result handle (or a host exception). *)
Definition evalCode (eng : Engine) (p : Program) (input : jsval)
  : list LogCall * bool * Except EvalResult :=
  match p with
  | SyntaxError e => ([], false, Return (EvalError e))
  | Script top run =>
      match completion top with
      | Normal =>
          match run with
          | None =>
              (logs top, false,
               Return (EvalError (dump_Error "Error" NO_RUN_MESSAGE (stack eng))))
          | Some f =>
              let call := f input in
              let out := (logs top ++ logs call)%list in
              match completion call with
              | Normal => (out, false, Return (EvalValue None))
              | Returned v => (out, false, Return (EvalValue v))
              | ReturnedPromise => (out, false, Return EvalPromise)
              | Threw e => (out, false, Return (EvalError e))
              | Interrupt =>
                  (out, true,
                   Return (EvalError (dump_Error "InternalError" "interrupted" (stack eng))))
              | Crash e => (out, false, Throw e)
              end
          end
      | Returned v => (logs top, false, Return (EvalValue v))
      | ReturnedPromise => (logs top, false, Return EvalPromise)
      | Threw e => (logs top, false, Return (EvalError e))
      | Interrupt =>
          (logs top, true,
           Return (EvalError (dump_Error "InternalError" "interrupted" (stack eng))))
      | Crash e => (logs top, false, Throw e)
      end
  end.

(** [try { body } finally { fin }]: [fin] runs either way, and an
    exception of its own replaces the body's outcome. *)
Definition tryFinally {A} (body : Except A) (fin : Except unit) : Except A :=
  match fin with
  | Throw e => Throw e
  | Return _ => body
  end.

(** The variables assigned inside the inner [try]. *)
Record Locals : Type := {
  l_timedOut : bool;
  l_result : jsval;
  l_runError : option string
}.

(** [typeof err === 'string' ? err : JSON.stringify(err)] *)
Definition runError_of (err : jsval) : option string :=
  match err with
  | Some (JStr s) => Some s
  | other => JSON_stringify other
  end.

(** [if (runError)]: [undefined] and the empty string are falsy. *)
Definition truthy (s : option string) : bool :=
  match s with
  | Some s => negb (String.eqb s "")
  | None => false
  end.

Definition failure (e : string) : SandboxResult :=
  {| success := false; result := None; error := Some e; timedOut := None |}.

(** [String(e)] of what [dispose()] throws on a handle that was
    disposed of before. *)
Definition USE_AFTER_FREE : string := "QuickJSUseAfterFree: Lifetime not alive".

(** The inner [try] block, up to the end of its [finally]. *)
Definition innerBlock (eng : Engine) (code : string) (input : HostValue)
    (limits : CodeExecPermission) : list LogCall * Except Locals :=
  let memoryLimitBytes := (memoryLimitMb limits * 1024 * 1024)%Z in
  match input with
  | Unserializable e => ([], tryFinally (Throw e) (dispose eng))
  | _ =>
      (* [const __input = ${inputJson}]: an opaque input reads [undefined] *)
      let v := match input with Serializable v => v | _ => None end in
      let '(out, interrupted, evalResult) :=
        evalCode eng (exec eng memoryLimitBytes (timeLimitMs limits) code) v in
      (out,
       tryFinally
         (let! r := evalResult in
          match r with
          | EvalError err =>
              Return {| l_timedOut := interrupted; l_result := None;
                        l_runError := runError_of err |}
          | EvalValue v =>
              Return {| l_timedOut := interrupted; l_result := v;
                        l_runError := None |}
          | EvalPromise =>
              (* [vm.dump] of a promise disposes of its handle, and
                 [evalResult.value.dispose()] then throws *)
              Throw USE_AFTER_FREE
          end)
         (dispose eng))
  end.

(** The body of the outer [try]. *)
Definition outerBlock (eng : Engine) (code : string) (input : HostValue)
    (limits : CodeExecPermission) : list LogCall * Except SandboxResult :=
  match boot eng with
  | Throw e => ([], Throw e)
  | Return _ =>
      let '(out, inner) := innerBlock eng code input limits in
      (out,
       let! l := inner in
       if l_timedOut l then
         Return {| success := false; result := None;
                   error := Some ("Execution timed out after "
                                  ++ string_of_Z (timeLimitMs limits) ++ "ms");
                   timedOut := Some true |}
       else if truthy (l_runError l) then
         Return {| success := false; result := None;
                   error := l_runError l; timedOut := None |}
       else
         Return {| success := true; result := l_result l;
                   error := None; timedOut := None |})
  end.

(** [runCodeBlock(code, input, blockCtx, limits)]: the calls of
    [blockCtx.log] it made and the [SandboxResult] it resolves to. *)
Definition runCodeBlock (eng : Engine) (code : string) (input : HostValue)
    (limits : CodeExecPermission) : list LogCall * SandboxResult :=
  let '(out, body) := outerBlock eng code input limits in
  (out, tryCatch body failure).

(** *** Engines for the examples

    [toyExec] reads a handful of programs the way QuickJS does. *)

Definition toyExec (memoryLimitBytes timeLimitMs : Z) (code : string) : Program :=
  if String.eqb code "function run(input, ctx) { return input }" then
    Script {| logs := []; completion := Normal |}
           (Some (fun input => {| logs := []; completion := Returned input |}))
  else if String.eqb code "async function run(input, ctx) { return input }" then
    Script {| logs := []; completion := Normal |}
           (Some (fun _ => {| logs := []; completion := ReturnedPromise |}))
  else if String.eqb code "function run() { while (true) {} }" then
    Script {| logs := []; completion := Normal |}
           (Some (fun _ => {| logs := []; completion := Interrupt |}))
  else if String.eqb code "throw ''" then
    Script {| logs := []; completion := Threw (Some (JStr "")) |} None
  else if String.eqb code "function run() { throw undefined }" then
    Script {| logs := []; completion := Normal |}
           (Some (fun _ => {| logs := []; completion := Threw None |}))
  else if String.eqb code "__ctx_log('side effect')" then
    Script {| logs := [[Some (JStr "side effect")]]; completion := Normal |} None
  else if String.eqb code "return 42" then
    Script {| logs := []; completion := Returned (Some (JNum 42)) |} None
  else if String.eqb code "function run(" then
    SyntaxError (dump_Error "SyntaxError" "unexpected token" "")
  else
    Script {| logs := []; completion := Normal |} None.

Definition toyEngine : Engine := {|
  boot := Return tt;
  exec := toyExec;
  stack := "    at <anonymous> (eval.js)";
  dispose := Return tt
|}.

Definition limits128 : CodeExecPermission := {|
  codeExec_enabled := true;
  memoryLimitMb := 128;
  timeLimitMs := 10000;
  networkAccess := false;
  allowedModules := []
|}.

End Sandbox.

(** ** The database handle ([db.ts])

    [db] is [null] before [initDb] and after [closeDb]; each repository
    reaches its table through [getDb]. *)

Module Db.

Definition DB_NOT_INITIALIZED : string :=
  "Error: Database not initialized. Call initDb() first.".

(** [getDb()] *)
Definition getDb {T} (db : option T) : Except T :=
  match db with
  | Some t => Return t
  | None => Throw DB_NOT_INITIALIZED
  end.

End Db.

(** ** Migrations ([db.ts])

    [runMigrations] brings the schema up to the last script of
    [MIGRATIONS]; the scripts and what they act on are parameters. *)

Module Migrations.

Section Database.

(** What the migration scripts act on, and [database.exec(sql)]. *)
Variable Store : Type.
Variable exec : string -> Store -> Except Store.

(** The database: the [version] column of [schema_migrations] ([None]
    before the table exists), and everything else. *)
Record Database : Type := {
  schema_migrations : option (list nat);
  store : Store
}.

(** [SELECT MAX(version)]: [NULL] on an empty table. *)
Definition MAX (versions : list nat) : option nat :=
  match versions with
  | [] => None
  | v :: rest => Some (fold_right Nat.max v rest)
  end.

(** The loop of [runMigrations] from index [i]: each script and the
    insert of its version run in one transaction, which a throw rolls
    back. Returns the database and the exception that ended the loop. *)
Fixpoint migrate (pending : list string) (i : nat) (versions : list nat) (s : Store)
  : Database * option string :=
  match pending with
  | [] => ({| schema_migrations := Some versions; store := s |}, None)
  | sql :: rest =>
      let migrationVersion := i + 1 in
      match exec sql s with
      | Throw e => ({| schema_migrations := Some versions; store := s |}, Some e)
      | Return s' =>
          if existsb (Nat.eqb migrationVersion) versions then
            ({| schema_migrations := Some versions; store := s |},
             Some "SqliteError: UNIQUE constraint failed: schema_migrations.version")
          else migrate rest (S i) (versions ++ [migrationVersion])%list s'
      end
  end.

(** [CREATE TABLE IF NOT EXISTS schema_migrations]: the versions on
    record, none when the table is new. *)
Definition recorded (d : Database) : list nat :=
  match schema_migrations d with
  | Some versions => versions
  | None => []
  end.

(** [result.v ?? 0] *)
Definition currentVersion (d : Database) : nat :=
  match MAX (recorded d) with
  | Some v => v
  | None => 0
  end.

(** [runMigrations(database)] for the scripts [MIGRATIONS]. *)
Definition runMigrations (MIGRATIONS : list string) (d : Database)
  : Database * option string :=
  migrate (drop (currentVersion d) MIGRATIONS) (currentVersion d) (recorded d) (store d).

(** The scripts run one after the other. *)
Fixpoint execAll (scripts : list string) (s : Store) : Except Store :=
  match scripts with
  | [] => Return s
  | sql :: rest => let! s' := exec sql s in execAll rest s'
  end.

End Database.

Arguments schema_migrations {Store} _.
Arguments store {Store} _.
Arguments recorded {Store} d.
Arguments currentVersion {Store} d.
Arguments migrate {Store} exec pending i versions s.
Arguments runMigrations {Store} exec MIGRATIONS d.
Arguments execAll {Store} exec scripts s.

(** A database that records the scripts it is given. *)
Definition recording (sql : string) (log : list string) : Except (list string) :=
  Return (log ++ [sql])%list.

End Migrations.

(** ** The audit log ([audit.repo.ts])

    The [audit_log] table of [db.ts]: rows in insertion order, the
    AUTOINCREMENT counter, and the clock that fills [ts]. [fault] is the
    error better-sqlite3 raises on a write (disk full, database locked);
    the handle itself is [None] before [initDb] and after [closeDb]. *)

Module Audit.

Inductive Outcome : Type := success | denied | error.

Definition Outcome_text (o : Outcome) : string :=
  match o with
  | success => "success"
  | denied => "denied"
  | error => "error"
  end.

Record AuditLogEntry : Type := {
  agentId : string;
  runId : string;
  eventType : string;
  tool : option string;
  payload : HostValue;
  outcome : Outcome;
  entry_error : option string
}.

Record AuditRow : Type := {
  id : Z;
  ts : string;
  agent_id : string;
  run_id : string;
  event_type : string;
  row_tool : option string;
  row_payload : option string;
  row_outcome : string;
  row_error : option string
}.

Record AuditTable : Type := {
  rows : list AuditRow;
  sequence : Z;
  clock : string;
  fault : option string
}.

Definition MAX_PAYLOAD : nat := Z.to_nat 10000.

Definition TRUNCATED : string := "...[truncated]".

(** The [payloadStr] that [appendAuditLog] computes. *)
Definition payloadStr (p : HostValue) : option string :=
  match p with
  | Serializable None => None
  | Serializable (Some v) =>
      let s := stringify v in
      if Nat.ltb MAX_PAYLOAD (String.length s)
      then Some (slice_to MAX_PAYLOAD s ++ TRUNCATED)
      else Some s
  | Opaque => Some "[non-serializable]"
  | Unserializable _ => Some "[non-serializable]"
  end.

(** [INSERT INTO audit_log (...) VALUES (?, ?, ?, ?, ?, ?, ?)] *)
Definition insert (t : AuditTable) (entry : AuditLogEntry) (p : option string)
  : Except AuditTable :=
  match fault t with
  | Some e => Throw e
  | None =>
      Return {|
        rows := rows t ++ [{|
          id := sequence t + 1;
          ts := clock t;
          agent_id := agentId entry;
          run_id := runId entry;
          event_type := eventType entry;
          row_tool := tool entry;
          row_payload := p;
          row_outcome := Outcome_text (outcome entry);
          row_error := entry_error entry
        |}];
        sequence := sequence t + 1;
        clock := clock t;
        fault := None
      |}
  end.

Definition appendAuditLog (db : option AuditTable) (entry : AuditLogEntry)
  : Except (option AuditTable) :=
  let! t := Db.getDb db in
  let! t' := insert t entry (payloadStr (payload entry)) in
  Return (Some t').

(** [clearAuditLog(agentId?)] *)
Definition clearAuditLog (db : option AuditTable) (agent : option string)
  : Except (option AuditTable) :=
  let! t := Db.getDb db in
  match fault t with
  | Some e => Throw e
  | None =>
      let keep (r : AuditRow) :=
        match agent with
        | Some a => if String.eqb a "" then false else negb (String.eqb (agent_id r) a)
        | None => false
        end in
      Return (Some {| rows := filter (fun r => keep r = true) (rows t);
                      sequence := sequence t; clock := clock t; fault := None |})
  end.

(** [pruneAuditLog(retentionDays)]: [expired] decides
    [ts < datetime('now', '-N days')]. *)
Definition pruneAuditLog (db : option AuditTable) (expired : string -> bool)
  : Except (option AuditTable) :=
  let! t := Db.getDb db in
  match fault t with
  | Some e => Throw e
  | None =>
      Return (Some {| rows := filter (fun r => expired (ts r) = false) (rows t);
                      sequence := sequence t; clock := clock t; fault := None |})
  end.

Definition emptyTable : AuditTable :=
  {| rows := []; sequence := 0; clock := "2026-01-01 00:00:00"; fault := None |}.

(** The entry [RUNNER_START] appends for a user message that holds an
    API key. *)
Definition leakyEntry : AuditLogEntry := {|
  agentId := "a1";
  runId := "r1";
  eventType := "run-started";
  tool := None;
  payload := Serializable (Some (JObj [("userMessage", JStr "use key sk-ant-api03-SECRET")]));
  outcome := success;
  entry_error := None
|}.

(** *** Reading the log

    [AuditQueryPayload]; [limit] and [offset] are JavaScript numbers,
    of which the model holds the finite ones. *)
Record AuditQueryPayload : Type := {
  q_agentId : option string;
  q_runId : option string;
  q_limit : option Q;
  q_offset : option Q;
  q_fromDate : option string;
  q_toDate : option string
}.

(** [AuditEntry] *)
Record AuditEntry : Type := {
  e_id : Z;
  e_ts : string;
  e_agentId : string;
  e_runId : string;
  e_eventType : string;
  e_tool : option string;
  e_payload : option string;
  e_outcome : string;
  e_error : option string
}.

(** [AuditQueryResponse] *)
Record AuditQueryResponse : Type := {
  entries : list AuditEntry;
  total : nat
}.

(** [if (params.x) { conditions.push(...) }]: a parameter that is absent
    or the empty string adds no condition. *)
Definition condition (param : option string) (test : string -> bool) : bool :=
  match param with
  | None => true
  | Some v => if String.eqb v "" then true else test v
  end.

(** The [WHERE] clause; SQLite compares the text of [ts] byte by byte. *)
Definition where_ (params : AuditQueryPayload) (r : AuditRow) : bool :=
  condition (q_agentId params) (fun a => String.eqb (agent_id r) a)
  && condition (q_runId params) (fun a => String.eqb (run_id r) a)
  && condition (q_fromDate params) (fun d => String.leb d (ts r))
  && condition (q_toDate params) (fun d => String.leb (ts r) d).

(** [ORDER BY id DESC] *)
Fixpoint insert_desc (r : AuditRow) (l : list AuditRow) : list AuditRow :=
  match l with
  | [] => [r]
  | x :: rest => if Z.leb (id x) (id r) then r :: l else x :: insert_desc r rest
  end.

Definition order_by_id_desc (l : list AuditRow) : list AuditRow :=
  fold_right insert_desc [] l.

(** [LIMIT ? OFFSET ?]: a negative limit is no limit, a negative offset
    is no offset. *)
Definition limit_offset (limit offset : Z) (l : list AuditRow) : list AuditRow :=
  let l := drop (Z.to_nat offset) l in
  if Z.ltb limit 0 then l else take (Z.to_nat limit) l.

(** [rows.map((r) => ({ id: r.id, ... }))] *)
Definition toEntry (r : AuditRow) : AuditEntry := {|
  e_id := id r;
  e_ts := ts r;
  e_agentId := agent_id r;
  e_runId := run_id r;
  e_eventType := event_type r;
  e_tool := row_tool r;
  e_payload := row_payload r;
  e_outcome := row_outcome r;
  e_error := row_error r
|}.

(** A number bound to [LIMIT ?] or [OFFSET ?]. better-sqlite3 binds a
    number that is not a 32-bit integer as a double, and SQLite takes a
    double for a limit only when it is a whole number strictly between
    the smallest and the largest 64-bit integer; for any other the
    statement throws. *)
Definition DATATYPE_MISMATCH : string := "SqliteError: datatype mismatch".

Definition mustBeInt (x : Q) : Except Z :=
  let n := (Qnum x / Z.pos (Qden x))%Z in
  if Z.eqb (Qnum x mod Z.pos (Qden x)) 0
     && Z.ltb (- 2 ^ 63) n && Z.ltb n (2 ^ 63 - 1)
  then Return n
  else Throw DATATYPE_MISMATCH.

(** [params.limit ?? 100] and [params.offset ?? 0], as the statement
    receives them. *)
Definition limit_of (params : AuditQueryPayload) : Q :=
  match q_limit params with Some n => n | None => 100 end.

Definition offset_of (params : AuditQueryPayload) : Q :=
  match q_offset params with Some n => n | None => 0 end.

Definition bind_page (params : AuditQueryPayload) : Except (Z * Z) :=
  let! limit := mustBeInt (limit_of params) in
  let! offset := mustBeInt (offset_of params) in
  Return (limit, offset).

(** [queryAuditLog(params)]: the statement that counts, then the one
    that reads the page. *)
Definition queryAuditLog (db : option AuditTable) (params : AuditQueryPayload)
  : Except AuditQueryResponse :=
  let! t := Db.getDb db in
  let selected := filter (fun r => where_ params r = true) (rows t) in
  let total := length selected in
  let! page := bind_page params in
  Return {| entries := map toEntry
                         (limit_offset (fst page) (snd page) (order_by_id_desc selected));
            total := total |}.

(** The query of one agent's log, and of one run's. *)
Definition byAgent (agent : string) (limit offset : option Q) : AuditQueryPayload :=
  {| q_agentId := Some agent; q_runId := None; q_limit := limit; q_offset := offset;
     q_fromDate := None; q_toDate := None |}.

Definition byRun (run : string) : AuditQueryPayload :=
  {| q_agentId := None; q_runId := Some run; q_limit := None; q_offset := None;
     q_fromDate := None; q_toDate := None |}.

(** Every id of the table was issued by its AUTOINCREMENT counter. *)
Definition issued (t : AuditTable) : Prop :=
  Forall (fun r => (id r <= sequence t)%Z) (rows t).

(** A row comes before another on a page when its id is not smaller. *)
Definition newer (a b : AuditRow) : Prop := (id b <= id a)%Z.

Definition newest_first (l : list AuditEntry) : Prop :=
  StronglySorted (fun a b => (e_id b <= e_id a)%Z) l.

(** A log of two agents, for the examples. *)
Definition twoAgents : AuditTable := {|
  rows := [
    {| id := 1; ts := "2026-01-01 00:00:00"; agent_id := "a1"; run_id := "r1";
       event_type := "run-started"; row_tool := None; row_payload := None;
       row_outcome := "success"; row_error := None |};
    {| id := 2; ts := "2026-01-01 00:00:05"; agent_id := "a2"; run_id := "r2";
       event_type := "run-started"; row_tool := None; row_payload := None;
       row_outcome := "success"; row_error := None |}];
  sequence := 2;
  clock := "2026-01-01 00:00:09";
  fault := None
|}.

End Audit.

(** ** The runner ([runner.ipc.ts])

    The three IPC handlers and [runAgent]. Each handler runs to
    completion; [runAgent] is suspended at the [await] of its streaming
    loop and resumed when its timer fires. An [AbortController] is a
    reference: the run entry and the suspended [runAgent] share it.
    Resolver callbacks are references as well, and the world records
    every call made to one. Timestamps are left out of the events. *)

Module Runner.

Inductive RunnerEventType : Type :=
| run_started
| node_started
| node_completed
| node_error
| llm_chunk
| llm_tool_call
| tool_call
| tool_result
| requires_confirmation
| security_warning
| run_completed
| run_error.

Record RunnerEvent : Type := {
  type : RunnerEventType;
  runId : string;
  nodeId : option string;
  data : json
}.

Inductive IpcResponse (A : Type) : Type :=
| ok (data : A)
| err (error : string).
Arguments ok {A} data.
Arguments err {A} error.

Record RunnerStartPayload : Type := {
  p_agentId : string;
  p_userMessage : string;
  p_runId : string
}.

Inductive StartData : Type := Started (runId : string).
Inductive StopData : Type := Stopped.
Inductive ConfirmData : Type := Confirmed.

(** The fields of an [AgentDefinition] that the runner reads. *)
Record Agent : Type := {
  name : string;
  auditEnabled : bool
}.

(** An entry of [activeRuns]. *)
Record Run : Type := {
  abortController : nat;
  confirmations : gmap string nat
}.

(** A [runAgent] suspended at [await new Promise((r) => setTimeout(r, 10))]. *)
Record Task : Type := {
  t_agent : Agent;
  t_agentId : string;
  t_runId : string;
  t_abortController : nat;
  t_responseText : string;
  t_rest : string
}.

Record World : Type := {
  (* [agentsRepo.getAgent] *)
  getAgent : string -> Except (option Agent);
  (* the audit database *)
  db : option Audit.AuditTable;
  activeRuns : gmap string Run;
  (* the controllers whose signal is aborted, and the next fresh one *)
  aborted : gset nat;
  nextController : nat;
  (* suspended [runAgent]s, by their controller *)
  tasks : gmap nat Task;
  (* the events handed to [webContents.send], oldest first *)
  events : list RunnerEvent;
  (* the calls made to resolver callbacks, oldest first *)
  resolverCalls : list (nat * string)
}.

Definition emitToRenderer (w : World) (ev : RunnerEvent) : World :=
  {| getAgent := getAgent w; db := db w; activeRuns := activeRuns w;
     aborted := aborted w; nextController := nextController w;
     tasks := tasks w; events := events w ++ [ev];
     resolverCalls := resolverCalls w |}.

Definition set_activeRuns (w : World) (m : gmap string Run) : World :=
  {| getAgent := getAgent w; db := db w; activeRuns := m;
     aborted := aborted w; nextController := nextController w;
     tasks := tasks w; events := events w;
     resolverCalls := resolverCalls w |}.

Definition set_db (w : World) (d : option Audit.AuditTable) : World :=
  {| getAgent := getAgent w; db := d; activeRuns := activeRuns w;
     aborted := aborted w; nextController := nextController w;
     tasks := tasks w; events := events w;
     resolverCalls := resolverCalls w |}.

Definition set_tasks (w : World) (ts : gmap nat Task) : World :=
  {| getAgent := getAgent w; db := db w; activeRuns := activeRuns w;
     aborted := aborted w; nextController := nextController w;
     tasks := ts; events := events w;
     resolverCalls := resolverCalls w |}.

(** [new AbortController()] *)
Definition newAbortController (w : World) : World * nat :=
  ({| getAgent := getAgent w; db := db w; activeRuns := activeRuns w;
      aborted := aborted w; nextController := S (nextController w);
      tasks := tasks w; events := events w;
      resolverCalls := resolverCalls w |}, nextController w).

(** [abortController.abort()] *)
Definition abort (w : World) (c : nat) : World :=
  {| getAgent := getAgent w; db := db w; activeRuns := activeRuns w;
     aborted := {[c]} ∪ aborted w; nextController := nextController w;
     tasks := tasks w; events := events w;
     resolverCalls := resolverCalls w |}.

(** [abortController.signal.aborted] *)
Definition signal_aborted (w : World) (c : nat) : bool :=
  bool_decide (c ∈ aborted w).

(** [resolver(decision)] *)
Definition callResolver (w : World) (r : nat) (decision : string) : World :=
  {| getAgent := getAgent w; db := db w; activeRuns := activeRuns w;
     aborted := aborted w; nextController := nextController w;
     tasks := tasks w; events := events w;
     resolverCalls := resolverCalls w ++ [(r, decision)] |}.

Definition newline : string := String "010"%char EmptyString.

(** The placeholder answer that [runAgent] streams. *)
Definition responseText (agent : Agent) (userMessage : string) : string :=
  "[Agent " ++ dquote ++ name agent ++ dquote
  ++ " received your message. LLM integration coming in Phase 3.]"
  ++ newline ++ newline ++ "Your message: " ++ userMessage.

(** The [.catch] of [RUNNER_START] on the promise of [runAgent]. *)
Definition onRunRejected (w : World) (runId : string) (runErr : string) : World :=
  let w := emitToRenderer w
    {| type := run_error; runId := runId; nodeId := None;
       data := JObj [("error", JStr runErr)] |} in
  set_activeRuns w (delete runId (activeRuns w)).

(** [runAgent] from the end of its loop: the two completion events, the
    audit write, the [finally]; a throw rejects the promise. *)
Definition finishRun (w : World) (t : Task) : World :=
  let w := emitToRenderer w
    {| type := node_completed; runId := t_runId t; nodeId := Some "node-llm";
       data := JObj [("outputVariable", JStr "llmResponse");
                     ("value", JStr (t_responseText t))] |} in
  let w := emitToRenderer w
    {| type := run_completed; runId := t_runId t; nodeId := None;
       data := JObj [("result", JStr (t_responseText t))] |} in
  let written :=
    if auditEnabled (t_agent t) then
      Audit.appendAuditLog (db w)
        {| Audit.agentId := t_agentId t; Audit.runId := t_runId t;
           Audit.eventType := "run-completed"; Audit.tool := None;
           Audit.payload := Serializable None; Audit.outcome := Audit.success;
           Audit.entry_error := None |}
    else Return (db w) in
  match written with
  | Return d =>
      let w := set_db w d in
      set_activeRuns w (delete (t_runId t) (activeRuns w))
  | Throw e =>
      let w := set_activeRuns w (delete (t_runId t) (activeRuns w)) in
      onRunRejected w (t_runId t) e
  end.

(** The streaming loop of [runAgent], from one iteration's start to the
    next [await] or to the end of the function. *)
Definition stream (w : World) (t : Task) : World :=
  match t_rest t with
  | EmptyString => finishRun w t
  | String char rest =>
      if signal_aborted w (t_abortController t) then finishRun w t
      else
        let w := emitToRenderer w
          {| type := llm_chunk; runId := t_runId t; nodeId := Some "node-llm";
             data := JObj [("chunk", JStr (String char EmptyString))] |} in
        set_tasks w (<[t_abortController t :=
                        {| t_agent := t_agent t; t_agentId := t_agentId t;
                           t_runId := t_runId t;
                           t_abortController := t_abortController t;
                           t_responseText := t_responseText t;
                           t_rest := rest |}]> (tasks w))
  end.

(** [runAgent(params)], up to its first [await]. *)
Definition runAgent (w : World) (agent : Agent) (userMessage runId agentId : string)
    (controller : nat) : World :=
  let w := emitToRenderer w
    {| type := node_started; runId := runId; nodeId := Some "node-llm";
       data := JObj [("message", JStr ("Processing: " ++ userMessage))] |} in
  if signal_aborted w controller then
    let w := set_activeRuns w (delete runId (activeRuns w)) in
    onRunRejected w runId "Error: Run aborted by user"
  else
    stream w {| t_agent := agent; t_agentId := agentId; t_runId := runId;
                t_abortController := controller;
                t_responseText := responseText agent userMessage;
                t_rest := responseText agent userMessage |}.

(** The timer of a suspended [runAgent] fires. *)
Definition timerFires (w : World) (controller : nat) : World :=
  match tasks w !! controller with
  | None => w
  | Some t => stream (set_tasks w (delete controller (tasks w))) t
  end.

Definition startedEntry (payload : RunnerStartPayload) : Audit.AuditLogEntry :=
  {| Audit.agentId := p_agentId payload; Audit.runId := p_runId payload;
     Audit.eventType := "run-started"; Audit.tool := None;
     Audit.payload :=
       Serializable (Some (JObj [("userMessage",
                                  JStr (slice_to 200 (p_userMessage payload)))]));
     Audit.outcome := Audit.success;
     Audit.entry_error := None |}.

(** The handler of [IPC_CHANNELS.RUNNER_START]. *)
Definition RUNNER_START (w : World) (payload : RunnerStartPayload)
  : World * IpcResponse StartData :=
  match getAgent w (p_agentId payload) with
  | Throw e => (w, err e)
  | Return None => (w, err "Agent not found")
  | Return (Some agent) =>
      let '(w, controller) := newAbortController w in
      let w := set_activeRuns w
        (<[p_runId payload :=
             {| abortController := controller; confirmations := ∅ |}]> (activeRuns w)) in
      let w := emitToRenderer w
        {| type := run_started; runId := p_runId payload; nodeId := None;
           data := JObj [("agentId", JStr (p_agentId payload));
                         ("agentName", JStr (name agent))] |} in
      let written :=
        if auditEnabled agent
        then Audit.appendAuditLog (db w) (startedEntry payload)
        else Return (db w) in
      match written with
      | Throw e => (w, err e)
      | Return d =>
          let w := set_db w d in
          (runAgent w agent (p_userMessage payload) (p_runId payload)
                    (p_agentId payload) controller,
           ok (Started (p_runId payload)))
      end
  end.

(** The handler of [IPC_CHANNELS.RUNNER_STOP]. *)
Definition RUNNER_STOP (w : World) (runId : string) : World * IpcResponse StopData :=
  match activeRuns w !! runId with
  | None => (w, err "Run not found or already completed")
  | Some run =>
      let w := abort w (abortController run) in
      (set_activeRuns w (delete runId (activeRuns w)), ok Stopped)
  end.

(** The handler of [IPC_CHANNELS.RUNNER_CONFIRM]. *)
Definition RUNNER_CONFIRM (w : World) (runId confirmationId decision : string)
  : World * IpcResponse ConfirmData :=
  match activeRuns w !! runId with
  | None => (w, err "Run not found")
  | Some run =>
      match confirmations run !! confirmationId with
      | None => (w, err "Confirmation not found")
      | Some resolver =>
          let w := callResolver w resolver decision in
          (set_activeRuns w
             (<[runId := {| abortController := abortController run;
                            confirmations := delete confirmationId (confirmations run) |}]>
                (activeRuns w)),
           ok Confirmed)
      end
  end.

(** What the main process does next. *)
Inductive Action : Type :=
| Start (payload : RunnerStartPayload)
| Stop (runId : string)
| Confirm (runId confirmationId decision : string)
| Timer (controller : nat).

Definition step (w : World) (a : Action) : World :=
  match a with
  | Start payload => fst (RUNNER_START w payload)
  | Stop runId => fst (RUNNER_STOP w runId)
  | Confirm runId confirmationId decision =>
      fst (RUNNER_CONFIRM w runId confirmationId decision)
  | Timer controller => timerFires w controller
  end.

Definition steps (w : World) (actions : list Action) : World :=
  fold_left step actions w.

(** The event types sent for a run. *)
Definition eventTypes (runId0 : string) (evs : list RunnerEvent) : list RunnerEventType :=
  map type (filter (fun ev => runId ev = runId0) evs).

Definition isTerminal (ty : RunnerEventType) : bool :=
  match ty with
  | run_completed | run_error => true
  | _ => false
  end.

(** No run holds a resolver. *)
Definition nothing_pending (w : World) : Prop :=
  forall r run, activeRuns w !! r = Some run -> confirmations run = ∅.

(** The events sent between world [w] and a later world [w']. *)
Definition emitted (w w' : World) : list RunnerEvent :=
  drop (length (events w)) (events w').

(** *** Worlds for the examples *)

Definition helper : Agent := {| name := "helper"; auditEnabled := true |}.
Definition quiet : Agent := {| name := "quiet"; auditEnabled := false |}.

Definition repo (agentId : string) : Except (option Agent) :=
  if String.eqb agentId "a1" then Return (Some helper)
  else if String.eqb agentId "a2" then Return (Some quiet)
  else Return None.

Definition world0 (table : option Audit.AuditTable) : World :=
  {| getAgent := repo; db := table; activeRuns := ∅; aborted := ∅;
     nextController := 0; tasks := ∅; events := []; resolverCalls := [] |}.

Definition fullDisk : Audit.AuditTable :=
  {| Audit.rows := []; Audit.sequence := 0; Audit.clock := "2026-01-01 00:00:00";
     Audit.fault := Some "SqliteError: database or disk is full" |}.

Definition startQuiet : RunnerStartPayload :=
  {| p_agentId := "a2"; p_userMessage := "hi"; p_runId := "r1" |}.

Definition startHelper : RunnerStartPayload :=
  {| p_agentId := "a1"; p_userMessage := "hi"; p_runId := "r1" |}.

(** What a confirmation broker would do to make a run wait for the
    user's decision: store a resolver in the run's [confirmations]. *)
Definition withPending (w : World) (runId confirmationId : string) (resolver : nat)
  : World :=
  match activeRuns w !! runId with
  | None => w
  | Some run =>
      set_activeRuns w
        (<[runId := {| abortController := abortController run;
                       confirmations := <[confirmationId := resolver]> (confirmations run) |}]>
           (activeRuns w))
  end.

(** Run [r1] of agent [a2], waiting on confirmation [c1]. *)
Definition pendingWorld : World :=
  withPending (fst (RUNNER_START (world0 (Some Audit.emptyTable)) startQuiet)) "r1" "c1" 7.

Definition pendingRun : Run :=
  {| abortController := 0; confirmations := {[ "c1" := 7 ]} |}.

(** *** A complete run *)

(** The [llm-chunk] events of a text: one for each character. *)
Fixpoint chunkEvents (runId0 : string) (text : string) : list RunnerEvent :=
  match text with
  | EmptyString => []
  | String char rest =>
      {| type := llm_chunk; runId := runId0; nodeId := Some "node-llm";
         data := JObj [("chunk", JStr (String char EmptyString))] |}
      :: chunkEvents runId0 rest
  end.

(** The events of a run that is not stopped and whose audit writes
    succeed, in the order they are sent. *)
Definition completeRun (payload : RunnerStartPayload) (agent : Agent) : list RunnerEvent :=
  let text := responseText agent (p_userMessage payload) in
  ([{| type := run_started; runId := p_runId payload; nodeId := None;
       data := JObj [("agentId", JStr (p_agentId payload));
                     ("agentName", JStr (name agent))] |};
    {| type := node_started; runId := p_runId payload; nodeId := Some "node-llm";
       data := JObj [("message", JStr ("Processing: " ++ p_userMessage payload))] |}]
   ++ chunkEvents (p_runId payload) text
   ++ [{| type := node_completed; runId := p_runId payload; nodeId := Some "node-llm";
          data := JObj [("outputVariable", JStr "llmResponse"); ("value", JStr text)] |};
       {| type := run_completed; runId := p_runId payload; nodeId := None;
          data := JObj [("result", JStr text)] |}])%list.

(** The agent keeps no audit log, or the log can be written. *)
Definition audit_writable (agent : Agent) (d : option Audit.AuditTable) : Prop :=
  auditEnabled agent = false \/ exists t, d = Some t /\ Audit.fault t = None.

(** The timers that resume a run until its text is streamed. *)
Definition timers (controller : nat) (text : string) : list Action :=
  repeat (Timer controller) (String.length text).

(** The database after the [run-started] write of [RUNNER_START]. *)
Definition startedDb (agent : Agent) (payload : RunnerStartPayload)
    (d : option Audit.AuditTable) : option Audit.AuditTable :=
  if auditEnabled agent then
    match Audit.appendAuditLog d (startedEntry payload) with
    | Return d' => d'
    | Throw _ => d
    end
  else d.

End Runner.

(** ** The renderer's runner store ([useRunnerStore])

    The store folds the events of the main process into what the run
    console shows. [uuidv4()] and the timestamps are arguments. *)

Module RunnerStore.
Import Runner.

Inductive EntryType : Type := user | assistant | tool | system | error | warning.

Record ConsoleEntry : Type := {
  entry_id : string;
  timestamp : string;
  entry_type : EntryType;
  content : string;
  entry_nodeId : option string
}.

Record RunnerState : Type := {
  s_runId : option string;
  isRunning : bool;
  activeNodeId : option string;
  completedNodeIds : gset string;
  errorNodeIds : gset string;
  consoleEntries : list ConsoleEntry;
  pendingConfirmation : option json;
  streamingText : string
}.

(** The initial state of the store. *)
Definition initialState : RunnerState := {|
  s_runId := None; isRunning := false; activeNodeId := None;
  completedNodeIds := ∅; errorNodeIds := ∅; consoleEntries := [];
  pendingConfirmation := None; streamingText := ""
|}.

(** [s.consoleEntries.push(entry)] *)
Definition push (s : RunnerState) (entry : ConsoleEntry) : RunnerState :=
  {| s_runId := s_runId s; isRunning := isRunning s; activeNodeId := activeNodeId s;
     completedNodeIds := completedNodeIds s; errorNodeIds := errorNodeIds s;
     consoleEntries := (consoleEntries s ++ [entry])%list;
     pendingConfirmation := pendingConfirmation s; streamingText := streamingText s |}.

Definition set_activeNodeId (s : RunnerState) (n : option string) : RunnerState :=
  {| s_runId := s_runId s; isRunning := isRunning s; activeNodeId := n;
     completedNodeIds := completedNodeIds s; errorNodeIds := errorNodeIds s;
     consoleEntries := consoleEntries s;
     pendingConfirmation := pendingConfirmation s; streamingText := streamingText s |}.

(** The last entry of the console, and the entries before it. *)
Fixpoint lastEntry (l : list ConsoleEntry) : option (list ConsoleEntry * ConsoleEntry) :=
  match l with
  | [] => None
  | [e] => Some ([], e)
  | e :: rest =>
      match lastEntry rest with
      | Some (before, final) => Some (e :: before, final)
      | None => None
      end
  end.

Definition nodeId_eqb (a b : option string) : bool :=
  match a, b with
  | Some x, Some y => String.eqb x y
  | None, None => true
  | _, _ => false
  end.

(** The [llm-chunk] case: the chunk is appended to [streamingText], and
    the last console entry is rewritten when it is the assistant entry
    of the same node; otherwise a new entry is pushed. *)
Definition addChunk (uuid now : string) (s : RunnerState) (node : option string)
    (chunk : jsval) : RunnerState :=
  let text := streamingText s ++ toString chunk in
  let entries :=
    match lastEntry (consoleEntries s) with
    | Some (before, final) =>
        match entry_type final with
        | assistant =>
            if nodeId_eqb (entry_nodeId final) node then
              (before ++ [{| entry_id := entry_id final; timestamp := timestamp final;
                             entry_type := assistant; content := text;
                             entry_nodeId := entry_nodeId final |}])%list
            else
              (consoleEntries s ++ [{| entry_id := uuid; timestamp := now;
                                       entry_type := assistant; content := text;
                                       entry_nodeId := node |}])%list
        | _ =>
            (consoleEntries s ++ [{| entry_id := uuid; timestamp := now;
                                     entry_type := assistant; content := text;
                                     entry_nodeId := node |}])%list
        end
    | None =>
        [{| entry_id := uuid; timestamp := now; entry_type := assistant;
            content := text; entry_nodeId := node |}]
    end in
  {| s_runId := s_runId s; isRunning := isRunning s; activeNodeId := activeNodeId s;
     completedNodeIds := completedNodeIds s; errorNodeIds := errorNodeIds s;
     consoleEntries := entries;
     pendingConfirmation := pendingConfirmation s; streamingText := text |}.

(** [if (event.nodeId)] *)
Definition given (node : option string) : option string :=
  match node with
  | Some n => if String.eqb n "" then None else Some n
  | None => None
  end.

(** The store is an immer store that holds two [Set]s, and nothing in
    the repository calls [enableMapSet()]: reading [s.completedNodeIds]
    or [s.errorNodeIds] of the draft throws, whatever the set is then
    asked to do. (The text is the one of a development build.) *)
Definition MAPSET_NOT_LOADED : string :=
  "Error: [Immer] The plugin for 'MapSet' has not been loaded into Immer. "
  ++ "To enable the plugin, import and call `enableMapSet()` when "
  ++ "initializing your application.".

(** [handleEvent(event)]; [uuid] is what [uuidv4()] returns when the
    case calls it, [now] the event's [timestamp]. A recipe of [set]
    that throws leaves the store as it was. *)
Definition handleEvent (uuid now : string) (s : RunnerState) (event : RunnerEvent)
  : Except RunnerState :=
  match type event with
  | node_started => Return (set_activeNodeId s (nodeId event))
  | node_completed =>
      match given (nodeId event) with
      | Some n =>
          (* s.completedNodeIds.add(event.nodeId) *)
          let! _ := @Throw unit MAPSET_NOT_LOADED in
          Return (if nodeId_eqb (activeNodeId s) (Some n)
                  then set_activeNodeId s None else s)
      | None => Return s
      end
  | node_error =>
      let! s :=
        match given (nodeId event) with
        | Some n =>
            (* s.errorNodeIds.add(event.nodeId) *)
            let! _ := @Throw unit MAPSET_NOT_LOADED in
            Return (set_activeNodeId s None)
        | None => Return s
        end in
      Return (push s {| entry_id := uuid; timestamp := now; entry_type := error;
                        content := "Node error: " ++ stringify (data event);
                        entry_nodeId := nodeId event |})
  | llm_chunk =>
      let! chunk := member "chunk" (data event) in
      Return (addChunk uuid now s (nodeId event) chunk)
  | tool_call =>
      Return (push s {| entry_id := uuid; timestamp := now; entry_type := tool;
                        content := "Tool: " ++ stringify (data event);
                        entry_nodeId := nodeId event |})
  | requires_confirmation =>
      Return {| s_runId := s_runId s; isRunning := isRunning s;
                activeNodeId := activeNodeId s;
                completedNodeIds := completedNodeIds s; errorNodeIds := errorNodeIds s;
                consoleEntries := consoleEntries s;
                pendingConfirmation := Some (data event);
                streamingText := streamingText s |}
  | security_warning =>
      Return (push s {| entry_id := uuid; timestamp := now; entry_type := warning;
                        content := "Security: " ++ stringify (data event);
                        entry_nodeId := None |})
  | run_completed =>
      Return {| s_runId := s_runId s; isRunning := false; activeNodeId := None;
                completedNodeIds := completedNodeIds s; errorNodeIds := errorNodeIds s;
                consoleEntries := consoleEntries s;
                pendingConfirmation := pendingConfirmation s;
                streamingText := "" |}
  | run_error =>
      let s :=
        {| s_runId := s_runId s; isRunning := false; activeNodeId := None;
           completedNodeIds := completedNodeIds s; errorNodeIds := errorNodeIds s;
           consoleEntries := consoleEntries s;
           pendingConfirmation := pendingConfirmation s;
           streamingText := streamingText s |} in
      let! message := member "error" (data event) in
      Return (push s {| entry_id := uuid; timestamp := now; entry_type := error;
                        content := "Run failed: " ++ toString message;
                        entry_nodeId := None |})
  | run_started | llm_tool_call | tool_result => Return s
  end.


(** [startRun(agentId, userMessage)], up to its call of the main
    process; [runId0] and [uuid] are what the two [uuidv4()] return and
    [now] is [new Date().toISOString()]. *)
Definition startRun (runId0 uuid now userMessage : string) (s : RunnerState)
  : RunnerState :=
  {| s_runId := Some runId0; isRunning := true; activeNodeId := None;
     completedNodeIds := ∅; errorNodeIds := ∅;
     consoleEntries :=
       (consoleEntries s ++ [{| entry_id := uuid; timestamp := now; entry_type := user;
                                content := userMessage; entry_nodeId := None |}])%list;
     pendingConfirmation := None; streamingText := "" |}.

(** The events of the main process, handled in the order they arrive,
    each by a call of its own of the listener; [stamp i] gives the
    [uuidv4()] and the [timestamp] of the [i]-th. When [handleEvent]
    throws, the store keeps its state, the exception is left uncaught in
    the renderer, and the next event is handled as usual. The result is
    the last state and the exceptions thrown on the way. *)
Fixpoint handleEvents (stamp : nat -> string * string) (i : nat) (s : RunnerState)
    (evs : list RunnerEvent) : RunnerState * list string :=
  match evs with
  | [] => (s, [])
  | ev :: rest =>
      match handleEvent (fst (stamp i)) (snd (stamp i)) s ev with
      | Return s' => handleEvents stamp (S i) s' rest
      | Throw e =>
          let (s', uncaught) := handleEvents stamp (S i) s rest in (s', e :: uncaught)
      end
  end.

End RunnerStore.

(** ** Settings and secrets ([settings.repo.ts], [settings.ipc.ts])

    The [settings] table is a map from keys to values. Electron's
    [safeStorage] and Node's base64 codec are the platform's: the model
    takes them as a record. A [Buffer] is the string of its bytes. *)

Module Settings.

Record SafeStorage : Type := {
  encryptString : string -> string;
  decryptString : string -> Except string;
  toBase64 : string -> string;      (* [buf.toString('base64')] *)
  fromBase64 : string -> string     (* [Buffer.from(text, 'base64')] *)
}.

Definition SECRET_PREFIX : string := "secret:".

Definition dbGet (db : option (gmap string string)) (key : string)
  : Except (option string) :=
  let! t := Db.getDb db in
  Return (t !! key).

Definition dbSet (db : option (gmap string string)) (key value : string)
  : Except (option (gmap string string)) :=
  let! t := Db.getDb db in
  Return (Some (<[key := value]> t)).

Definition dbDelete (db : option (gmap string string)) (key : string)
  : Except (option (gmap string string)) :=
  let! t := Db.getDb db in
  Return (Some (delete key t)).

(** [setSecret(key, value)]; [available] is
    [safeStorage.isEncryptionAvailable()] at the time of the call. *)
Definition setSecret (ss : SafeStorage) (available : bool)
    (db : option (gmap string string)) (key value : string)
  : Except (option (gmap string string)) :=
  if negb available then dbSet db (SECRET_PREFIX ++ key) ("PLAIN:" ++ value)
  else
    let encrypted := encryptString ss value in
    dbSet db (SECRET_PREFIX ++ key) (toBase64 ss encrypted).

(** [getSecret(key)]: [None] is [null]. *)
Definition getSecret (ss : SafeStorage) (available : bool)
    (db : option (gmap string string)) (key : string) : Except (option string) :=
  let! stored := dbGet db (SECRET_PREFIX ++ key) in
  match stored with
  | None => Return None
  | Some stored =>
      if String.eqb stored "" then Return None
      else if startsWith "PLAIN:" stored then Return (Some (slice_from 6 stored))
      else if negb available then Return None
      else
        (* [try { return decryptString(buf) } catch { return null }] *)
        match decryptString ss (fromBase64 ss stored) with
        | Return v => Return (Some v)
        | Throw _ => Return None
        end
  end.

(** [deleteSecret(key)] *)
Definition deleteSecret (db : option (gmap string string)) (key : string)
  : Except (option (gmap string string)) :=
  dbDelete db (SECRET_PREFIX ++ key).

Inductive IpcResponse (A : Type) : Type :=
| ok (data : A)
| err (error : string).
Arguments ok {A} data.
Arguments err {A} error.

(** [{ exists: boolean }] *)
Record SecretStatus : Type := { exists_ : bool }.

(** The handler of [IPC_CHANNELS.SETTINGS_GET_SECRET]: what goes back to
    the renderer. *)
Definition SETTINGS_GET_SECRET (ss : SafeStorage) (available : bool)
    (db : option (gmap string string)) (key : string) : IpcResponse SecretStatus :=
  tryCatch
    (let! value := getSecret ss available db key in
     Return (ok {| exists_ := match value with Some _ => true | None => false end |}))
    err.

(** The platform's contract: decryption undoes encryption through the
    base64 text, and that text is never empty and holds no colon (so it
    never starts with [PLAIN:]). *)
Record lawful (ss : SafeStorage) : Prop := {
  decrypt_encrypt :
    forall v, decryptString ss (fromBase64 ss (toBase64 ss (encryptString ss v))) = Return v;
  sealed_nonempty :
    forall v, String.eqb (toBase64 ss (encryptString ss v)) "" = false;
  sealed_not_plain :
    forall v, startsWith "PLAIN:" (toBase64 ss (encryptString ss v)) = false
}.

(** A storage for the examples: a version tag in front of the text, and
    the identity for base64. *)
Definition toyStorage : SafeStorage := {|
  encryptString := fun v => "v10" ++ v;
  decryptString := fun b =>
    if startsWith "v10" b then Return (slice_from 3 b) else Throw "Error: decrypt failed";
  toBase64 := fun b => b;
  fromBase64 := fun t => t
|}.

(** *** The names of the secrets *)

(** ASCII lower case, as SQLite's [LIKE] folds it. *)
Definition lower (c : ascii) : ascii :=
  let n := nat_of_ascii c in
  if Nat.leb 65 n && Nat.leb n 90 then ascii_of_nat (n + 32) else c.

(** [s LIKE pattern]: [%] matches any run of characters, [_] any one
    character, the others themselves without regard to ASCII case. *)
Fixpoint like (pattern s : string) : bool :=
  match pattern with
  | EmptyString => match s with EmptyString => true | _ => false end
  | String p pattern' =>
      if Ascii.eqb p "%" then
        (fix any (s : string) : bool :=
           like pattern' s ||
           match s with
           | EmptyString => false
           | String _ s' => any s'
           end) s
      else
        match s with
        | EmptyString => false
        | String c s' =>
            (Ascii.eqb p "_" || Ascii.eqb (lower p) (lower c)) && like pattern' s'
        end
  end.

(** [listSecretKeys()]. The rows come in the order SQLite walks the
    table; the order of [map_to_list] stands for it. *)
Definition listSecretKeys (db : option (gmap string string)) : Except (list string) :=
  let! t := Db.getDb db in
  Return (map (fun row => slice_from (String.length SECRET_PREFIX) (fst row))
              (filter (fun row => like (SECRET_PREFIX ++ "%") (fst row) = true)
                      (map_to_list t))).

Definition is_letter (c : ascii) : bool :=
  let n := nat_of_ascii c in
  (Nat.leb 65 n && Nat.leb n 90) || (Nat.leb 97 n && Nat.leb n 122).

Definition is_digit (c : ascii) : bool :=
  let n := nat_of_ascii c in Nat.leb 48 n && Nat.leb n 57.

(** [/^[a-zA-Z][a-zA-Z0-9_-]*$/.test(key)] *)
Definition valid_secret_key (key : string) : bool :=
  match key with
  | EmptyString => false
  | String c rest =>
      is_letter c &&
      forallb (fun c => is_letter c || is_digit c || Ascii.eqb c "_" || Ascii.eqb c "-")
              (list_ascii_of_string rest)
  end.

Inductive SavedData : Type := Saved.

Inductive DeletedData : Type := Deleted.

(** The handler of [IPC_CHANNELS.SETTINGS_SET_SECRET]. *)
Definition SETTINGS_SET_SECRET (ss : SafeStorage) (available : bool)
    (db : option (gmap string string)) (key value : string)
  : option (gmap string string) * IpcResponse SavedData :=
  if negb (valid_secret_key key) then (db, err "Invalid secret key name")
  else
    match setSecret ss available db key value with
    | Return db' => (db', ok Saved)
    | Throw e => (db, err e)
    end.

(** The handler of [IPC_CHANNELS.SETTINGS_DELETE_SECRET]. *)
Definition SETTINGS_DELETE_SECRET (db : option (gmap string string)) (key : string)
  : option (gmap string string) * IpcResponse DeletedData :=
  match deleteSecret db key with
  | Return db' => (db', ok Deleted)
  | Throw e => (db, err e)
  end.

(** The handler of [IPC_CHANNELS.SETTINGS_LIST_SECRET_KEYS]. *)
Definition SETTINGS_LIST_SECRET_KEYS (db : option (gmap string string))
  : IpcResponse (list string) :=
  tryCatch (let! keys := listSecretKeys db in Return (ok keys)) err.

(** The keys the repository writes: [app_settings], and the secrets
    under their prefix. *)
Definition repo_keys (t : gmap string string) : Prop :=
  forall k v, t !! k = Some v -> k = "app_settings" \/ exists name, k = SECRET_PREFIX ++ name.

End Settings.

(** ** The renderer's settings store ([settingsStore.ts])

    The store keeps the names of the stored secrets in [secretKeys]; it
    reaches the main process through [ipcCall], and an action whose call
    is refused leaves the store as it was. *)

Module SettingsStore.
Import Settings.

(** [ipcCall(promise)]: the data of the response, or its error thrown. *)
Definition ipcCall {A} (response : IpcResponse A) : Except A :=
  match response with
  | ok data => Return data
  | err e => Throw ("Error: " ++ e)
  end.

(** The settings table of the main process and the [secretKeys] of the
    renderer's store. *)
Record App : Type := {
  table : option (gmap string string);
  secretKeys : list string
}.

(** [useSettingsStore.setSecret(key, value)] *)
Definition store_setSecret (ss : SafeStorage) (available : bool) (app : App)
    (key value : string) : App * Except unit :=
  let '(db, response) := SETTINGS_SET_SECRET ss available (table app) key value in
  match ipcCall response with
  | Throw e => ({| table := db; secretKeys := secretKeys app |}, Throw e)
  | Return _ =>
      ({| table := db;
          secretKeys :=
            if existsb (String.eqb key) (secretKeys app) then secretKeys app
            else (secretKeys app ++ [key])%list |},
       Return tt)
  end.

(** [useSettingsStore.deleteSecret(key)] *)
Definition store_deleteSecret (app : App) (key : string) : App * Except unit :=
  let '(db, response) := SETTINGS_DELETE_SECRET (table app) key in
  match ipcCall response with
  | Throw e => ({| table := db; secretKeys := secretKeys app |}, Throw e)
  | Return _ =>
      ({| table := db;
          secretKeys := filter (fun k => k <> key) (secretKeys app) |},
       Return tt)
  end.

(** The store lists a secret exactly when the table holds it. *)
Definition in_sync (app : App) : Prop :=
  exists t, table app = Some t /\ repo_keys t /\ NoDup (secretKeys app) /\
    forall name, name ∈ secretKeys app <-> is_Some (t !! (SECRET_PREFIX ++ name)).

(** A fresh installation: an empty table, an empty list. *)
Definition freshApp : App := {| table := Some ∅; secretKeys := [] |}.

End SettingsStore.

(** ** zod

    The schema combinators the three schema files use, and [parse]. The
    string formats zod checks with regular expressions of its own are the
    library's: the model takes them as a record. A failed parse throws a
    [ZodError]. *)

Module Zod.

Inductive StringCheck : Type :=
| Min (n : nat)
| Max (n : nat)
| Regex (pattern : string)
| Uuid
| Datetime
| Url.

Inductive NumberCheck : Type :=
| Int
| Positive
| AtLeast (q : Q)
| AtMost (q : Q).

Inductive Schema : Type :=
| ZString (checks : list StringCheck)
| ZNumber (checks : list NumberCheck)
| ZBoolean
| ZLiteral (value : json)
| ZEnum (values : list string)
| ZUnknown
| ZArray (item : Schema)
| ZRecord (value : Schema)
| ZObject (shape : list (string * Schema))
| ZOptional (inner : Schema)
| ZDefault (inner : Schema) (value : json)
| ZDiscriminatedUnion (discriminator : string) (options : list Schema).

Record Formats : Type := {
  regex_test : string -> string -> bool;   (* [new RegExp(pattern).test(s)] *)
  is_uuid : string -> bool;
  is_datetime : string -> bool;
  is_url : string -> bool
}.

Definition ZodError : string := "ZodError".

Definition check_string (F : Formats) (s : string) (c : StringCheck) : bool :=
  match c with
  | Min n => Nat.leb n (String.length s)
  | Max n => Nat.leb (String.length s) n
  | Regex pattern => regex_test F pattern s
  | Uuid => is_uuid F s
  | Datetime => is_datetime F s
  | Url => is_url F s
  end.

Definition check_number (q : Q) (c : NumberCheck) : bool :=
  match c with
  | Int => Z.eqb (Z.modulo (Qnum q) (Zpos (Qden q))) 0
  | Positive => Z.ltb 0 (Qnum q)
  | AtLeast m => Qle_bool m q
  | AtMost m => Qle_bool q m
  end.

(** [data === value] against a literal: primitives by value, an object or
    an array never. *)
Definition strict_equal (a b : json) : bool :=
  match a, b with
  | JNull, JNull => true
  | JBool x, JBool y => Bool.eqb x y
  | JNum x, JNum y => Qeq_bool x y
  | JStr x, JStr y => String.eqb x y
  | _, _ => false
  end.

Fixpoint lookup_shape (key : string) (shape : list (string * Schema)) : option Schema :=
  match shape with
  | [] => None
  | (k, s) :: rest => if String.eqb k key then Some s else lookup_shape key rest
  end.

(** The option of a discriminated union that [tag] selects. *)
Definition selects (key : string) (tag : jsval) (option_ : Schema) : bool :=
  match option_, tag with
  | ZObject shape, Some t =>
      match lookup_shape key shape with
      | Some (ZLiteral l) => strict_equal t l
      | _ => false
      end
  | _, _ => false
  end.

(** A schema on [undefined]: [.optional()] and [z.unknown()] let it
    through, [.default(d)] parses [d] instead, the others refuse. *)
Definition parse_missing (parse_defined : Schema -> json -> Except json) (s : Schema)
  : Except jsval :=
  match s with
  | ZOptional _ => Return None
  | ZUnknown => Return None
  | ZDefault inner d => let! v := parse_defined inner d in Return (Some v)
  | _ => Throw ZodError
  end.

Definition parse_field (parse_defined : Schema -> json -> Except json) (s : Schema)
    (v : jsval) : Except jsval :=
  match v with
  | Some j => let! r := parse_defined s j in Return (Some r)
  | None => parse_missing parse_defined s
  end.

(** [schema.parse(data)] on a defined value. An object schema strips
    the keys it does not declare and lists the others in the order of
    its shape. *)
Fixpoint parse_defined (F : Formats) (s : Schema) (j : json) {struct s} : Except json :=
  match s with
  | ZString checks =>
      match j with
      | JStr x => if forallb (check_string F x) checks then Return j else Throw ZodError
      | _ => Throw ZodError
      end
  | ZNumber checks =>
      match j with
      | JNum q => if forallb (check_number q) checks then Return j else Throw ZodError
      | _ => Throw ZodError
      end
  | ZBoolean =>
      match j with
      | JBool _ => Return j
      | _ => Throw ZodError
      end
  | ZLiteral l => if strict_equal j l then Return j else Throw ZodError
  | ZEnum values =>
      match j with
      | JStr x => if existsb (String.eqb x) values then Return j else Throw ZodError
      | _ => Throw ZodError
      end
  | ZUnknown => Return j
  | ZArray item =>
      match j with
      | JArr xs =>
          let! ys :=
            (fix items (xs : list json) : Except (list json) :=
               match xs with
               | [] => Return []
               | x :: rest =>
                   let! y := parse_defined F item x in
                   let! ys := items rest in
                   Return (y :: ys)
               end) xs in
          Return (JArr ys)
      | _ => Throw ZodError
      end
  | ZRecord value =>
      match j with
      | JObj fields =>
          let! out :=
            (fix entries (fs : list (string * json)) : Except (list (string * json)) :=
               match fs with
               | [] => Return []
               | (k, x) :: rest =>
                   let! y := parse_defined F value x in
                   let! ys := entries rest in
                   Return ((k, y) :: ys)
               end) fields in
          Return (JObj out)
      | _ => Throw ZodError
      end
  | ZObject shape =>
      match j with
      | JObj fields =>
          let! out :=
            (fix props (sh : list (string * Schema)) : Except (list (string * json)) :=
               match sh with
               | [] => Return []
               | (k, sk) :: rest =>
                   let! r := parse_field (parse_defined F) sk (get_prop k fields) in
                   let! others := props rest in
                   Return (match r with
                           | Some y => (k, y) :: others
                           | None => others
                           end)
               end) shape in
          Return (JObj out)
      | _ => Throw ZodError
      end
  | ZOptional inner => parse_defined F inner j
  | ZDefault inner _ => parse_defined F inner j
  | ZDiscriminatedUnion key options =>
      match j with
      | JObj fields =>
          (fix pick (opts : list Schema) : Except json :=
             match opts with
             | [] => Throw ZodError
             | o :: rest =>
                 if selects key (get_prop key fields) o
                 then parse_defined F o j
                 else pick rest
             end) options
      | _ => Throw ZodError
      end
  end.

(** [schema.parse(data)] *)
Definition parse (F : Formats) (s : Schema) (v : jsval) : Except jsval :=
  parse_field (parse_defined F) s v.

(** The loops inside [parse_defined], by name. *)
Definition parse_items (F : Formats) (item : Schema) : list json -> Except (list json) :=
  fix items (xs : list json) : Except (list json) :=
    match xs with
    | [] => Return []
    | x :: rest =>
        let! y := parse_defined F item x in
        let! ys := items rest in
        Return (y :: ys)
    end.

Definition parse_entries (F : Formats) (value : Schema)
  : list (string * json) -> Except (list (string * json)) :=
  fix entries (fs : list (string * json)) : Except (list (string * json)) :=
    match fs with
    | [] => Return []
    | (k, x) :: rest =>
        let! y := parse_defined F value x in
        let! ys := entries rest in
        Return ((k, y) :: ys)
    end.

Definition parse_props (F : Formats) (fields : list (string * json))
  : list (string * Schema) -> Except (list (string * json)) :=
  fix props (sh : list (string * Schema)) : Except (list (string * json)) :=
    match sh with
    | [] => Return []
    | (k, sk) :: rest =>
        let! r := parse_field (parse_defined F) sk (get_prop k fields) in
        let! others := props rest in
        Return (match r with
                | Some y => (k, y) :: others
                | None => others
                end)
    end.

Definition pick (F : Formats) (key : string) (fields : list (string * json))
  : list Schema -> Except json :=
  fix pick (opts : list Schema) : Except json :=
    match opts with
    | [] => Throw ZodError
    | o :: rest =>
        if selects key (get_prop key fields) o
        then parse_defined F o (JObj fields)
        else pick rest
    end.

Fixpoint distinct (keys : list string) : bool :=
  match keys with
  | [] => true
  | k :: rest => negb (existsb (String.eqb k) rest) && distinct rest
  end.

Definition has_tag (key : string) (o : Schema) : bool :=
  match o with
  | ZObject shape =>
      match lookup_shape key shape with
      | Some (ZLiteral _) => true
      | _ => false
      end
  | _ => false
  end.

(** A schema as the source writes them: an object literal names each
    key once, and every option of a discriminated union is an object
    with a literal under the discriminator. *)
Fixpoint well_formed (s : Schema) : bool :=
  match s with
  | ZArray item => well_formed item
  | ZRecord value => well_formed value
  | ZObject shape =>
      distinct (map fst shape) && forallb (fun ks => well_formed (snd ks)) shape
  | ZOptional inner => well_formed inner
  | ZDefault inner _ => well_formed inner
  | ZDiscriminatedUnion key options =>
      forallb (fun o => has_tag key o && well_formed o) options
  | _ => true
  end.

(** Induction over schemas, with the induction hypothesis for every
    schema inside a shape or a list of options. *)
Section SchemaInduction.

Variable P : Schema -> Prop.
Hypothesis HString : forall checks, P (ZString checks).
Hypothesis HNumber : forall checks, P (ZNumber checks).
Hypothesis HBoolean : P ZBoolean.
Hypothesis HLiteral : forall l, P (ZLiteral l).
Hypothesis HEnum : forall values, P (ZEnum values).
Hypothesis HUnknown : P ZUnknown.
Hypothesis HArray : forall item, P item -> P (ZArray item).
Hypothesis HRecord : forall value, P value -> P (ZRecord value).
Hypothesis HObject :
  forall shape, Forall (fun ks => P (snd ks)) shape -> P (ZObject shape).
Hypothesis HOptional : forall inner, P inner -> P (ZOptional inner).
Hypothesis HDefault : forall inner d, P inner -> P (ZDefault inner d).
Hypothesis HUnion :
  forall key options, Forall P options -> P (ZDiscriminatedUnion key options).

Fixpoint Schema_induction (s : Schema) : P s :=
  match s with
  | ZString checks => HString checks
  | ZNumber checks => HNumber checks
  | ZBoolean => HBoolean
  | ZLiteral l => HLiteral l
  | ZEnum values => HEnum values
  | ZUnknown => HUnknown
  | ZArray item => HArray item (Schema_induction item)
  | ZRecord value => HRecord value (Schema_induction value)
  | ZObject shape =>
      HObject shape
        ((fix all (sh : list (string * Schema)) : Forall (fun ks => P (snd ks)) sh :=
            match sh with
            | [] => List.Forall_nil _
            | ks :: rest => List.Forall_cons _ ks rest (Schema_induction (snd ks)) (all rest)
            end) shape)
  | ZOptional inner => HOptional inner (Schema_induction inner)
  | ZDefault inner d => HDefault inner d (Schema_induction inner)
  | ZDiscriminatedUnion key options =>
      HUnion key options
        ((fix all (os : list Schema) : Forall P os :=
            match os with
            | [] => List.Forall_nil _
            | o :: rest => List.Forall_cons _ o rest (Schema_induction o) (all rest)
            end) options)
  end.

End SchemaInduction.

(** Parsing the result of a parse gives it back. *)
Definition idempotent (F : Formats) (s : Schema) : Prop :=
  forall j j', parse_defined F s j = Return j' -> parse_defined F s j' = Return j'.

(** The schemas that refuse [undefined] or replace it. *)
Definition required (s : Schema) : bool :=
  match s with
  | ZOptional _ | ZUnknown => false
  | _ => true
  end.

(** The schemas whose result is a string. *)
Definition returns_string (s : Schema) : bool :=
  match s with
  | ZString _ | ZDefault (ZString _) _ => true
  | _ => false
  end.

(** Every failure of the schema is a [ZodError]. *)
Definition throws_ZodError (F : Formats) (s : Schema) : Prop :=
  forall j e, parse_defined F s j = Throw e -> e = ZodError.

End Zod.

(** ** The schemas ([tool.schema.ts], [provider.schema.ts], [agent.schema.ts]) *)

Module Schemas.
Import Zod.

Definition num (z : Z) : json := JNum (inject_Z z).
Definition strings (l : list string) : json := JArr (map JStr l).

Definition FileSystemPermissionSchema : Schema := ZObject [
  ("enabled", ZDefault ZBoolean (JBool false));
  ("access", ZDefault (ZEnum ["read"; "read-write"]) (JStr "read"));
  ("allowedPaths", ZDefault (ZArray (ZString [])) (JArr []));
  ("deniedPaths", ZDefault (ZArray (ZString [])) (JArr []));
  ("maxFileSizeBytes", ZDefault (ZNumber [Int; Positive]) (num (10 * 1024 * 1024)))
].

Definition HttpPermissionSchema : Schema := ZObject [
  ("enabled", ZDefault ZBoolean (JBool false));
  ("allowedDomains", ZDefault (ZArray (ZString [])) (JArr []));
  ("blockedDomains", ZDefault (ZArray (ZString [])) (JArr []));
  ("allowedMethods",
   ZDefault (ZArray (ZEnum ["GET"; "POST"; "PUT"; "PATCH"; "DELETE"; "HEAD"]))
            (strings ["GET"]));
  ("rateLimitPerMinute", ZDefault (ZNumber [Int; Positive]) (num 30));
  ("timeoutMs", ZDefault (ZNumber [Int; Positive]) (num 10000));
  ("followRedirects", ZDefault ZBoolean (JBool true));
  ("maxResponseBytes", ZDefault (ZNumber [Int; Positive]) (num (5 * 1024 * 1024)))
].

Definition ShellPermissionSchema : Schema := ZObject [
  ("enabled", ZDefault ZBoolean (JBool false));
  ("allowedCommands", ZDefault (ZArray (ZString [])) (JArr []));
  ("blockedPatterns",
   ZDefault (ZArray (ZString [])) (strings Permissions.DEFAULT_BLOCKED_PATTERNS));
  ("workingDirectory", ZOptional (ZString []));
  ("timeoutMs", ZDefault (ZNumber [Int; Positive]) (num 30000));
  ("requiresConfirmation", ZDefault ZBoolean (JBool true));
  ("env", ZDefault (ZRecord (ZString [])) (JObj []))
].

Definition CodeExecPermissionSchema : Schema := ZObject [
  ("enabled", ZDefault ZBoolean (JBool false));
  ("memoryLimitMb", ZDefault (ZNumber [Int; Positive]) (num 128));
  ("timeLimitMs", ZDefault (ZNumber [Int; Positive]) (num 10000));
  ("networkAccess", ZDefault ZBoolean (JBool false));
  ("allowedModules", ZDefault (ZArray (ZString [])) (JArr []))
].

Definition ToolPermissionsSchema : Schema := ZObject [
  ("filesystem", ZDefault FileSystemPermissionSchema (JObj []));
  ("http", ZDefault HttpPermissionSchema (JObj []));
  ("shell", ZDefault ShellPermissionSchema (JObj []));
  ("codeExec", ZDefault CodeExecPermissionSchema (JObj []))
].

Definition maxTokens : Schema := ZDefault (ZNumber [Int; Positive]) (num 4096).
Definition temperature : Schema :=
  ZDefault (ZNumber [AtLeast 0; AtMost 1]) (JNum (7 # 10)).

Definition AnthropicProviderSchema : Schema := ZObject [
  ("provider", ZLiteral (JStr "anthropic"));
  ("model", ZDefault (ZString []) (JStr "claude-opus-4-6"));
  ("apiKeyRef", ZString [Min 1]);
  ("maxTokens", maxTokens);
  ("temperature", temperature)
].

Definition OpenAIProviderSchema : Schema := ZObject [
  ("provider", ZLiteral (JStr "openai"));
  ("model", ZDefault (ZString []) (JStr "gpt-4o"));
  ("apiKeyRef", ZString [Min 1]);
  ("baseUrl", ZOptional (ZString [Url]));
  ("maxTokens", maxTokens);
  ("temperature", temperature)
].

Definition OllamaProviderSchema : Schema := ZObject [
  ("provider", ZLiteral (JStr "ollama"));
  ("model", ZDefault (ZString []) (JStr "llama3.2"));
  ("baseUrl", ZDefault (ZString [Url]) (JStr "http://localhost:11434"));
  ("maxTokens", maxTokens);
  ("temperature", temperature)
].

Definition CustomProviderSchema : Schema := ZObject [
  ("provider", ZLiteral (JStr "custom"));
  ("model", ZString [Min 1]);
  ("baseUrl", ZString [Url]);
  ("apiKeyRef", ZOptional (ZString []));
  ("headers", ZOptional (ZRecord (ZString [])));
  ("maxTokens", maxTokens);
  ("temperature", temperature)
].

Definition ProviderConfigSchema : Schema :=
  ZDiscriminatedUnion "provider"
    [AnthropicProviderSchema; OpenAIProviderSchema; OllamaProviderSchema;
     CustomProviderSchema].

Definition NodeTypeSchema : Schema :=
  ZEnum ["input"; "output"; "llm-call"; "tool-call"; "code-block"; "condition";
         "transform"].

Definition GraphNodeSchema : Schema := ZObject [
  ("id", ZString []);
  ("type", NodeTypeSchema);
  ("position", ZObject [("x", ZNumber []); ("y", ZNumber [])]);
  ("data", ZRecord ZUnknown)
].

Definition GraphEdgeSchema : Schema := ZObject [
  ("id", ZString []);
  ("source", ZString []);
  ("sourceHandle", ZOptional (ZString []));
  ("target", ZString []);
  ("targetHandle", ZOptional (ZString []));
  ("label", ZOptional (ZString []))
].

Definition DEFAULT_CODE_BLOCK_TEMPLATE : string :=
"import { z } from 'zod'

// Define the input schema for this code block
const inputSchema = z.object({
  // Add your input fields here
  message: z.string()
})

// BlockContext provides access to safe, permission-checked sub-tools
export default async function run(
  input: z.infer<typeof inputSchema>,
  ctx: BlockContext
): Promise<{ result: string }> {
  // ctx.log() - log messages to the console
  // ctx.http.get(url) - make HTTP requests (requires http permission)
  // ctx.fs.readFile(path) - read files (requires filesystem permission)
  // ctx.shell.exec(cmd, args) - run shell commands (requires shell permission)

  ctx.log('Running code block with input:', input)

  return {
    result: `Processed: ${input.message}`
  }
}
".

Definition CodeBlockSchema : Schema := ZObject [
  ("id", ZString [Uuid]);
  ("name", ZString [Min 1; Max 64; Regex "^[a-zA-Z][a-zA-Z0-9_]*$"]);
  ("description", ZDefault (ZString [Max 512]) (JStr ""));
  ("code", ZDefault (ZString []) (JStr DEFAULT_CODE_BLOCK_TEMPLATE));
  ("inputSchema", ZDefault (ZString []) (JStr "z.object({})"));
  ("graphPosition", ZOptional (ZObject [("x", ZNumber []); ("y", ZNumber [])]));
  ("createdAt", ZString [Datetime]);
  ("updatedAt", ZString [Datetime])
].

Definition AgentDefinitionShape : list (string * Schema) := [
  ("id", ZString [Uuid]);
  ("version", ZLiteral (num 1));
  ("name", ZString [Min 1; Max 128]);
  ("description", ZDefault (ZString [Max 1024]) (JStr ""));
  ("createdAt", ZString [Datetime]);
  ("updatedAt", ZString [Datetime]);
  ("provider", ProviderConfigSchema);
  ("systemPrompt", ZDefault (ZString []) (JStr "You are a helpful AI assistant."));
  ("graph", ZObject [
     ("nodes", ZDefault (ZArray GraphNodeSchema) (JArr []));
     ("edges", ZDefault (ZArray GraphEdgeSchema) (JArr []))]);
  ("codeBlocks", ZDefault (ZArray CodeBlockSchema) (JArr []));
  ("permissions", ZDefault ToolPermissionsSchema (JObj []));
  ("tags", ZDefault (ZArray (ZString [])) (JArr []));
  ("auditEnabled", ZDefault ZBoolean (JBool true))
].

Definition AgentDefinitionSchema : Schema := ZObject AgentDefinitionShape.

(** [createDefaultGraph()] *)
Definition createDefaultGraph : json := JObj [
  ("nodes", JArr [
     JObj [("id", JStr "node-input"); ("type", JStr "input");
           ("position", JObj [("x", num 100); ("y", num 200)]);
           ("data", JObj [("variableName", JStr "userMessage");
                          ("description", JStr "User input")])];
     JObj [("id", JStr "node-llm"); ("type", JStr "llm-call");
           ("position", JObj [("x", num 350); ("y", num 200)]);
           ("data", JObj [("inputBindings", JObj [("userMessage", JStr "{{userMessage}}")]);
                          ("outputVariable", JStr "llmResponse");
                          ("streaming", JBool true)])];
     JObj [("id", JStr "node-output"); ("type", JStr "output");
           ("position", JObj [("x", num 600); ("y", num 200)]);
           ("data", JObj [("template", JStr "{{llmResponse}}")])]]);
  ("edges", JArr [
     JObj [("id", JStr "edge-1"); ("source", JStr "node-input");
           ("sourceHandle", JStr "handle-out"); ("target", JStr "node-llm");
           ("targetHandle", JStr "handle-in")];
     JObj [("id", JStr "edge-2"); ("source", JStr "node-llm");
           ("sourceHandle", JStr "handle-out"); ("target", JStr "node-output");
           ("targetHandle", JStr "handle-in")]])
].

(** [DEFAULT_PROVIDER] *)
Definition DEFAULT_PROVIDER : json := JObj [
  ("provider", JStr "anthropic");
  ("model", JStr "claude-opus-4-6");
  ("apiKeyRef", JStr "");
  ("maxTokens", num 4096);
  ("temperature", JNum (7 # 10))
].

(** [DEFAULT_TOOL_PERMISSIONS], as the object literal of [tool.schema.ts]
    ([workingDirectory: undefined] holds no value). *)
Definition DEFAULT_TOOL_PERMISSIONS : json := JObj [
  ("filesystem", JObj [
     ("enabled", JBool false); ("access", JStr "read"); ("allowedPaths", JArr []);
     ("deniedPaths", JArr []); ("maxFileSizeBytes", num (10 * 1024 * 1024))]);
  ("http", JObj [
     ("enabled", JBool false); ("allowedDomains", JArr []); ("blockedDomains", JArr []);
     ("allowedMethods", strings ["GET"]); ("rateLimitPerMinute", num 30);
     ("timeoutMs", num 10000); ("followRedirects", JBool true);
     ("maxResponseBytes", num (5 * 1024 * 1024))]);
  ("shell", JObj [
     ("enabled", JBool false); ("allowedCommands", JArr []);
     ("blockedPatterns", strings Permissions.DEFAULT_BLOCKED_PATTERNS);
     ("timeoutMs", num 30000); ("requiresConfirmation", JBool true); ("env", JObj [])]);
  ("codeExec", JObj [
     ("enabled", JBool false); ("memoryLimitMb", num 128); ("timeLimitMs", num 10000);
     ("networkAccess", JBool false); ("allowedModules", JArr [])])
].

(** A typed permission model as the object it is. *)
Definition method_json (m : Permissions.HttpMethod) : json :=
  JStr match m with
       | Permissions.GET => "GET"
       | Permissions.POST => "POST"
       | Permissions.PUT => "PUT"
       | Permissions.PATCH => "PATCH"
       | Permissions.DELETE => "DELETE"
       | Permissions.HEAD => "HEAD"
       end.

Definition optional_prop (key : string) (v : option string) : list (string * json) :=
  match v with
  | Some s => [(key, JStr s)]
  | None => []
  end.

Definition permissions_json (p : Permissions.ToolPermissions) : json :=
  let fs := Permissions.filesystem p in
  let ht := Permissions.http p in
  let sh := Permissions.shell p in
  let ce := Permissions.codeExec p in
  JObj [
    ("filesystem", JObj [
       ("enabled", JBool (Permissions.fs_enabled fs));
       ("access", JStr match Permissions.access fs with
                       | Permissions.AccessRead => "read"
                       | Permissions.AccessReadWrite => "read-write"
                       end);
       ("allowedPaths", strings (Permissions.allowedPaths fs));
       ("deniedPaths", strings (Permissions.deniedPaths fs));
       ("maxFileSizeBytes", num (Permissions.maxFileSizeBytes fs))]);
    ("http", JObj [
       ("enabled", JBool (Permissions.http_enabled ht));
       ("allowedDomains", strings (Permissions.allowedDomains ht));
       ("blockedDomains", strings (Permissions.blockedDomains ht));
       ("allowedMethods", JArr (map method_json (Permissions.allowedMethods ht)));
       ("rateLimitPerMinute", num (Permissions.rateLimitPerMinute ht));
       ("timeoutMs", num (Permissions.http_timeoutMs ht));
       ("followRedirects", JBool (Permissions.followRedirects ht));
       ("maxResponseBytes", num (Permissions.maxResponseBytes ht))]);
    ("shell", JObj (
       [("enabled", JBool (Permissions.shell_enabled sh));
        ("allowedCommands", strings (Permissions.allowedCommands sh));
        ("blockedPatterns", strings (Permissions.blockedPatterns sh))]
       ++ optional_prop "workingDirectory" (Permissions.workingDirectory sh)
       ++ [("timeoutMs", num (Permissions.shell_timeoutMs sh));
           ("requiresConfirmation", JBool (Permissions.requiresConfirmation sh));
           ("env", JObj (map (fun kv => (fst kv, JStr (snd kv))) (Permissions.env sh)))])%list);
    ("codeExec", JObj [
       ("enabled", JBool (Permissions.codeExec_enabled ce));
       ("memoryLimitMb", num (Permissions.memoryLimitMb ce));
       ("timeLimitMs", num (Permissions.timeLimitMs ce));
       ("networkAccess", JBool (Permissions.networkAccess ce));
       ("allowedModules", strings (Permissions.allowedModules ce))])
  ].

End Schemas.

(** ** The agents repository ([agents.repo.ts])

    An agent definition is the object [AgentDefinitionSchema.parse]
    returns. The [agents] table is keyed by its primary key [id]. The
    JSON columns hold text that only [JSON.stringify] writes and only
    [JSON.parse] reads: the model takes the codec, and the type of its
    text, from the platform. [uuidv4()] and [new Date().toISOString()]
    are arguments. *)

Module Agents.
Import Zod Schemas.

(** [agent.key] *)
Definition prop (key : string) (agent : json) : jsval :=
  match agent with
  | JObj fields => get_prop key fields
  | _ => None
  end.

Definition as_string (v : jsval) : option string :=
  match v with
  | Some (JStr s) => Some s
  | _ => None
  end.

Definition as_number (v : jsval) : option Q :=
  match v with
  | Some (JNum q) => Some q
  | _ => None
  end.

(** [v ? 1 : 0] *)
Definition truthy (v : jsval) : bool :=
  match v with
  | None | Some JNull | Some (JBool false) => false
  | Some (JNum q) => negb (Qeq_bool q 0)
  | Some (JStr s) => negb (String.eqb s "")
  | Some _ => true
  end.

Fixpoint indexed {A} (i : nat) (f : A -> json) (l : list A) : list (string * json) :=
  match l with
  | [] => []
  | x :: rest => (string_of_Z (Z.of_nat i), f x) :: indexed (S i) f rest
  end.

(** The own enumerable properties that [{...v}] copies. *)
Definition own_props (v : json) : list (string * json) :=
  match v with
  | JObj fields => spread [] fields
  | JArr items => indexed 0 (fun x => x) items
  | JStr s => indexed 0 (fun c => JStr (String c EmptyString)) (list_ascii_of_string s)
  | _ => []
  end.

(** [{ ...o, id, createdAt, updatedAt }] *)
Definition reidentified (uuid createdAt updatedAt : string) (o : list (string * json))
  : list (string * json) :=
  set_prop "updatedAt" (JStr updatedAt)
    (set_prop "createdAt" (JStr createdAt) (set_prop "id" (JStr uuid) o)).

Section Repo.

Variable F : Formats.
Variable Text : Type.
Variable JSON_stringify : json -> Text.          (* [JSON.stringify(v)] *)
Variable JSON_stringify_indent : json -> Text.   (* [JSON.stringify(v, null, 2)] *)
Variable JSON_parse : Text -> Except json.

Record AgentRow : Type := {
  id : string;
  version : Q;
  name : string;
  description : string;
  provider : Text;
  system_prompt : string;
  graph : Text;
  code_blocks : Text;
  permissions : Text;
  tags : Text;
  audit_enabled : Z;
  created_at : string;
  updated_at : string
}.

Definition rowToAgent (row : AgentRow) : Except json :=
  let! provider_ := JSON_parse (provider row) in
  let! graph_ := JSON_parse (graph row) in
  let! codeBlocks_ := JSON_parse (code_blocks row) in
  let! permissions_ := JSON_parse (permissions row) in
  let! tags_ := JSON_parse (tags row) in
  let raw := JObj [
    ("id", JStr (id row));
    ("version", JNum (version row));
    ("name", JStr (name row));
    ("description", JStr (description row));
    ("provider", provider_);
    ("systemPrompt", JStr (system_prompt row));
    ("graph", graph_);
    ("codeBlocks", codeBlocks_);
    ("permissions", permissions_);
    ("tags", tags_);
    ("auditEnabled", JBool (Z.eqb (audit_enabled row) 1));
    ("createdAt", JStr (created_at row));
    ("updatedAt", JStr (updated_at row))
  ] in
  parse_defined F AgentDefinitionSchema raw.

(** [agentToRow(agent)]: [None] when a property is not of the type the
    column binds. *)
Definition agentToRow (agent : json) : option AgentRow :=
  id_ ← as_string (prop "id" agent);
  version_ ← as_number (prop "version" agent);
  name_ ← as_string (prop "name" agent);
  description_ ← as_string (prop "description" agent);
  provider_ ← prop "provider" agent;
  systemPrompt_ ← as_string (prop "systemPrompt" agent);
  graph_ ← prop "graph" agent;
  codeBlocks_ ← prop "codeBlocks" agent;
  permissions_ ← prop "permissions" agent;
  tags_ ← prop "tags" agent;
  createdAt_ ← as_string (prop "createdAt" agent);
  updatedAt_ ← as_string (prop "updatedAt" agent);
  Some {|
    id := id_;
    version := version_;
    name := name_;
    description := description_;
    provider := JSON_stringify provider_;
    system_prompt := systemPrompt_;
    graph := JSON_stringify graph_;
    code_blocks := JSON_stringify codeBlocks_;
    permissions := JSON_stringify permissions_;
    tags := JSON_stringify tags_;
    audit_enabled := if truthy (prop "auditEnabled" agent) then 1 else 0;
    created_at := createdAt_;
    updated_at := updatedAt_
  |}.

Definition bound (row : option AgentRow) : Except AgentRow :=
  match row with
  | Some r => Return r
  | None => Throw "TypeError: SQLite3 can only bind numbers, strings, bigints, buffers, and null"
  end.

(** [INSERT INTO agents (...) VALUES (...)] *)
Definition INSERT (db : option (gmap string AgentRow)) (row : AgentRow)
  : Except (option (gmap string AgentRow)) :=
  let! t := Db.getDb db in
  match t !! id row with
  | Some _ => Throw "SqliteError: UNIQUE constraint failed: agents.id"
  | None => Return (Some (<[id row := row]> t))
  end.

(** [UPDATE agents SET ... WHERE id = @id]: every column but [id] and
    [created_at]. *)
Definition UPDATE (db : option (gmap string AgentRow)) (row : AgentRow)
  : Except (option (gmap string AgentRow)) :=
  let! t := Db.getDb db in
  match t !! id row with
  | None => Return (Some t)
  | Some old =>
      Return (Some (<[id row := {|
        id := id old;
        version := version row;
        name := name row;
        description := description row;
        provider := provider row;
        system_prompt := system_prompt row;
        graph := graph row;
        code_blocks := code_blocks row;
        permissions := permissions row;
        tags := tags row;
        audit_enabled := audit_enabled row;
        created_at := created_at old;
        updated_at := updated_at row
      |}]> t))
  end.

Definition getAgent (db : option (gmap string AgentRow)) (id_ : string)
  : Except (option json) :=
  let! t := Db.getDb db in
  match t !! id_ with
  | None => Return None
  | Some row => let! agent := rowToAgent row in Return (Some agent)
  end.

Definition createAgent (db : option (gmap string AgentRow)) (name_ description_ : string)
    (uuid now : string) : Except (json * option (gmap string AgentRow)) :=
  let! _ := Db.getDb db in
  let agent := JObj [
    ("id", JStr uuid);
    ("version", num 1);
    ("name", JStr name_);
    ("description", JStr description_);
    ("provider", DEFAULT_PROVIDER);
    ("systemPrompt", JStr "You are a helpful AI assistant.");
    ("graph", createDefaultGraph);
    ("codeBlocks", JArr []);
    ("permissions", DEFAULT_TOOL_PERMISSIONS);
    ("tags", JArr []);
    ("auditEnabled", JBool true);
    ("createdAt", JStr now);
    ("updatedAt", JStr now)
  ] in
  let! row := bound (agentToRow agent) in
  let! db' := INSERT db row in
  Return (agent, db').

Definition updateAgent (db : option (gmap string AgentRow)) (id_ : string)
    (updates : list (string * json)) (now : string)
  : Except (json * option (gmap string AgentRow)) :=
  let! _ := Db.getDb db in
  let! existing := getAgent db id_ in
  match existing with
  | None => Throw ("Error: Agent not found: " ++ id_)
  | Some existing =>
      let merged := JObj
        (set_prop "updatedAt" (JStr now)
           (set_prop "version" (num 1)
              (set_prop "id" (JStr id_)
                 (spread (own_props existing) updates)))) in
      let! _ := parse_defined F AgentDefinitionSchema merged in
      let! row := bound (agentToRow merged) in
      let! db' := UPDATE db row in
      Return (merged, db')
  end.

Definition deleteAgent (db : option (gmap string AgentRow)) (id_ : string)
  : Except (option (gmap string AgentRow)) :=
  let! t := Db.getDb db in
  match t !! id_ with
  | None => Throw ("Error: Agent not found: " ++ id_)
  | Some _ => Return (Some (delete id_ t))
  end.

Definition exportAgent (db : option (gmap string AgentRow)) (id_ : string) : Except Text :=
  let! agent := getAgent db id_ in
  match agent with
  | None => Throw ("Error: Agent not found: " ++ id_)
  | Some agent => Return (JSON_stringify_indent agent)
  end.

Definition importAgent (db : option (gmap string AgentRow)) (text : Text)
    (uuid createdAt updatedAt : string)
  : Except (json * option (gmap string AgentRow)) :=
  let! parsed := JSON_parse text in
  let! agent := parse_defined F AgentDefinitionSchema
    (JObj (reidentified uuid createdAt updatedAt (own_props parsed))) in
  let! row := bound (agentToRow agent) in
  let! db' := INSERT db row in
  Return (agent, db').

End Repo.

Arguments id {Text} _.
Arguments version {Text} _.
Arguments name {Text} _.
Arguments description {Text} _.
Arguments provider {Text} _.
Arguments system_prompt {Text} _.
Arguments graph {Text} _.
Arguments code_blocks {Text} _.
Arguments permissions {Text} _.
Arguments tags {Text} _.
Arguments audit_enabled {Text} _.
Arguments created_at {Text} _.
Arguments updated_at {Text} _.
Arguments rowToAgent F {Text} JSON_parse row.
Arguments agentToRow {Text} JSON_stringify agent.
Arguments bound {Text} row.
Arguments INSERT {Text} db row.
Arguments UPDATE {Text} db row.
Arguments getAgent F {Text} JSON_parse db id_.
Arguments createAgent {Text} JSON_stringify db name_ description_ uuid now.
Arguments updateAgent F {Text} JSON_stringify JSON_parse db id_ updates now.
Arguments deleteAgent {Text} db id_.
Arguments exportAgent F {Text} JSON_stringify_indent JSON_parse db id_.
Arguments importAgent F {Text} JSON_stringify JSON_parse db text uuid createdAt updatedAt.

(** *** A platform for the examples: the formats checked by length and
    prefix, and JSON text read as the value it denotes. *)

Definition toyFormats : Formats := {|
  regex_test := fun _ _ => true;
  is_uuid := fun s => Nat.eqb (String.length s) 36;
  is_datetime := fun s => Nat.eqb (String.length s) 24;
  is_url := fun s => startsWith "http" s
|}.

Definition researcherRow : AgentRow json := {|
  id := "11111111-1111-4111-8111-111111111111";
  version := 1;
  name := "researcher";
  description := "";
  provider := JObj [("provider", JStr "ollama")];
  system_prompt := "You are a helpful AI assistant.";
  graph := createDefaultGraph;
  code_blocks := JArr [];
  permissions := JObj [("http", JObj [("enabled", JBool true);
                                      ("allowedDomains", strings ["api.example.com"])])];
  tags := JArr [];
  audit_enabled := 1;
  created_at := "2026-01-01T00:00:00.000Z";
  updated_at := "2026-01-02T00:00:00.000Z"
|}.

Definition researcherId : string := "11111111-1111-4111-8111-111111111111".

Definition toyDb : option (gmap string (AgentRow json)) :=
  Some {[ researcherId := researcherRow ]}.

(** JSON text, read as the value it denotes. *)
Definition asText (v : json) : json := v.

(** Updates that try to change the identity and the version. *)
Definition hostileUpdates : list (string * json) :=
  [("id", JStr "evil"); ("version", num 2); ("name", JStr "renamed")].

End Agents.

(** ** The list of agents ([agents.repo.ts]) *)

Module AgentList.
Import Zod Schemas Agents.

Section Listing.

Variable Text : Type.
Variable JSON_stringify : json -> Text.
Variable JSON_parse : Text -> Except json.

(** [AgentSummary] *)
Record AgentSummary : Type := {
  s_id : string;
  s_name : string;
  s_description : string;
  s_provider : jsval;
  s_model : jsval;
  s_tags : json;
  s_createdAt : string;
  s_updatedAt : string;
  enabledToolCount : nat
}.

(** [Object.values(v)] *)
Definition Object_values (v : json) : Except (list json) :=
  match v with
  | JNull => Throw "TypeError: Cannot convert undefined or null to object"
  | _ => Return (map snd (own_props v))
  end.

(** [p?.enabled] *)
Definition enabled_of (p : json) : jsval :=
  match p with
  | JObj fields => get_prop "enabled" fields
  | _ => None
  end.

(** [ORDER BY updated_at DESC] *)
Fixpoint insert_by_updated (r : AgentRow Text) (l : list (AgentRow Text))
  : list (AgentRow Text) :=
  match l with
  | [] => [r]
  | x :: rest =>
      if String.leb (updated_at x) (updated_at r) then r :: l
      else x :: insert_by_updated r rest
  end.

Definition order_by_updated_desc (l : list (AgentRow Text)) : list (AgentRow Text) :=
  fold_right insert_by_updated [] l.

(** The callback of [rows.map] in [listAgents]. *)
Definition summary (t : gmap string (AgentRow Text)) (row : AgentRow Text)
  : Except AgentSummary :=
  let! provider_ := JSON_parse (provider row) in
  let! permissions_ :=
    JSON_parse (match t !! id row with
                | Some stored => permissions stored
                | None => JSON_stringify (JObj [])
                end) in
  let! values := Object_values permissions_ in
  let count := length (filter (fun p => truthy (enabled_of p) = true) values) in
  let! name_ := member "provider" provider_ in
  let! model_ := member "model" provider_ in
  let! tags_ := JSON_parse (tags row) in
  Return {|
    s_id := id row;
    s_name := name row;
    s_description := description row;
    s_provider := name_;
    s_model := model_;
    s_tags := tags_;
    s_createdAt := created_at row;
    s_updatedAt := updated_at row;
    enabledToolCount := count
  |}.

(** [rows.map(f)] for an [f] that may throw. *)
Fixpoint mapE {A B} (f : A -> Except B) (l : list A) : Except (list B) :=
  match l with
  | [] => Return []
  | x :: rest =>
      let! y := f x in
      let! ys := mapE f rest in
      Return (y :: ys)
  end.

(** [listAgents()]. The table is given in the order of [map_to_list];
    [ORDER BY] then sorts it. *)
Definition listAgents (db : option (gmap string (AgentRow Text)))
  : Except (list AgentSummary) :=
  let! t := Db.getDb db in
  mapE (summary t) (order_by_updated_desc (map snd (map_to_list t))).

End Listing.

Arguments insert_by_updated {Text} r l.
Arguments order_by_updated_desc {Text} l.
Arguments summary {Text} JSON_stringify JSON_parse t row.
Arguments listAgents {Text} JSON_stringify JSON_parse db.

End AgentList.

(** ** The application settings ([settings.repo.ts])

    The settings are one JSON object under the key [app_settings].
    [JSON.parse] is the platform's; the text is written by
    [JSON.stringify]. *)

Module AppSettings.
Import Settings.

(** [DEFAULT_SETTINGS] *)
Definition DEFAULT_SETTINGS : list (string * json) :=
  [("theme", JStr "system");
   ("defaultProvider", JStr "anthropic");
   ("auditRetentionDays", JNum (30 # 1));
   ("confirmDestructiveActions", JBool true)].

(** The properties [JSON.stringify] writes for [{ ...current, [key]: value }]:
    a property whose value is [undefined] is left out. *)
Definition assigned (key : string) (value : jsval) (current : list (string * json))
  : list (string * json) :=
  match value with
  | Some v => set_prop key v current
  | None => filter (fun kv => fst kv <> key) current
  end.

Section Codec.

Variable JSON_parse : string -> Except json.

(** [getSettings()] *)
Definition getSettings (db : option (gmap string string))
  : Except (list (string * json)) :=
  let! stored := dbGet db "app_settings" in
  match stored with
  | None => Return DEFAULT_SETTINGS
  | Some stored =>
      if String.eqb stored "" then Return DEFAULT_SETTINGS
      else
        match JSON_parse stored with
        | Return v => Return (spread DEFAULT_SETTINGS (Agents.own_props v))
        | Throw _ => Return DEFAULT_SETTINGS
        end
  end.

(** [setSetting(key, value)] *)
Definition setSetting (db : option (gmap string string)) (key : string) (value : jsval)
  : Except (option (gmap string string)) :=
  let! current := getSettings db in
  dbSet db "app_settings" (stringify (JObj (assigned key value current))).

End Codec.

(** A parser that knows one document, for the examples. *)
Definition parseOnly (v : json) (text : string) : Except json :=
  if String.eqb text (stringify v) then Return v
  else Throw "SyntaxError: Unexpected token".

End AppSettings.

(** ** The policy evaluator

    The repository declares the permission model ([tool.schema.ts]) but
    holds no evaluator: [runAgent] is a placeholder that performs no tool
    call, and the sandbox wires every capability to a stub that throws. *)

Module Policy.
Import Permissions.

Inductive FsOperation : Type := ReadFile | WriteFile | ListDir.

Inductive CodeExecOperation : Type :=
| Instantiate                                      (* run a code block in the sandbox *)
| SandboxFetch (host : string) (method : HttpMethod).  (* [ctx.http] from inside it *)

(** Modelled from the spec: the [ActionRequest] of section 3, a tagged
    union over the four kinds of action; the repository declares no such
    type. *)
Inductive ActionRequest : Type :=
| FilesystemRequest (op : FsOperation) (path : string) (sizeBytes : Z)
| HttpRequest (host : string) (method : HttpMethod)
| ShellRequest (commandLine : string)
| CodeExecRequest (op : CodeExecOperation).

(** Modelled from the spec: the [Verdict] of section 3. *)
Inductive Verdict : Type :=
| Allow
| Deny (reason : string)
| RequireConfirmation (description : string) (normalized : list (string * string)).

(** Glob and regular-expression matching and the test for private,
    loopback and link-local hosts are left to the platform. *)
Record Matchers : Type := {
  glob_match : string -> string -> bool;
  regex_search : string -> string -> bool;
  is_private_host : string -> bool
}.

Definition HttpMethod_eqb (a b : HttpMethod) : bool :=
  match a, b with
  | GET, GET | POST, POST | PUT, PUT | PATCH, PATCH | DELETE, DELETE | HEAD, HEAD => true
  | _, _ => false
  end.

(** The command binary: the command line up to its first space. *)
Fixpoint first_token (commandLine : string) : string :=
  match commandLine with
  | EmptyString => EmptyString
  | String c rest =>
      if Ascii.eqb c " "%char then EmptyString else String c (first_token rest)
  end.

Definition is_write (op : FsOperation) : bool :=
  match op with
  | WriteFile => true
  | _ => false
  end.

(** Modelled from the spec: the filesystem rule of section 4.1 (enabled
    flag, deny-glob first, then allow-glob, access mode, file size); the
    repository holds no filesystem evaluator. *)
Definition evaluate_filesystem (M : Matchers) (p : FileSystemPermission)
    (op : FsOperation) (path : string) (sizeBytes : Z) : Verdict :=
  if negb (fs_enabled p) then Deny "tool disabled"
  else if existsb (fun g => glob_match M g path) (deniedPaths p) then Deny "path denied"
  else if negb (existsb (fun g => glob_match M g path) (allowedPaths p))
    then Deny "path not allowed"
  else if is_write op && match access p with AccessRead => true | AccessReadWrite => false end
    then Deny "read-only access"
  else if Z.ltb (maxFileSizeBytes p) sizeBytes then Deny "file too large"
  else Allow.

(** Modelled from the spec: the HTTP rule of section 4.1 (enabled flag,
    private hosts, blocked then allowed domains, method, rate limit);
    [requests] is the evaluator's count for the current window. The
    repository holds no HTTP evaluator. *)
Definition evaluate_http (M : Matchers) (p : HttpPermission) (requests : Z)
    (host : string) (method : HttpMethod) : Verdict :=
  if negb (http_enabled p) then Deny "tool disabled"
  else if is_private_host M host then Deny "SSRF blocked"
  else if existsb (fun g => glob_match M g host) (blockedDomains p) then Deny "domain blocked"
  else if negb (existsb (fun g => glob_match M g host) (allowedDomains p))
    then Deny "domain not allowed"
  else if negb (existsb (HttpMethod_eqb method) (allowedMethods p))
    then Deny "method not allowed"
  else if Z.leb (rateLimitPerMinute p) requests then Deny "rate limit"
  else Allow.

(** Modelled from the spec: the shell rule of section 4.1 (enabled flag,
    exact binary name, blocked patterns over the full command line,
    confirmation); the repository holds no shell evaluator. *)
Definition evaluate_shell (M : Matchers) (p : ShellPermission) (commandLine : string)
  : Verdict :=
  if negb (shell_enabled p) then Deny "tool disabled"
  else if negb (existsb (String.eqb (first_token commandLine)) (allowedCommands p))
    then Deny "command not allowed"
  else if existsb (fun r => regex_search M r commandLine) (blockedPatterns p)
    then Deny "blocked pattern"
  else if requiresConfirmation p
    then RequireConfirmation ("Run shell command: " ++ commandLine)
                             [("tool", "shell"); ("command", commandLine)]
  else Allow.

(** Modelled from the spec: the policy evaluator
    [evaluate(request, policy)] of section 4.1, which the repository
    does not hold. The sub-policy of the request's kind decides; a fetch
    from inside the sandbox needs code execution and its network access,
    and then goes through the HTTP rule. *)
Definition evaluate (M : Matchers) (policy : ToolPermissions) (requests : Z)
    (request : ActionRequest) : Verdict :=
  match request with
  | FilesystemRequest op path sizeBytes =>
      evaluate_filesystem M (filesystem policy) op path sizeBytes
  | HttpRequest host method => evaluate_http M (http policy) requests host method
  | ShellRequest commandLine => evaluate_shell M (shell policy) commandLine
  | CodeExecRequest op =>
      if negb (codeExec_enabled (codeExec policy)) then Deny "tool disabled"
      else
        match op with
        | Instantiate => Allow
        | SandboxFetch host method =>
            if negb (networkAccess (codeExec policy)) then Deny "network access disabled"
            else evaluate_http M (http policy) requests host method
        end
  end.

Definition toyMatchers : Matchers := {|
  glob_match := fun pattern s => String.eqb pattern s || String.eqb pattern "**";
  regex_search := fun pattern s => includes pattern s;
  is_private_host := fun host => startsWith "10." host || String.eqb host "localhost"
|}.

(** A permission model with three tools enabled, for the examples. *)
Definition gitOnly : ToolPermissions := {|
  filesystem := {| fs_enabled := true; access := AccessRead;
                   allowedPaths := ["**"]; deniedPaths := ["/tmp/secret/x"];
                   maxFileSizeBytes := 1024 |};
  http := {| http_enabled := true; allowedDomains := ["api.example.com"];
             blockedDomains := []; allowedMethods := [GET]; rateLimitPerMinute := 30;
             http_timeoutMs := 10000; followRedirects := true;
             maxResponseBytes := 1024 |};
  shell := {| shell_enabled := true; allowedCommands := ["git"];
              blockedPatterns := ["rm -rf"; "sudo"]; workingDirectory := None;
              shell_timeoutMs := 30000; requiresConfirmation := true; env := [] |};
  codeExec := codeExec DEFAULT_TOOL_PERMISSIONS
|}.

(** The four [enabled] flags of a permission model. *)
Definition all_disabled (policy : ToolPermissions) : Prop :=
  fs_enabled (filesystem policy) = false /\
  http_enabled (http policy) = false /\
  shell_enabled (shell policy) = false /\
  codeExec_enabled (codeExec policy) = false.

End Policy.

(** * Properties *)

(** A computation that evaluates to a result did not throw. *)
Ltac returned E :=
  match type of E with
  | ?m = Throw _ =>
      let H := fresh in
      assert (H : returns m = true) by (vm_compute; reflexivity);
      rewrite E in H; discriminate H
  | ?m = Return None =>
      let H := fresh in
      assert (H : match m with Return (Some _) => true | _ => false end = true)
        by (vm_compute; reflexivity);
      rewrite E in H; discriminate H
  end.

Module JsonFacts.

Example stringify_object :
  stringify (JObj [("userMessage", JStr "hi"); ("n", JNum (7 # 10)); ("k", JArr [JNum 3; JNull])])
  = "{" ++ dquote ++ "userMessage" ++ dquote ++ ":" ++ dquote ++ "hi" ++ dquote ++ ","
        ++ dquote ++ "n" ++ dquote ++ ":0.7,"
        ++ dquote ++ "k" ++ dquote ++ ":[3,null]}".
Proof. vm_compute. reflexivity. Qed.

Lemma length_slice_to n s : String.length (slice_to n s) <= n.
Proof.
  revert s. induction n as [|n IH]; intros [|c s]; simpl; try lia.
  specialize (IH s). lia.
Qed.

Lemma length_append (a b : string) :
  String.length (a ++ b) = String.length a + String.length b.
Proof. induction a as [|c a IH]; simpl; [reflexivity | now rewrite IH]. Qed.

Lemma get_set_prop_eq key v fields : get_prop key (set_prop key v fields) = Some v.
Proof.
  induction fields as [|[k w] rest IH]; simpl.
  - now rewrite String.eqb_refl.
  - destruct (String.eqb k key) eqn:E; simpl; rewrite E; [reflexivity | exact IH].
Qed.

Lemma get_set_prop_ne key key' v fields :
  key <> key' -> get_prop key' (set_prop key v fields) = get_prop key' fields.
Proof.
  intros Hne. induction fields as [|[k w] rest IH]; simpl.
  - destruct (String.eqb key key') eqn:E; [|reflexivity].
    apply String.eqb_eq in E. contradiction.
  - destruct (String.eqb k key) eqn:E; simpl.
    + apply String.eqb_eq in E. subst k.
      destruct (String.eqb key key') eqn:E'; [|reflexivity].
      apply String.eqb_eq in E'. contradiction.
    + destruct (String.eqb k key'); [reflexivity | exact IH].
Qed.

Lemma get_prop_app k (a b : list (string * json)) :
  get_prop k (a ++ b)%list
  = match get_prop k a with Some v => Some v | None => get_prop k b end.
Proof.
  induction a as [|[k0 v0] rest IH]; simpl; [reflexivity|].
  destruct (String.eqb k0 k); [reflexivity | exact IH].
Qed.

Lemma set_prop_fresh k v fields :
  get_prop k fields = None -> set_prop k v fields = (fields ++ [(k, v)])%list.
Proof.
  induction fields as [|[k0 v0] rest IH]; simpl; [reflexivity|].
  destruct (String.eqb k0 k); [discriminate|].
  intros H. now rewrite (IH H).
Qed.

Lemma get_prop_None_keys k (fields : list (string * json)) :
  existsb (String.eqb k) (map fst fields) = false -> get_prop k fields = None.
Proof.
  induction fields as [|[k0 v0] rest IH]; simpl; [reflexivity|].
  intros H. apply orb_false_iff in H. destruct H as [H0 Hrest].
  rewrite String.eqb_sym, H0. now apply IH.
Qed.

Lemma keys_None_get_prop k (fields : list (string * json)) :
  get_prop k fields = None -> existsb (String.eqb k) (map fst fields) = false.
Proof.
  induction fields as [|[k0 v0] rest IH]; simpl; [reflexivity|].
  rewrite (String.eqb_sym k k0).
  destruct (String.eqb k0 k); [discriminate|]. exact IH.
Qed.

(** Spreading an object whose keys are distinct copies it as it is. *)
Lemma spread_distinct : forall (l acc : list (string * json)),
  Zod.distinct (map fst l) = true ->
  (forall k, get_prop k acc = None \/ get_prop k l = None) ->
  spread acc l = (acc ++ l)%list.
Proof.
  unfold spread.
  induction l as [|[k v] rest IH]; intros acc Hdistinct Hdisjoint; simpl.
  - now rewrite app_nil_r.
  - simpl in Hdistinct. apply andb_true_iff in Hdistinct.
    destruct Hdistinct as [Hfresh Hdistinct]. apply negb_true_iff in Hfresh.
    assert (Hacc : get_prop k acc = None).
    { destruct (Hdisjoint k) as [H|H]; [exact H|].
      simpl in H. now rewrite String.eqb_refl in H. }
    rewrite (set_prop_fresh k v acc Hacc), (IH _ Hdistinct).
    + now rewrite <- app_assoc.
    + intros k'. rewrite get_prop_app. simpl.
      destruct (String.eqb k k') eqn:E.
      * right. apply String.eqb_eq in E. subst k'. now apply get_prop_None_keys.
      * destruct (Hdisjoint k') as [H|H]; [left; now rewrite H|right].
        simpl in H. now rewrite E in H.
Qed.

(** Spreading [b] over [a]: the properties of [b], then those of [a]. *)
Lemma get_prop_spread k : forall (b a : list (string * json)),
  Zod.distinct (map fst b) = true ->
  get_prop k (spread a b)
  = match get_prop k b with Some v => Some v | None => get_prop k a end.
Proof.
  unfold spread. induction b as [|[k0 v0] rest IH]; intros a Hdistinct; simpl.
  - reflexivity.
  - simpl in Hdistinct. apply andb_true_iff in Hdistinct.
    destruct Hdistinct as [Hfresh Hdistinct]. apply negb_true_iff in Hfresh.
    rewrite (IH _ Hdistinct).
    destruct (String.eqb k0 k) eqn:E.
    + apply String.eqb_eq in E. subst k0.
      rewrite (get_prop_None_keys _ _ Hfresh).
      apply get_set_prop_eq.
    + apply String.eqb_neq in E. rewrite (get_set_prop_ne _ _ _ _ E).
      reflexivity.
Qed.

Lemma get_prop_spread_None k : forall (b a : list (string * json)),
  get_prop k (spread a b) = None -> get_prop k a = None.
Proof.
  unfold spread. induction b as [|[k0 v0] rest IH]; intros a H; simpl in H; [exact H|].
  apply IH in H. destruct (String.eqb k0 k) eqn:E.
  - apply String.eqb_eq in E. subst k0. rewrite get_set_prop_eq in H. discriminate.
  - apply String.eqb_neq in E. now rewrite (get_set_prop_ne _ _ _ _ E) in H.
Qed.

End JsonFacts.

(** ** The policy evaluator *)

Module PolicyFacts.
Import Permissions Policy.

Lemma default_permissions_all_disabled : all_disabled DEFAULT_TOOL_PERMISSIONS.
Proof. repeat split. Qed.

(** C1. When the four sub-policies of a permission model all have
    [enabled = false], the evaluation of every action request, of every
    kind, is [Deny "tool disabled"]. *)
Theorem disabled_policy_denies_everything
    (M : Matchers) (policy : ToolPermissions) (requests : Z) (request : ActionRequest) :
  all_disabled policy ->
  evaluate M policy requests request = Deny "tool disabled".
Proof.
  intros (Hfs & Hhttp & Hshell & Hcode).
  destruct request as [op path size | host method | commandLine | op]; simpl.
  - unfold evaluate_filesystem. now rewrite Hfs.
  - unfold evaluate_http. now rewrite Hhttp.
  - unfold evaluate_shell. now rewrite Hshell.
  - now rewrite Hcode.
Qed.

Lemma disabled_policy_denies_everything_witness :
  all_disabled DEFAULT_TOOL_PERMISSIONS /\
  evaluate toyMatchers DEFAULT_TOOL_PERMISSIONS 0 (ShellRequest "git status")
  = Deny "tool disabled".
Proof.
  split.
  - repeat split.
  - apply (disabled_policy_denies_everything toyMatchers DEFAULT_TOOL_PERMISSIONS 0
             (ShellRequest "git status")).
    repeat split.
Defined.

(** The rules stand behind the flag: with a tool enabled the requests of
    section 8 get the verdicts stated there. *)
Example enabled_policy_verdicts :
  evaluate toyMatchers gitOnly 0 (HttpRequest "10.0.0.5" GET) = Deny "SSRF blocked" /\
  evaluate toyMatchers gitOnly 0 (ShellRequest "git status")
  = RequireConfirmation "Run shell command: git status"
      [("tool", "shell"); ("command", "git status")] /\
  evaluate toyMatchers gitOnly 0 (ShellRequest "git clean && rm -rf /")
  = Deny "blocked pattern" /\
  evaluate toyMatchers gitOnly 0 (FilesystemRequest ReadFile "/tmp/secret/x" 1)
  = Deny "path denied" /\
  evaluate toyMatchers gitOnly 0 (CodeExecRequest Instantiate) = Deny "tool disabled".
Proof. vm_compute. repeat split. Qed.

End PolicyFacts.

(** ** The code-block executor *)

Module SandboxFacts.
Import Permissions Sandbox.

(** Whatever the body of the outer [try] throws, [runCodeBlock] returns
    it as a failure. *)
Lemma thrown_is_returned eng code input limits e :
  snd (outerBlock eng code input limits) = Throw e ->
  snd (runCodeBlock eng code input limits) = failure e.
Proof.
  unfold runCodeBlock. destruct (outerBlock eng code input limits) as [out body].
  simpl. intros ->. reflexivity.
Qed.

(** A result with [success = false] always carries an error message. *)
Lemma failure_carries_error eng code input limits :
  success (snd (runCodeBlock eng code input limits)) = false ->
  exists message, error (snd (runCodeBlock eng code input limits)) = Some message.
Proof.
  unfold runCodeBlock, outerBlock.
  destruct (boot eng) as [[]|e]; simpl; [|eauto].
  destruct (innerBlock eng code input limits) as [out [l|e]]; simpl; [|eauto].
  destruct (l_timedOut l); simpl; [eauto|].
  destruct (l_runError l) as [s|]; simpl; [|discriminate].
  destruct (negb (String.eqb s "")); simpl; [eauto | discriminate].
Qed.

(** An engine that cannot be loaded, and an input that cannot be
    serialised, are failures. *)
Lemma engine_failure_is_returned eng code input limits e :
  boot eng = Throw e ->
  runCodeBlock eng code input limits = ([], failure e).
Proof. intros H. unfold runCodeBlock, outerBlock. now rewrite H. Qed.

(** When the interrupt handler fires, the result reports the time-out. *)
Lemma interrupt_reports_timeout eng code input limits top f v :
  boot eng = Return tt ->
  dispose eng = Return tt ->
  input = Serializable v ->
  exec eng (memoryLimitMb limits * 1024 * 1024) (timeLimitMs limits) code
  = Script top (Some f) ->
  completion top = Normal ->
  completion (f v) = Interrupt ->
  snd (runCodeBlock eng code input limits)
  = {| success := false; result := None;
       error := Some ("Execution timed out after "
                      ++ string_of_Z (timeLimitMs limits) ++ "ms");
       timedOut := Some true |}.
Proof.
  intros Hboot Hdispose -> Hexec Htop Hcall.
  unfold runCodeBlock, outerBlock, innerBlock, evalCode.
  rewrite Hboot, Hexec, Htop, Hcall, Hdispose. reflexivity.
Qed.

Example infinite_loop_times_out :
  snd (runCodeBlock toyEngine "function run() { while (true) {} }"
         (Serializable None) limits128)
  = {| success := false; result := None;
       error := Some "Execution timed out after 10000ms"; timedOut := Some true |}.
Proof. vm_compute. reflexivity. Qed.

(** C3, at the failing input. User code that throws the empty string at
    its top level is an uncaught exception of the sandbox, and
    [runCodeBlock] reports it with [success = true]: [runError] is the
    empty string, which [if (runError)] takes for no error. *)
Theorem empty_throw_reported_as_success eng code input limits top run v :
  boot eng = Return tt ->
  dispose eng = Return tt ->
  input = Serializable v ->
  exec eng (memoryLimitMb limits * 1024 * 1024) (timeLimitMs limits) code
  = Script top run ->
  completion top = Threw (Some (JStr "")) ->
  snd (runCodeBlock eng code input limits)
  = {| success := true; result := None; error := None; timedOut := None |}.
Proof.
  intros Hboot Hdispose -> Hexec Htop.
  unfold runCodeBlock, outerBlock, innerBlock, evalCode.
  rewrite Hboot, Hexec, Htop, Hdispose. reflexivity.
Qed.

Lemma empty_throw_reported_as_success_witness :
  snd (runCodeBlock toyEngine "throw ''" (Serializable None) limits128)
  = {| success := true; result := None; error := None; timedOut := None |}.
Proof.
  apply (empty_throw_reported_as_success toyEngine "throw ''" (Serializable None)
           limits128 {| logs := []; completion := Threw (Some (JStr "")) |} None None);
    reflexivity.
Defined.

(** The same for [throw undefined] inside [run]: [JSON.stringify] of the
    dumped error is [undefined]. *)
Example undefined_throw_reported_as_success :
  snd (runCodeBlock toyEngine "function run() { throw undefined }"
         (Serializable None) limits128)
  = {| success := true; result := None; error := None; timedOut := None |}.
Proof. vm_compute. reflexivity. Qed.

(** Any other uncaught throw is a failure that carries the thrown value. *)
Lemma nonempty_throw_is_failure eng code input limits top run v e msg :
  boot eng = Return tt ->
  dispose eng = Return tt ->
  input = Serializable v ->
  exec eng (memoryLimitMb limits * 1024 * 1024) (timeLimitMs limits) code
  = Script top run ->
  completion top = Threw e ->
  runError_of e = Some msg ->
  msg <> "" ->
  snd (runCodeBlock eng code input limits) = failure msg.
Proof.
  intros Hboot Hdispose -> Hexec Htop Herr Hne.
  unfold runCodeBlock, outerBlock, innerBlock, evalCode.
  rewrite Hboot, Hexec, Htop, Hdispose. simpl. rewrite Herr. simpl.
  destruct (String.eqb msg "") eqn:E.
  - apply String.eqb_eq in E. contradiction.
  - reflexivity.
Qed.

(** C5, as the code has it. When the user's code declares no function
    [run] and its top-level statements run to their end, the result is a
    failure whose error is the serialised [Error] of the harness; the
    top-level statements have run by then, and their log calls have
    reached the host. *)
Theorem missing_run_reported_after_top_level eng code input limits top v :
  boot eng = Return tt ->
  dispose eng = Return tt ->
  input = Serializable v ->
  exec eng (memoryLimitMb limits * 1024 * 1024) (timeLimitMs limits) code
  = Script top None ->
  completion top = Normal ->
  runCodeBlock eng code input limits
  = (logs top,
     {| success := false; result := None;
        error := JSON_stringify (dump_Error "Error" NO_RUN_MESSAGE (stack eng));
        timedOut := None |}).
Proof.
  intros Hboot Hdispose -> Hexec Htop.
  unfold runCodeBlock, outerBlock, innerBlock, evalCode.
  rewrite Hboot, Hexec, Htop, Hdispose. reflexivity.
Qed.

Lemma missing_run_reported_after_top_level_witness :
  runCodeBlock toyEngine "__ctx_log('side effect')" (Serializable None) limits128
  = ([[Some (JStr "side effect")]],
     {| success := false; result := None;
        error := JSON_stringify (dump_Error "Error" NO_RUN_MESSAGE (stack toyEngine));
        timedOut := None |}).
Proof.
  apply (missing_run_reported_after_top_level toyEngine "__ctx_log('side effect')"
           (Serializable None) limits128
           {| logs := [[Some (JStr "side effect")]]; completion := Normal |} None);
    reflexivity.
Defined.

(** C5, as stated, fails: code without [run] has its top-level
    statements executed before anything is reported (here a log call
    reaches the host), and code that returns at its top level is reported
    as a success with no error at all. *)
Lemma user_code_runs_before_the_check :
  fst (runCodeBlock toyEngine "__ctx_log('side effect')" (Serializable None) limits128)
  = [[Some (JStr "side effect")]] /\
  success (snd (runCodeBlock toyEngine "__ctx_log('side effect')"
                  (Serializable None) limits128)) = false /\
  snd (runCodeBlock toyEngine "return 42" (Serializable None) limits128)
  = {| success := true; result := Some (JNum 42); error := None; timedOut := None |}.
Proof. vm_compute. repeat split. Qed.

(** The shapes of a result. Whatever the engine and the code do,
    [runCodeBlock] resolves to one of three results: a success, which
    carries no error and no time-out flag; a time-out, with
    [success = false], [timedOut = true] and the message that names the
    limit; or a failure with [success = false], no result, an error
    message and no time-out flag. *)
Theorem result_has_one_of_three_shapes eng code input limits :
  let r := snd (runCodeBlock eng code input limits) in
  (success r = true /\ error r = None /\ timedOut r = None) \/
  r = {| success := false; result := None;
         error := Some ("Execution timed out after "
                        ++ string_of_Z (timeLimitMs limits) ++ "ms");
         timedOut := Some true |} \/
  (exists message, r = failure message).
Proof.
  cbv zeta. unfold runCodeBlock, outerBlock.
  destruct (boot eng) as [[]|e]; simpl; [|right; right; eauto].
  destruct (innerBlock eng code input limits) as [out [l|e]]; simpl;
    [|right; right; eauto].
  destruct (l_timedOut l); simpl; [right; left; reflexivity|].
  destruct (l_runError l) as [s|]; simpl; [|left; now repeat split].
  destruct (negb (String.eqb s "")); simpl; [right; right; eauto | left; now repeat split].
Qed.

(** The normal path. When the engine starts and is disposed of and the
    user's top-level statements run to their end, the host has received
    the log calls of the top-level statements followed by those of
    [run], and the result depends on what [run] returns: for a value
    that is no promise, a success that carries the value; for a promise
    (an [async] function [run]), a failure, since the handle of the
    promise is disposed of twice. *)
Theorem returned_value_is_the_result eng code input limits top f v :
  boot eng = Return tt ->
  dispose eng = Return tt ->
  input = Serializable v ->
  exec eng (memoryLimitMb limits * 1024 * 1024) (timeLimitMs limits) code
  = Script top (Some f) ->
  completion top = Normal ->
  (forall r, completion (f v) = Returned r ->
     runCodeBlock eng code input limits
     = ((logs top ++ logs (f v))%list,
        {| success := true; result := r; error := None; timedOut := None |})) /\
  (completion (f v) = ReturnedPromise ->
     runCodeBlock eng code input limits
     = ((logs top ++ logs (f v))%list, failure USE_AFTER_FREE)).
Proof.
  intros Hboot Hdispose -> Hexec Htop.
  unfold runCodeBlock, outerBlock, innerBlock, evalCode.
  rewrite Hboot, Hexec, Htop, Hdispose.
  split; [intros r Hcall | intros Hcall]; rewrite Hcall; reflexivity.
Qed.

Lemma returned_value_is_the_result_witness :
  runCodeBlock toyEngine "function run(input, ctx) { return input }"
    (Serializable (Some (JStr "echo"))) limits128
  = ([], {| success := true; result := Some (JStr "echo"); error := None;
            timedOut := None |}) /\
  runCodeBlock toyEngine "async function run(input, ctx) { return input }"
    (Serializable (Some (JStr "echo"))) limits128
  = ([], failure "QuickJSUseAfterFree: Lifetime not alive").
Proof.
  split.
  - apply (proj1 (returned_value_is_the_result toyEngine
                    "function run(input, ctx) { return input }"
                    (Serializable (Some (JStr "echo"))) limits128
                    {| logs := []; completion := Normal |}
                    (fun input => {| logs := []; completion := Returned input |})
                    (Some (JStr "echo")) eq_refl eq_refl eq_refl eq_refl eq_refl)
             (Some (JStr "echo"))).
    reflexivity.
  - apply (proj2 (returned_value_is_the_result toyEngine
                    "async function run(input, ctx) { return input }"
                    (Serializable (Some (JStr "echo"))) limits128
                    {| logs := []; completion := Normal |}
                    (fun _ => {| logs := []; completion := ReturnedPromise |})
                    (Some (JStr "echo")) eq_refl eq_refl eq_refl eq_refl eq_refl)).
    reflexivity.
Defined.

Lemma interrupt_reports_timeout_witness :
  snd (runCodeBlock toyEngine "function run() { while (true) {} }"
         (Serializable None) limits128)
  = {| success := false; result := None;
       error := Some ("Execution timed out after " ++ string_of_Z 10000 ++ "ms");
       timedOut := Some true |}.
Proof.
  apply (interrupt_reports_timeout toyEngine _ _ limits128
           {| logs := []; completion := Normal |}
           (fun _ => {| logs := []; completion := Interrupt |}) None); reflexivity.
Defined.

End SandboxFacts.

(** ** The runner *)

Module RunnerFacts.
Import Runner.

Lemma emitted_app (w w' : World) tail :
  events w' = (events w ++ tail)%list -> emitted w w' = tail.
Proof. intros H. unfold emitted. rewrite H. apply drop_app_length. Qed.

Lemma events_onRunRejected w runId0 e :
  events (onRunRejected w runId0 e)
  = (events w ++ [{| type := run_error; runId := runId0; nodeId := None;
                     data := JObj [("error", JStr e)] |}])%list.
Proof. reflexivity. Qed.

(** The end of [runAgent] sends the two completion events, and a
    [run-error] after them when the audit write throws; it calls no
    resolver. *)
Lemma finishRun_events w t :
  exists tail,
    events (finishRun w t) = (events w ++ tail)%list /\
    (map type tail = [node_completed; run_completed] \/
     map type tail = [node_completed; run_completed; run_error]) /\
    resolverCalls (finishRun w t) = resolverCalls w.
Proof.
  unfold finishRun.
  destruct (auditEnabled (t_agent t)); simpl.
  - match goal with |- context [Audit.appendAuditLog ?d ?e] =>
      destruct (Audit.appendAuditLog d e) as [d'|err] end; simpl.
    + eexists. rewrite <- app_assoc. simpl. split; [reflexivity|]. split; [now left | reflexivity].
    + eexists. rewrite <- !app_assoc. simpl. split; [reflexivity|]. split; [now right | reflexivity].
  - eexists. rewrite <- app_assoc. simpl. split; [reflexivity|]. split; [now left | reflexivity].
Qed.

(** Once its signal is aborted, the streaming loop sends no further
    chunk and goes on to the end of [runAgent]. *)
Lemma stream_aborted w t :
  signal_aborted w (t_abortController t) = true ->
  stream w t = finishRun w t.
Proof. intros H. unfold stream. rewrite H. now destruct (t_rest t). Qed.

(** Nothing un-aborts a controller. *)
Lemma finishRun_aborted w t : aborted (finishRun w t) = aborted w.
Proof.
  unfold finishRun. destruct (auditEnabled (t_agent t)); simpl; [|reflexivity].
  match goal with |- context [Audit.appendAuditLog ?d ?e] =>
    destruct (Audit.appendAuditLog d e) end; reflexivity.
Qed.

Lemma stream_keeps_aborted w t : aborted (stream w t) = aborted w.
Proof.
  unfold stream. destruct (t_rest t); [apply finishRun_aborted|].
  destruct (signal_aborted w (t_abortController t)); [apply finishRun_aborted|].
  reflexivity.
Qed.

Lemma step_aborted w a : aborted w ⊆ aborted (step w a).
Proof.
  destruct a as [payload | r | r c d | c]; simpl.
  - unfold RUNNER_START.
    destruct (getAgent w (p_agentId payload)) as [[agent|]|e]; simpl; try reflexivity.
    destruct (if auditEnabled agent then _ else _) as [d|e]; simpl; [|reflexivity].
    unfold runAgent.
    match goal with |- context [signal_aborted ?x ?c] =>
      destruct (signal_aborted x c) end; [reflexivity|].
    now rewrite stream_keeps_aborted.
  - unfold RUNNER_STOP. destruct (activeRuns w !! r) as [run|]; simpl; [|reflexivity].
    set_solver.
  - unfold RUNNER_CONFIRM. destruct (activeRuns w !! r) as [run|]; simpl; [|reflexivity].
    destruct (confirmations run !! c); reflexivity.
  - unfold timerFires. destruct (tasks w !! c) as [t|]; [|reflexivity].
    now rewrite stream_keeps_aborted.
Qed.

Lemma aborted_persists actions : forall w c,
  signal_aborted w c = true -> signal_aborted (steps w actions) c = true.
Proof.
  induction actions as [|a actions IH]; intros w c Hc; simpl; [exact Hc|].
  apply IH. unfold signal_aborted in *.
  apply bool_decide_eq_true. apply bool_decide_eq_true in Hc.
  now apply (step_aborted w a).
Qed.

(** What [RUNNER_STOP] does to an active run, whatever confirmations
    the run holds: it aborts the run's controller and deletes the run
    from [activeRuns] together with its confirmations, calling none of
    their resolvers and sending no event; a later [RUNNER_CONFIRM] for
    the run answers [Run not found]; and whenever the streaming loop of
    the stopped run resumes afterwards, it sends no further [llm-chunk]
    and calls no resolver. *)
Lemma stop_aborts_and_forgets (w : World) (runId0 : string) (run : Run) :
  activeRuns w !! runId0 = Some run ->
  let w' := fst (RUNNER_STOP w runId0) in
  snd (RUNNER_STOP w runId0) = ok Stopped /\
  signal_aborted w' (abortController run) = true /\
  activeRuns w' !! runId0 = None /\
  resolverCalls w' = resolverCalls w /\
  events w' = events w /\
  (forall confirmationId decision,
     RUNNER_CONFIRM w' runId0 confirmationId decision = (w', err "Run not found")) /\
  (forall actions t, t_abortController t = abortController run ->
     let later := steps w' actions in
     Forall (fun ev => type ev <> llm_chunk) (emitted later (stream later t)) /\
     resolverCalls (stream later t) = resolverCalls later).
Proof.
  intros Hrun. unfold RUNNER_STOP. rewrite Hrun. simpl.
  set (w' := set_activeRuns (abort w (abortController run))
               (delete runId0 (activeRuns w))).
  assert (Haborted : signal_aborted w' (abortController run) = true).
  { unfold signal_aborted. simpl. apply bool_decide_eq_true. set_solver. }
  split; [reflexivity|]. split; [exact Haborted|].
  split; [apply lookup_delete_eq|]. split; [reflexivity|]. split; [reflexivity|].
  split.
  - intros confirmationId decision. unfold RUNNER_CONFIRM. simpl.
    now rewrite lookup_delete_eq.
  - intros actions t Ht. cbv zeta.
    pose proof (aborted_persists actions w' _ Haborted) as Hlater.
    rewrite <- Ht in Hlater.
    rewrite (stream_aborted _ t Hlater).
    destruct (finishRun_events (steps w' actions) t) as (tail & Hev & Hty & Hres).
    split; [|exact Hres].
    rewrite (emitted_app _ _ _ Hev).
    apply Forall_forall. intros ev Hin Hchunk.
    apply list_elem_of_In in Hin. apply (in_map type) in Hin. rewrite Hchunk in Hin.
    destruct Hty as [Hty|Hty]; rewrite Hty in Hin; simpl in Hin;
      intuition discriminate.
Qed.

(** C7, as the code has it. With auditing enabled and an audit write
    that throws: [RUNNER_START] sends [run-started], answers with the
    error, and never calls [runAgent] (no task is scheduled and the run
    stays in [activeRuns]); at the end of [runAgent] the two completion
    events are sent before the write, and a [run-error] follows them. *)
Theorem audit_failure_is_not_absorbed (w : World) (payload : RunnerStartPayload)
    (agent : Agent) (e : string) :
  getAgent w (p_agentId payload) = Return (Some agent) ->
  auditEnabled agent = true ->
  (forall entry, Audit.appendAuditLog (db w) entry = Throw e) ->
  (let w' := fst (RUNNER_START w payload) in
   snd (RUNNER_START w payload) = err e /\
   map type (emitted w w') = [run_started] /\
   tasks w' = tasks w /\
   is_Some (activeRuns w' !! p_runId payload)) /\
  (forall t, auditEnabled (t_agent t) = true ->
     map type (emitted w (finishRun w t)) = [node_completed; run_completed; run_error]).
Proof.
  intros Hagent Haudit Hfail. split.
  - unfold RUNNER_START. rewrite Hagent. simpl. rewrite Haudit.
    rewrite Hfail. simpl. repeat split.
    + unfold emitted. simpl. now rewrite drop_app_length.
    + rewrite lookup_insert_eq. eauto.
  - intros t Ht. unfold finishRun. rewrite Ht. simpl. rewrite Hfail. simpl.
    unfold emitted. simpl. rewrite <- !app_assoc. now rewrite drop_app_length.
Qed.

Lemma audit_failure_is_not_absorbed_witness :
  getAgent (world0 (Some fullDisk)) "a1" = Return (Some helper) /\
  snd (RUNNER_START (world0 (Some fullDisk)) startHelper)
  = err "SqliteError: database or disk is full" /\
  map type (emitted (world0 (Some fullDisk))
              (fst (RUNNER_START (world0 (Some fullDisk)) startHelper)))
  = [run_started].
Proof.
  split; [reflexivity|].
  destruct (audit_failure_is_not_absorbed (world0 (Some fullDisk)) startHelper helper
              "SqliteError: database or disk is full")
    as ((Herr & Hev & _) & _).
  - reflexivity.
  - reflexivity.
  - intros entry. reflexivity.
  - split; [exact Herr | exact Hev].
Defined.

(** C7, as stated, fails. Agent [a1] has auditing enabled and the audit
    table cannot be written: the start answers with the error,
    [run-started] is the only event the run ever sends, and no timer
    brings it to a terminal state. With a healthy table the same run
    goes on to [run-completed]. *)
Lemma audit_failure_aborts_start :
  let broken := RUNNER_START (world0 (Some fullDisk)) startHelper in
  let healthy := RUNNER_START (world0 (Some Audit.emptyTable)) startHelper in
  auditEnabled helper = true /\
  snd broken = err "SqliteError: database or disk is full" /\
  eventTypes "r1" (events (steps (fst broken) (repeat (Timer 0) 120))) = [run_started] /\
  snd healthy = ok (Started "r1") /\
  filter (fun ty => isTerminal ty = true)
         (eventTypes "r1" (events (steps (fst healthy) (repeat (Timer 0) 120))))
  = [run_completed].
Proof. vm_compute. repeat split. Qed.

(** No handler and no part of [runAgent] stores a resolver: a run that
    waits on a confirmation is not a state the code reaches. *)

Lemma finishRun_activeRuns w t : activeRuns (finishRun w t) ⊆ activeRuns w.
Proof.
  unfold finishRun. destruct (auditEnabled (t_agent t)); simpl.
  - match goal with |- context [Audit.appendAuditLog ?d ?e] =>
      destruct (Audit.appendAuditLog d e) as [d'|err] end; simpl.
    + apply delete_subseteq.
    + etrans; apply delete_subseteq.
  - apply delete_subseteq.
Qed.

Lemma stream_activeRuns w t : activeRuns (stream w t) ⊆ activeRuns w.
Proof.
  unfold stream. destruct (t_rest t); [apply finishRun_activeRuns|].
  destruct (signal_aborted w (t_abortController t)); [apply finishRun_activeRuns|].
  reflexivity.
Qed.

Lemma nothing_pending_subseteq w w' :
  activeRuns w' ⊆ activeRuns w -> nothing_pending w -> nothing_pending w'.
Proof.
  intros Hsub Hw r run Hr. apply (Hw r).
  eapply lookup_weaken; eassumption.
Qed.

Lemma nothing_pending_step w a : nothing_pending w -> nothing_pending (step w a).
Proof.
  intros Hw. destruct a as [payload | r | r c d | c]; simpl.
  - unfold RUNNER_START.
    destruct (getAgent w (p_agentId payload)) as [[agent|]|e]; simpl; try exact Hw.
    set (w1 := emitToRenderer _ _).
    assert (H1 : nothing_pending w1).
    { intros r run. unfold w1. simpl. intros Hr.
      destruct (decide (p_runId payload = r)) as [Heq|Hne].
      - rewrite Heq, lookup_insert_eq in Hr. now inversion Hr.
      - rewrite lookup_insert_ne in Hr by exact Hne. now apply (Hw r). }
    destruct (if auditEnabled agent then _ else _) as [d|e]; simpl; [|exact H1].
    unfold runAgent.
    match goal with |- context [signal_aborted ?x ?c] =>
      destruct (signal_aborted x c) end.
    + eapply nothing_pending_subseteq; [|exact H1]. simpl.
      etrans; apply delete_subseteq.
    + eapply nothing_pending_subseteq; [|exact H1].
      etrans; [apply stream_activeRuns|]. reflexivity.
  - unfold RUNNER_STOP. destruct (activeRuns w !! r) as [run|]; simpl; [|exact Hw].
    eapply nothing_pending_subseteq; [|exact Hw]. simpl. apply delete_subseteq.
  - unfold RUNNER_CONFIRM. destruct (activeRuns w !! r) as [run|] eqn:Hr; simpl; [|exact Hw].
    rewrite (Hw r run Hr), lookup_empty. exact Hw.
  - unfold timerFires. destruct (tasks w !! c) as [t|]; [|exact Hw].
    eapply nothing_pending_subseteq; [|exact Hw].
    etrans; [apply stream_activeRuns|]. reflexivity.
Qed.

Lemma no_confirmation_ever_pending table actions :
  nothing_pending (steps (world0 table) actions).
Proof.
  assert (H : nothing_pending (world0 table)).
  { intros r run Hr. simpl in Hr. now rewrite lookup_empty in Hr. }
  revert H. generalize (world0 table).
  induction actions as [|a actions IH]; intros w Hw; simpl; [exact Hw|].
  apply IH. now apply nothing_pending_step.
Qed.

Lemma stream_timers : forall rest w t,
  t_rest t = rest ->
  signal_aborted w (t_abortController t) = false ->
  exists w1 t1,
    steps (stream w t) (timers (t_abortController t) rest) = finishRun w1 t1 /\
    t_agent t1 = t_agent t /\ t_agentId t1 = t_agentId t /\
    t_runId t1 = t_runId t /\ t_responseText t1 = t_responseText t /\
    events w1 = (events w ++ chunkEvents (t_runId t) rest)%list /\
    db w1 = db w /\ activeRuns w1 = activeRuns w /\
    (tasks w !! t_abortController t = None -> tasks w1 !! t_abortController t = None) /\
    (rest <> "" -> tasks w1 !! t_abortController t = None).
Proof.
  induction rest as [|char rest IH]; intros w t Hrest Hlive.
  - exists w, t. unfold stream. rewrite Hrest. simpl. rewrite app_nil_r.
    do 8 (split; [reflexivity|]). split; [tauto | intros H; now destruct H].
  - unfold timers. simpl. unfold stream at 1. rewrite Hrest, Hlive.
    unfold timerFires at 1. cbn [tasks set_tasks emitToRenderer].
    rewrite lookup_insert_eq.
    match goal with |- context [stream ?w' ?t'] =>
      destruct (IH w' t' eq_refl Hlive)
        as (w1 & t1 & Hsteps & Ha & Hi & Hr & Ht & Hev & Hdb & Hruns & Htasks & _) end.
    exists w1, t1. cbn [t_abortController t_runId t_agent t_agentId t_responseText] in *.
    split; [exact Hsteps|].
    repeat (split; [assumption|]).
    split; [|split; [exact Hdb | split; [exact Hruns|]]].
    + rewrite Hev. cbn [events set_tasks emitToRenderer]. now rewrite <- app_assoc.
    + cbn [tasks set_tasks] in Htasks. rewrite lookup_delete_eq in Htasks.
      split; intros _; now apply Htasks.
Qed.

(** The end of a run whose audit write succeeds. *)
Lemma finishRun_written w t :
  audit_writable (t_agent t) (db w) ->
  events (finishRun w t)
  = (events w ++
     [{| type := node_completed; runId := t_runId t; nodeId := Some "node-llm";
         data := JObj [("outputVariable", JStr "llmResponse");
                       ("value", JStr (t_responseText t))] |};
      {| type := run_completed; runId := t_runId t; nodeId := None;
         data := JObj [("result", JStr (t_responseText t))] |}])%list /\
  activeRuns (finishRun w t) = delete (t_runId t) (activeRuns w) /\
  tasks (finishRun w t) = tasks w /\
  db (finishRun w t)
  = (if auditEnabled (t_agent t)
     then match Audit.appendAuditLog (db w)
                  {| Audit.agentId := t_agentId t; Audit.runId := t_runId t;
                     Audit.eventType := "run-completed"; Audit.tool := None;
                     Audit.payload := Serializable None; Audit.outcome := Audit.success;
                     Audit.entry_error := None |} with
          | Return d => d
          | Throw _ => db w
          end
     else db w).
Proof.
  intros Hwritable. unfold finishRun.
  destruct (auditEnabled (t_agent t)) eqn:E.
  - destruct Hwritable as [H | (tb & Hdb & Hfault)]; [congruence|].
    cbn [db emitToRenderer]. rewrite Hdb.
    unfold Audit.appendAuditLog, Audit.insert. cbn [Db.getDb bindE]. rewrite Hfault.
    cbn. rewrite <- app_assoc. now repeat split.
  - cbn. rewrite <- app_assoc. now repeat split.
Qed.

Lemma responseText_nonempty agent userMessage : responseText agent userMessage <> "".
Proof. discriminate. Qed.

Lemma started_writable agent payload d :
  audit_writable agent d -> audit_writable agent (startedDb agent payload d).
Proof.
  intros [H | (t & -> & Hfault)]; [now left|]. unfold startedDb.
  destruct (auditEnabled agent); [|right; now exists t].
  unfold Audit.appendAuditLog, Audit.insert. cbn [Db.getDb bindE]. rewrite Hfault.
  cbn [bindE]. right. eexists. split; reflexivity.
Qed.

Lemma start_written agent payload d :
  audit_writable agent d ->
  (if auditEnabled agent then Audit.appendAuditLog d (startedEntry payload) else Return d)
  = Return (startedDb agent payload d).
Proof.
  intros [H | (t & -> & Hfault)]; unfold startedDb.
  - now rewrite H.
  - destruct (auditEnabled agent); [|reflexivity].
    unfold Audit.appendAuditLog, Audit.insert. cbn [Db.getDb bindE]. now rewrite Hfault.
Qed.

Lemma run_to_the_end w payload agent :
  getAgent w (p_agentId payload) = Return (Some agent) ->
  audit_writable agent (db w) ->
  nextController w ∉ aborted w ->
  exists w1 t1,
    steps (fst (RUNNER_START w payload))
          (timers (nextController w) (responseText agent (p_userMessage payload)))
    = finishRun w1 t1 /\
    snd (RUNNER_START w payload) = ok (Started (p_runId payload)) /\
    t_agent t1 = agent /\ t_agentId t1 = p_agentId payload /\
    t_runId t1 = p_runId payload /\
    t_responseText t1 = responseText agent (p_userMessage payload) /\
    events w1
    = (events w ++
       [{| type := run_started; runId := p_runId payload; nodeId := None;
           data := JObj [("agentId", JStr (p_agentId payload));
                         ("agentName", JStr (name agent))] |};
        {| type := node_started; runId := p_runId payload; nodeId := Some "node-llm";
           data := JObj [("message", JStr ("Processing: " ++ p_userMessage payload))] |}]
       ++ chunkEvents (p_runId payload) (responseText agent (p_userMessage payload)))%list /\
    db w1 = startedDb agent payload (db w) /\
    tasks w1 !! nextController w = None.
Proof.
  intros Hagent Hwritable Hfresh.
  unfold RUNNER_START. rewrite Hagent.
  cbn [newAbortController set_activeRuns emitToRenderer db nextController].
  rewrite (start_written agent payload (db w) Hwritable).
  cbn [fst snd]. unfold runAgent.
  assert (Hlive : forall w', aborted w' = aborted w ->
            signal_aborted w' (nextController w) = false).
  { intros w' Hsame. unfold signal_aborted. rewrite Hsame. now apply bool_decide_eq_false. }
  rewrite Hlive by reflexivity.
  match goal with |- context [stream ?ws ?t0] =>
    destruct (stream_timers (responseText agent (p_userMessage payload)) ws t0 eq_refl
                (Hlive ws eq_refl))
      as (w1 & t1 & Hsteps & Ha & Hi & Hr & Ht & Hev & Hdb & _ & _ & Htasks) end.
  cbn [t_abortController t_runId t_agent t_agentId t_responseText] in *.
  exists w1, t1. split; [exact Hsteps|]. split; [reflexivity|].
  do 4 (split; [assumption|]).
  split; [|split; [exact Hdb | apply Htasks, responseText_nonempty]].
  rewrite Hev. cbn [events set_db set_activeRuns emitToRenderer].
  now rewrite <- !app_assoc.
Qed.



(** The audit trail of a run. With auditing enabled and a log that can
    be written, a run that is not stopped leaves exactly two new rows:
    [run-started] with the first 200 characters of the user message as
    payload, then [run-completed] without payload, both under the
    agent's and the run's id. *)
Theorem audited_run_leaves_two_rows w payload agent t :
  getAgent w (p_agentId payload) = Return (Some agent) ->
  auditEnabled agent = true ->
  db w = Some t ->
  Audit.fault t = None ->
  nextController w ∉ aborted w ->
  let w' := steps (fst (RUNNER_START w payload))
                  (timers (nextController w) (responseText agent (p_userMessage payload))) in
  exists t',
    db w' = Some t' /\
    map (fun r => (Audit.agent_id r, Audit.run_id r, Audit.event_type r,
                   Audit.row_payload r, Audit.row_outcome r))
        (drop (length (Audit.rows t)) (Audit.rows t'))
    = [(p_agentId payload, p_runId payload, "run-started",
        Audit.payloadStr
          (Serializable (Some (JObj [("userMessage",
                                      JStr (slice_to 200 (p_userMessage payload)))]))),
        "success");
       (p_agentId payload, p_runId payload, "run-completed", None, "success")].
Proof.
  intros Hagent Haudit Hdb Hfault Hfresh. cbv zeta.
  assert (Hwritable : audit_writable agent (db w)) by (right; now exists t).
  destruct (run_to_the_end w payload agent Hagent Hwritable Hfresh)
    as (w1 & t1 & -> & _ & Ha & Hi & Hr & _ & _ & Hdb1 & _).
  assert (Hw1 : audit_writable (t_agent t1) (db w1)).
  { rewrite Ha, Hdb1. now apply started_writable. }
  destruct (finishRun_written w1 t1 Hw1) as (_ & _ & _ & Hfinal).
  rewrite Hfinal, Ha, Haudit, Hdb1, Hi, Hr, Hdb.
  unfold startedDb. rewrite Haudit.
  unfold Audit.appendAuditLog, Audit.insert. cbn [Db.getDb bindE]. rewrite Hfault.
  cbn [bindE Audit.fault]. eexists. split; [reflexivity|].
  cbn [Audit.rows]. rewrite <- app_assoc, drop_app_length. reflexivity.
Qed.

Lemma audited_run_leaves_two_rows_witness :
  exists t',
    db (steps (fst (RUNNER_START (world0 (Some Audit.emptyTable)) startHelper))
              (timers 0 (responseText helper "hi"))) = Some t' /\
    map (fun r => (Audit.agent_id r, Audit.run_id r, Audit.event_type r,
                   Audit.row_payload r, Audit.row_outcome r))
        (drop 0 (Audit.rows t'))
    = [("a1", "r1", "run-started",
        Audit.payloadStr (Serializable (Some (JObj [("userMessage", JStr "hi")]))),
        "success");
       ("a1", "r1", "run-completed", None, "success")].
Proof.
  apply (audited_run_leaves_two_rows (world0 (Some Audit.emptyTable)) startHelper helper
           Audit.emptyTable).
  - reflexivity.
  - reflexivity.
  - reflexivity.
  - reflexivity.
  - apply not_elem_of_empty.
Defined.

(** A pending confirmation is answered once. [RUNNER_CONFIRM] calls its
    resolver with the decision and forgets it: it sends no event and
    aborts nothing, the other confirmations of the run stay pending, and
    a second answer to the same confirmation is refused. *)
Theorem confirmation_is_answered_once w runId0 confirmationId decision again run resolver :
  activeRuns w !! runId0 = Some run ->
  confirmations run !! confirmationId = Some resolver ->
  let w' := fst (RUNNER_CONFIRM w runId0 confirmationId decision) in
  snd (RUNNER_CONFIRM w runId0 confirmationId decision) = ok Confirmed /\
  resolverCalls w' = (resolverCalls w ++ [(resolver, decision)])%list /\
  events w' = events w /\
  aborted w' = aborted w /\
  RUNNER_CONFIRM w' runId0 confirmationId again = (w', err "Confirmation not found") /\
  (forall other, other <> confirmationId ->
     exists run', activeRuns w' !! runId0 = Some run' /\
                  confirmations run' !! other = confirmations run !! other).
Proof.
  intros Hrun Hpending. cbv zeta.
  assert (Hfirst : RUNNER_CONFIRM w runId0 confirmationId decision
            = (set_activeRuns (callResolver w resolver decision)
                 (<[runId0 := {| abortController := abortController run;
                                 confirmations := delete confirmationId (confirmations run) |}]>
                    (activeRuns w)),
               ok Confirmed)).
  { unfold RUNNER_CONFIRM. now rewrite Hrun, Hpending. }
  rewrite Hfirst. cbn [fst snd].
  split; [reflexivity|]. split; [reflexivity|]. split; [reflexivity|].
  split; [reflexivity|]. split.
  - unfold RUNNER_CONFIRM. cbn [activeRuns set_activeRuns callResolver].
    rewrite lookup_insert_eq. cbn [confirmations]. now rewrite lookup_delete_eq.
  - intros other Hother. cbn [activeRuns set_activeRuns callResolver].
    rewrite lookup_insert_eq. eexists. split; [reflexivity|].
    cbn [confirmations]. now rewrite lookup_delete_ne.
Qed.

Lemma confirmation_is_answered_once_witness :
  snd (RUNNER_CONFIRM pendingWorld "r1" "c1" "allow-once") = ok Confirmed /\
  resolverCalls (fst (RUNNER_CONFIRM pendingWorld "r1" "c1" "allow-once"))
  = (resolverCalls pendingWorld ++ [(7, "allow-once")])%list /\
  events (fst (RUNNER_CONFIRM pendingWorld "r1" "c1" "allow-once")) = events pendingWorld /\
  aborted (fst (RUNNER_CONFIRM pendingWorld "r1" "c1" "allow-once")) = aborted pendingWorld /\
  RUNNER_CONFIRM (fst (RUNNER_CONFIRM pendingWorld "r1" "c1" "allow-once")) "r1" "c1" "deny"
  = (fst (RUNNER_CONFIRM pendingWorld "r1" "c1" "allow-once"), err "Confirmation not found").
Proof.
  destruct (confirmation_is_answered_once pendingWorld "r1" "c1" "allow-once" "deny"
              pendingRun 7) as (H1 & H2 & H3 & H4 & H5 & _).
  - vm_compute. reflexivity.
  - reflexivity.
  - now repeat split.
Defined.

Lemma nothing_pending_steps actions : forall w,
  nothing_pending w -> nothing_pending (steps w actions).
Proof.
  induction actions as [|a rest IH]; intros w H; [exact H|].
  simpl. apply IH. now apply nothing_pending_step.
Qed.

(** No code stores a resolver. From a state in which no confirmation is
    pending, whatever runs are started, stopped, answered or resumed,
    every [RUNNER_CONFIRM] is refused and changes nothing. *)
Theorem no_confirmation_is_ever_accepted w actions runId0 confirmationId decision :
  nothing_pending w ->
  exists e,
    RUNNER_CONFIRM (steps w actions) runId0 confirmationId decision
    = (steps w actions, err e).
Proof.
  intros H. apply (nothing_pending_steps actions) in H.
  unfold RUNNER_CONFIRM.
  destruct (activeRuns (steps w actions) !! runId0) as [run|] eqn:E; [|eauto].
  rewrite (H runId0 run E), lookup_empty. eauto.
Qed.

Lemma no_confirmation_is_ever_accepted_witness :
  exists e,
    RUNNER_CONFIRM (steps (world0 (Some Audit.emptyTable)) [Start startQuiet; Timer 0])
      "r1" "c1" "allow-once"
    = (steps (world0 (Some Audit.emptyTable)) [Start startQuiet; Timer 0], err e).
Proof.
  apply (no_confirmation_is_ever_accepted (world0 (Some Audit.emptyTable))
           [Start startQuiet; Timer 0] "r1" "c1" "allow-once").
  intros r run H. cbn [world0 activeRuns] in H. rewrite lookup_empty in H. discriminate.
Defined.




End RunnerFacts.

(** ** The run console *)

Module RunnerStoreFacts.
Import Runner RunnerFacts RunnerStore.

Lemma lastEntry_app before final : lastEntry (before ++ [final])%list = Some (before, final).
Proof.
  induction before as [|e rest IH]; [reflexivity|].
  simpl. rewrite IH. now destruct (rest ++ [final])%list eqn:E; [destruct rest; discriminate|].
Qed.

Lemma append_char a c rest : (a ++ String c "") ++ rest = a ++ String c rest.
Proof. induction a as [|x a IH]; [reflexivity | exact (f_equal (String x) IH)]. Qed.

Lemma append_empty a : a ++ "" = a.
Proof. induction a as [|x a IH]; [reflexivity | exact (f_equal (String x) IH)]. Qed.

Lemma handleEvents_app stamp : forall a i s b,
  handleEvents stamp i s (a ++ b)%list
  = let (s1, thrown) := handleEvents stamp i s a in
    let (s2, thrown') := handleEvents stamp (i + length a) s1 b in
    (s2, (thrown ++ thrown')%list).
Proof.
  induction a as [|ev a IH]; intros i s b; cbn [app handleEvents length].
  - rewrite Nat.add_0_r. now destruct (handleEvents stamp i s b).
  - rewrite Nat.add_succ_r.
    destruct (handleEvent _ _ s ev) as [s'|e]; [apply IH|].
    rewrite IH. destruct (handleEvents stamp (S i) s a) as [s1 thrown].
    cbn [Nat.add]. now destruct (handleEvents stamp (S (i + length a)) s1 b).
Qed.

(** Chunks of a node whose assistant entry ends the console are written
    into that entry. *)
Lemma chunks_rewrite_the_entry run stamp : forall text i s before final,
  consoleEntries s = (before ++ [final])%list ->
  entry_type final = assistant ->
  entry_nodeId final = Some "node-llm" ->
  content final = streamingText s ->
  exists s',
    handleEvents stamp i s (chunkEvents run text) = (s', []) /\
    s_runId s' = s_runId s /\ isRunning s' = isRunning s /\
    activeNodeId s' = activeNodeId s /\ completedNodeIds s' = completedNodeIds s /\
    errorNodeIds s' = errorNodeIds s /\ pendingConfirmation s' = pendingConfirmation s /\
    streamingText s' = streamingText s ++ text /\
    consoleEntries s'
    = (before ++ [{| entry_id := entry_id final; timestamp := timestamp final;
                     entry_type := assistant; content := streamingText s ++ text;
                     entry_nodeId := Some "node-llm" |}])%list.
Proof.
  induction text as [|c rest IH]; intros i s before final Hconsole Htype Hnode Hcontent.
  - exists s. simpl. rewrite append_empty. do 8 (split; [reflexivity|]).
    rewrite Hconsole. destruct final. simpl in *. now subst.
  - cbn [chunkEvents handleEvents]. unfold handleEvent at 1.
    cbn [type data nodeId member bindE get_prop String.eqb Ascii.eqb Bool.eqb].
    match goal with |- context [handleEvents stamp (S i) ?s1 _] =>
      destruct (IH (S i) s1 before
                  {| entry_id := entry_id final; timestamp := timestamp final;
                     entry_type := assistant;
                     content := streamingText s ++ String c "";
                     entry_nodeId := entry_nodeId final |})
        as (s' & Hrun & H1 & H2 & H3 & H4 & H5 & H6 & H7 & H8) end.
    + unfold addChunk. simpl. rewrite Hconsole, lastEntry_app, Htype, Hnode. reflexivity.
    + reflexivity.
    + exact Hnode.
    + reflexivity.
    + exists s'. split; [exact Hrun|].
      unfold addChunk in *. simpl in *.
      do 6 (split; [assumption|]).
      rewrite H7, H8, append_char. now split.
Qed.

(** The handler of a [node-completed] or [node-error] event that names
    a node throws, in every state of the store. *)
Lemma node_event_throws uuid now s ev n :
  type ev = node_completed \/ type ev = node_error ->
  given (nodeId ev) = Some n ->
  handleEvent uuid now s ev = Throw MAPSET_NOT_LOADED.
Proof. unfold handleEvent. now intros [-> | ->] ->. Qed.

(** Main process and renderer together. When the store has started a
    run and then handles the events of a complete run in the order the
    main process sends them, the console ends with the user's message
    followed by one assistant entry that holds the whole answer; the run
    is shown as finished and the streaming buffer is empty again. The
    node is not shown as completed: the handler of [node-completed]
    throws (it is the one exception of the run, left uncaught in the
    renderer), so the set of completed nodes stays empty, and the active
    node is reset by [run-completed] only. *)
Theorem complete_run_is_shown stamp i s uuid now payload agent :
  exists s' shown e,
    handleEvents stamp i
      (startRun (p_runId payload) uuid now (p_userMessage payload) s)
      (completeRun payload agent) = (s', [e]) /\
    (forall u n s0,
       handleEvent u n s0
         {| type := node_completed; runId := p_runId payload; nodeId := Some "node-llm";
            data := JObj [("outputVariable", JStr "llmResponse");
                          ("value", JStr (responseText agent (p_userMessage payload)))] |}
       = Throw e) /\
    isRunning s' = false /\
    activeNodeId s' = None /\
    streamingText s' = "" /\
    completedNodeIds s' = ∅ /\
    errorNodeIds s' = ∅ /\
    consoleEntries s'
    = (consoleEntries s ++
       [{| entry_id := uuid; timestamp := now; entry_type := user;
           content := p_userMessage payload; entry_nodeId := None |};
        shown])%list /\
    entry_type shown = assistant /\
    entry_nodeId shown = Some "node-llm" /\
    content shown = responseText agent (p_userMessage payload).
Proof.
  unfold completeRun. cbv zeta.
  set (text := responseText agent (p_userMessage payload)).
  assert (Htext : exists c rest, text = String c rest) by (eexists; eexists; reflexivity).
  destruct Htext as (c & rest & Htext). clearbody text. subst text.
  cbn [app handleEvents chunkEvents].
  unfold handleEvent at 1. cbn [type bindE].
  unfold handleEvent at 1. cbn [type bindE nodeId].
  unfold handleEvent at 1.
  cbn [type data nodeId member bindE get_prop String.eqb Ascii.eqb Bool.eqb].
  set (userEntry := {| entry_id := uuid; timestamp := now; entry_type := user;
                       content := p_userMessage payload; entry_nodeId := None |}).
  set (first := {| entry_id := fst (stamp (S (S i))); timestamp := snd (stamp (S (S i)));
                   entry_type := assistant; content := String c "";
                   entry_nodeId := Some "node-llm" |}).
  rewrite handleEvents_app.
  match goal with |- context [handleEvents stamp _ ?s1 (chunkEvents _ rest)] =>
    destruct (chunks_rewrite_the_entry (p_runId payload) stamp rest (S (S (S i))) s1
                (consoleEntries s ++ [userEntry])%list first)
      as (s2 & Hrun & H1 & H2 & H3 & H4 & H5 & H6 & H7 & H8) end.
  - unfold addChunk, startRun, set_activeNodeId. cbn.
    rewrite lastEntry_app. cbn. reflexivity.
  - reflexivity.
  - reflexivity.
  - reflexivity.
  - rewrite Hrun. cbn [handleEvents].
    unfold handleEvent at 1. cbn [type nodeId given String.eqb Ascii.eqb Bool.eqb bindE].
    unfold handleEvent at 1. cbn [type bindE app].
    eexists. eexists. eexists. split; [reflexivity|].
    split; [intros u n s0; reflexivity|].
    cbn [isRunning activeNodeId streamingText completedNodeIds errorNodeIds
         consoleEntries].
    do 3 (split; [reflexivity|]).
    split; [|split; [|split]].
    + rewrite H4. reflexivity.
    + rewrite H5. reflexivity.
    + rewrite H8. cbn. rewrite <- app_assoc. reflexivity.
    + repeat split; reflexivity.
Qed.

(** The store does not look at the run id of an event. When the timer
    of a stopped run fires, the [node-completed] and [run-completed]
    events it sends are applied to whatever run the store is showing:
    the handler of the first throws and changes nothing, the second
    ends the display of that run (not running, no active node, empty
    streaming buffer); its console and its sets of nodes stay as they
    were. *)
Theorem stopped_run_ends_the_display w controller t stamp i s :
  tasks w !! controller = Some t ->
  signal_aborted w (t_abortController t) = true ->
  audit_writable (t_agent t) (db w) ->
  exists s' e,
    handleEvents stamp i s (emitted w (timerFires w controller)) = (s', [e]) /\
    s_runId s' = s_runId s /\
    isRunning s' = false /\
    activeNodeId s' = None /\
    streamingText s' = "" /\
    completedNodeIds s' = completedNodeIds s /\
    errorNodeIds s' = errorNodeIds s /\
    pendingConfirmation s' = pendingConfirmation s /\
    consoleEntries s' = consoleEntries s.
Proof.
  intros Htask Haborted Hwritable.
  unfold timerFires. rewrite Htask.
  rewrite stream_aborted by exact Haborted.
  match goal with |- context [finishRun ?w1 t] =>
    destruct (finishRun_written w1 t Hwritable) as (Hevents & _);
    rewrite (emitted_app w (finishRun w1 t) _ Hevents) end.
  cbn [handleEvents]. unfold handleEvent at 1.
  cbn [type nodeId given String.eqb Ascii.eqb Bool.eqb bindE].
  unfold handleEvent at 1. cbn [type bindE].
  eexists. eexists. split; [reflexivity|]. cbn. now repeat split.
Qed.

Lemma stopped_run_ends_the_display_witness :
  exists s' e,
    handleEvents (fun _ => ("u", "2026-01-01T00:00:00.000Z")) 0
      (startRun "r2" "u0" "2026-01-01T00:00:00.000Z" "again" initialState)
      (emitted (fst (RUNNER_STOP (fst (RUNNER_START (world0 None) startQuiet)) "r1"))
               (timerFires
                  (fst (RUNNER_STOP (fst (RUNNER_START (world0 None) startQuiet)) "r1")) 0))
    = (s', [e]) /\
    s_runId s' = Some "r2" /\
    isRunning s' = false /\
    completedNodeIds s' = ∅.
Proof.
  destruct (stopped_run_ends_the_display
              (fst (RUNNER_STOP (fst (RUNNER_START (world0 None) startQuiet)) "r1")) 0
              {| t_agent := quiet; t_agentId := "a2"; t_runId := "r1";
                 t_abortController := 0;
                 t_responseText := responseText quiet "hi";
                 t_rest := slice_from 1 (responseText quiet "hi") |}
              (fun _ => ("u", "2026-01-01T00:00:00.000Z")) 0
              (startRun "r2" "u0" "2026-01-01T00:00:00.000Z" "again" initialState))
    as (s' & e & Hrun & Hid & Hrunning & _ & _ & Hcompleted & _).
  - vm_compute. reflexivity.
  - vm_compute. reflexivity.
  - now left.
  - exists s', e. now repeat split.
Defined.

End RunnerStoreFacts.

(** ** Secrets *)

Module SettingsFacts.
Import Settings.

Lemma toyStorage_lawful : lawful toyStorage.
Proof. split; intros v; destruct v; reflexivity. Qed.

(** What [SETTINGS_GET_SECRET] answers for a secret that [setSecret]
    stored: that it exists, unless it was encrypted and encryption is
    no longer available. The value plays no part. *)
Lemma stored_secret_response ss (set_available get_available : bool)
    db key value db' :
  lawful ss ->
  setSecret ss set_available db key value = Return db' ->
  SETTINGS_GET_SECRET ss get_available db' key
  = ok {| exists_ := negb set_available || get_available |}.
Proof.
  intros [Hround Hnonempty Hplain]. unfold setSecret, dbSet.
  destruct db as [t|]; simpl; [|destruct set_available; discriminate].
  unfold SETTINGS_GET_SECRET, getSecret, dbGet.
  destruct set_available; simpl; intros Hset; inversion Hset; subst db'; simpl;
    rewrite lookup_insert_eq.
  - rewrite Hnonempty, Hplain. destruct get_available; simpl; [|reflexivity].
    now rewrite Hround.
  - destruct value; reflexivity.
Qed.

(** C6. The answer of [SETTINGS_GET_SECRET] to the renderer holds the
    existence flag only: for any two values stored under the same key
    (by [setSecret], on a platform whose encryption can be undone), the
    two answers are the same. *)
Theorem secret_lookup_reveals_only_existence ss (set_available get_available : bool)
    db key value1 value2 db1 db2 :
  lawful ss ->
  setSecret ss set_available db key value1 = Return db1 ->
  setSecret ss set_available db key value2 = Return db2 ->
  SETTINGS_GET_SECRET ss get_available db1 key
  = SETTINGS_GET_SECRET ss get_available db2 key.
Proof.
  intros Hss H1 H2.
  rewrite (stored_secret_response ss set_available get_available db key value1 db1 Hss H1).
  rewrite (stored_secret_response ss set_available get_available db key value2 db2 Hss H2).
  reflexivity.
Qed.

Lemma secret_lookup_reveals_only_existence_witness :
  SETTINGS_GET_SECRET toyStorage true
    (Some {[ "secret:anthropic" := "v10sk-ant-first" ]}) "anthropic"
  = SETTINGS_GET_SECRET toyStorage true
    (Some {[ "secret:anthropic" := "v10sk-ant-second" ]}) "anthropic".
Proof.
  apply (secret_lookup_reveals_only_existence toyStorage true true (Some ∅)
           "anthropic" "sk-ant-first" "sk-ant-second").
  - exact toyStorage_lawful.
  - reflexivity.
  - reflexivity.
Defined.

(** Stored in the clear (no encryption at the time of [setSecret]), the
    secret is still answered by its existence alone. *)
Example plain_secret_response :
  SETTINGS_GET_SECRET toyStorage false
    (Some {[ "secret:openai" := "PLAIN:sk-live-0123" ]}) "openai"
  = ok {| exists_ := true |}.
Proof. vm_compute. reflexivity. Qed.

(** The error answer comes from the database handle, not from a secret. *)
Lemma secret_lookup_error ss available db key e :
  SETTINGS_GET_SECRET ss available db key = err e ->
  db = None /\ e = Db.DB_NOT_INITIALIZED.
Proof.
  unfold SETTINGS_GET_SECRET, getSecret, dbGet.
  destruct db as [t|]; simpl.
  - destruct (t !! (SECRET_PREFIX ++ key)) as [stored|]; simpl; [|discriminate].
    destruct (String.eqb stored ""); simpl; [discriminate|].
    destruct (startsWith "PLAIN:" stored); simpl; [discriminate|].
    destruct (negb available); simpl; [discriminate|].
    destruct (decryptString ss (fromBase64 ss stored)); simpl; discriminate.
  - intros H. inversion H. now split.
Qed.

Lemma slice_from_prefix p s : slice_from (String.length p) (p ++ s) = s.
Proof. induction p as [|c p IH]; simpl; [now destruct s | exact IH]. Qed.

Lemma startsWith_prefix p s : startsWith p (p ++ s) = true.
Proof.
  unfold startsWith. induction p as [|c p IH]; simpl; [now destruct s|].
  destruct (ascii_dec c c); [exact IH | contradiction].
Qed.

Lemma append_inj p a b : p ++ a = p ++ b -> a = b.
Proof. induction p as [|c p IH]; simpl; [tauto|]. intros H. inversion H. auto. Qed.

(** Store, then read. The secret that [setSecret] stored under a key is
    what [getSecret] returns for that key, whatever the value (the empty
    string too); only a secret that was encrypted reads as [null] once
    encryption is no longer available. *)
Theorem secret_is_read_back ss (set_available get_available : bool) db key value db' :
  lawful ss ->
  setSecret ss set_available db key value = Return db' ->
  getSecret ss get_available db' key
  = Return (if set_available && negb get_available then None else Some value).
Proof.
  intros [Hround Hnonempty Hplain]. unfold setSecret, dbSet.
  destruct db as [t|]; simpl; [|destruct set_available; discriminate].
  unfold getSecret, dbGet.
  destruct set_available; simpl; intros Hset; inversion Hset; subst db'; simpl;
    rewrite lookup_insert_eq.
  - rewrite Hnonempty, Hplain. destruct get_available; simpl; [|reflexivity].
    now rewrite Hround.
  - change (String.eqb ("PLAIN:" ++ value) "") with false. cbv iota.
    rewrite (startsWith_prefix "PLAIN:" value).
    reflexivity.
Qed.

Lemma secret_is_read_back_witness :
  getSecret toyStorage true (Some {[ "secret:openai" := "v10sk-live-0123" ]}) "openai"
  = Return (Some "sk-live-0123") /\
  getSecret toyStorage false (Some {[ "secret:openai" := "v10sk-live-0123" ]}) "openai"
  = Return None /\
  getSecret toyStorage true (Some {[ "secret:openai" := "PLAIN:" ]}) "openai"
  = Return (Some "").
Proof.
  split; [|split].
  - apply (secret_is_read_back toyStorage true true (Some ∅) "openai" "sk-live-0123").
    + exact toyStorage_lawful.
    + reflexivity.
  - apply (secret_is_read_back toyStorage true false (Some ∅) "openai" "sk-live-0123").
    + exact toyStorage_lawful.
    + reflexivity.
  - apply (secret_is_read_back toyStorage false true (Some ∅) "openai" "").
    + exact toyStorage_lawful.
    + reflexivity.
Defined.

Lemma secret_key_inj key key' : key <> key' -> SECRET_PREFIX ++ key <> SECRET_PREFIX ++ key'.
Proof. intros Hne H. apply Hne. exact (append_inj _ _ _ H). Qed.

(** Secrets do not interfere: storing or deleting the secret of one key
    changes neither what [getSecret] returns for any other key nor the
    stored application settings. *)
Theorem other_secrets_are_untouched ss (available any : bool) db key value db' key' :
  key <> key' ->
  setSecret ss available db key value = Return db' \/ deleteSecret db key = Return db' ->
  getSecret ss any db' key' = getSecret ss any db key' /\
  dbGet db' "app_settings" = dbGet db "app_settings".
Proof.
  intros Hne Hop. apply secret_key_inj in Hne.
  assert (Hsettings : SECRET_PREFIX ++ key <> "app_settings") by discriminate.
  unfold setSecret, deleteSecret, dbSet, dbDelete in Hop.
  destruct db as [t|]; simpl in Hop.
  - unfold getSecret, dbGet. simpl.
    destruct Hop as [Hop|Hop]; [destruct available; simpl in Hop|];
      inversion Hop; subst db'; simpl;
      rewrite ?lookup_insert_ne, ?lookup_delete_ne by assumption; now split.
  - destruct Hop as [Hop|Hop]; [destruct available; simpl in Hop|]; discriminate.
Qed.

Lemma other_secrets_are_untouched_witness :
  getSecret toyStorage true
    (Some (<[ "secret:openai" := "v10sk-live-0123" ]> {[ "secret:anthropic" := "v10sk-ant" ]}))
    "anthropic"
  = getSecret toyStorage true (Some {[ "secret:anthropic" := "v10sk-ant" ]}) "anthropic" /\
  dbGet
    (Some (<[ "secret:openai" := "v10sk-live-0123" ]> {[ "secret:anthropic" := "v10sk-ant" ]}))
    "app_settings"
  = dbGet (Some {[ "secret:anthropic" := "v10sk-ant" ]}) "app_settings".
Proof.
  apply (other_secrets_are_untouched toyStorage true true
           (Some {[ "secret:anthropic" := "v10sk-ant" ]}) "openai" "sk-live-0123").
  - discriminate.
  - left. reflexivity.
Defined.

(** Delete, then read: a deleted secret is gone, whatever was stored,
    and the renderer is told that it does not exist. *)
Theorem deleted_secret_is_gone ss available db key db' :
  deleteSecret db key = Return db' ->
  getSecret ss available db' key = Return None /\
  SETTINGS_GET_SECRET ss available db' key = ok {| exists_ := false |}.
Proof.
  unfold deleteSecret, dbDelete. destruct db as [t|]; simpl; [|discriminate].
  intros H. inversion H; subst db'.
  unfold SETTINGS_GET_SECRET, getSecret, dbGet. simpl.
  rewrite lookup_delete_eq. now split.
Qed.

Lemma deleted_secret_is_gone_witness :
  getSecret toyStorage true (Some (delete "secret:openai" {[ "secret:openai" := "PLAIN:x" ]}))
    "openai" = Return None /\
  SETTINGS_GET_SECRET toyStorage true
    (Some (delete "secret:openai" {[ "secret:openai" := "PLAIN:x" ]})) "openai"
  = ok {| exists_ := false |}.
Proof.
  apply (deleted_secret_is_gone toyStorage true (Some {[ "secret:openai" := "PLAIN:x" ]})).
  reflexivity.
Defined.

Lemma like_any_rest s :
  (fix any (s : string) : bool :=
     like "" s || match s with EmptyString => false | String _ s' => any s' end) s = true.
Proof. induction s as [|c s IH]; [reflexivity | exact IH]. Qed.

Lemma like_secret name : like (SECRET_PREFIX ++ "%") (SECRET_PREFIX ++ name) = true.
Proof. exact (like_any_rest name). Qed.

(** On a table that holds only keys the repository writes, the keys
    [listSecretKeys] returns are exactly the names under which a secret
    is stored. *)
Theorem listed_keys_are_the_stored_secrets t name :
  repo_keys t ->
  exists keys,
    listSecretKeys (Some t) = Return keys /\
    (name ∈ keys <-> is_Some (t !! (SECRET_PREFIX ++ name))).
Proof.
  intros Hrepo. eexists. split; [reflexivity|].
  rewrite list_elem_of_fmap. split.
  - intros ([k v] & Hname & Hrow). apply list_elem_of_filter in Hrow.
    destruct Hrow as [Hlike Hrow]. apply elem_of_map_to_list in Hrow.
    cbn [fst] in Hname, Hlike.
    destruct (Hrepo k v Hrow) as [-> | [n ->]]; [discriminate|].
    change (name = n) in Hname. subst n. now exists v.
  - intros [v Hv]. exists (SECRET_PREFIX ++ name, v). split.
    + reflexivity.
    + apply list_elem_of_filter. split; [exact (like_secret name)|].
      now apply elem_of_map_to_list.
Qed.

Lemma listed_keys_are_the_stored_secrets_witness :
  exists keys,
    listSecretKeys (Some {[ "secret:openai" := "PLAIN:x" ]}) = Return keys /\
    ("openai" ∈ keys <->
     is_Some (({[ "secret:openai" := "PLAIN:x" ]} : gmap string string)
                !! (SECRET_PREFIX ++ "openai"))).
Proof.
  apply (listed_keys_are_the_stored_secrets {[ "secret:openai" := "PLAIN:x" ]} "openai").
  intros k v H. apply lookup_singleton_Some in H. destruct H as [<- _].
  right. now exists "openai".
Defined.

Lemma repo_keys_insert t k v :
  repo_keys t -> (k = "app_settings" \/ exists name, k = SECRET_PREFIX ++ name) ->
  repo_keys (<[k := v]> t).
Proof.
  intros Hrepo Hk k' v' Hlookup.
  destruct (decide (k = k')) as [Heq|Hne].
  - now subst k'.
  - rewrite lookup_insert_ne in Hlookup by exact Hne. exact (Hrepo k' v' Hlookup).
Qed.

Lemma repo_keys_delete t k : repo_keys t -> repo_keys (delete k t).
Proof.
  intros Hrepo k' v' Hlookup. apply lookup_delete_Some in Hlookup.
  exact (Hrepo k' v' (proj2 Hlookup)).
Qed.

End SettingsFacts.

(** ** The renderer's list of secrets *)

Module SettingsStoreFacts.
Import Settings SettingsStore SettingsFacts.

Lemma existsb_eqb_elem key (l : list string) :
  existsb (String.eqb key) l = true <-> key ∈ l.
Proof.
  rewrite existsb_exists. split.
  - intros (x & Hin & Heq). apply String.eqb_eq in Heq. subst x.
    now apply list_elem_of_In.
  - intros Hin. exists key. split; [now apply list_elem_of_In | apply String.eqb_refl].
Qed.

(** The renderer's list of secret keys follows the table: once the two
    agree, they still agree after the store has set or deleted a secret,
    whether the main process accepted the key name or refused it, and the
    list never holds a key twice. *)
Theorem secret_key_list_follows_the_table ss available app key value :
  in_sync app ->
  in_sync (fst (store_setSecret ss available app key value)) /\
  in_sync (fst (store_deleteSecret app key)).
Proof.
  intros (t & Htable & Hrepo & Hnodup & Hsync).
  split.
  - unfold store_setSecret, SETTINGS_SET_SECRET.
    destruct (valid_secret_key key); simpl.
    + assert (Hset : setSecret ss available (table app) key value
                     = Return (Some (<[SECRET_PREFIX ++ key :=
                          if available then toBase64 ss (encryptString ss value)
                          else "PLAIN:" ++ value]> t))).
      { unfold setSecret, dbSet. rewrite Htable. now destruct available. }
      rewrite Hset. simpl. eexists. split; [reflexivity|].
      split; [apply repo_keys_insert; [exact Hrepo | right; now exists key]|].
      destruct (existsb (String.eqb key) (secretKeys app)) eqn:E.
      * split; [exact Hnodup|]. intros name. cbn [secretKeys]. rewrite Hsync.
        apply existsb_eqb_elem, Hsync in E.
        destruct (decide (key = name)) as [Heq|Hne].
        -- subst name. rewrite lookup_insert_eq. split; eauto.
        -- rewrite lookup_insert_ne; [tauto|]. now apply secret_key_inj.
      * assert (Hfresh : key ∉ secretKeys app).
        { intros Hin. apply existsb_eqb_elem in Hin. congruence. }
        split.
        -- apply NoDup_app. split; [exact Hnodup|]. split.
           ++ intros x Hx Hx'. apply list_elem_of_singleton in Hx'. now subst x.
           ++ apply NoDup_singleton.
        -- intros name. cbn [secretKeys].
           rewrite elem_of_app, list_elem_of_singleton, Hsync.
           destruct (decide (key = name)) as [Heq|Hne].
           ++ subst name. rewrite lookup_insert_eq. split; eauto.
           ++ rewrite lookup_insert_ne by now apply secret_key_inj.
              split; [intros [H|H]; [exact H | congruence] | tauto].
    + exists t. now repeat split; try apply Hsync.
  - unfold store_deleteSecret, SETTINGS_DELETE_SECRET, deleteSecret, dbDelete.
    rewrite Htable. simpl. eexists. split; [reflexivity|].
    split; [now apply repo_keys_delete|].
    split; [now apply NoDup_filter|].
    intros name. cbn [secretKeys]. rewrite list_elem_of_filter, Hsync.
    destruct (decide (key = name)) as [Heq|Hne].
    + subst name. rewrite lookup_delete_eq. split; [tauto|]. intros [v Hv]. discriminate.
    + rewrite lookup_delete_ne by now apply secret_key_inj.
      split; [tauto|]. intros H. split; [congruence | exact H].
Qed.

Lemma secret_key_list_follows_the_table_witness :
  in_sync (fst (store_setSecret toyStorage true freshApp "openai" "sk-live-0123")) /\
  in_sync (fst (store_deleteSecret freshApp "openai")).
Proof.
  apply (secret_key_list_follows_the_table toyStorage true freshApp "openai" "sk-live-0123").
  exists ∅. split; [reflexivity|]. split; [|split].
  - intros k v H. rewrite lookup_empty in H. discriminate.
  - apply NoDup_nil_2.
  - intros name. simpl. rewrite lookup_empty. split.
    + intros H. inversion H.
    + intros [v H]. discriminate.
Defined.

End SettingsStoreFacts.

(** ** Migrations *)

Module MigrationsFacts.
Import Migrations.

Section Database.

Variable Store : Type.
Variable exec : string -> Store -> Except Store.

Lemma MAX_bound (versions : list nat) v :
  v ∈ versions -> exists m, MAX versions = Some m /\ v <= m.
Proof.
  destruct versions as [|a rest]; [intros H; inversion H|]. simpl.
  intros Hv. eexists. split; [reflexivity|].
  assert (H : forall l, a <= fold_right Nat.max a l /\
                        forall x, x ∈ l -> x <= fold_right Nat.max a l).
  { induction l as [|x l [Ha Hall]]; simpl; [split; [lia|]; intros x Hx; inversion Hx|].
    split; [lia|]. intros y Hy. apply elem_of_cons in Hy.
    destruct Hy as [-> | Hy]; [lia|]. specialize (Hall y Hy). lia. }
  destruct (H rest) as [Ha Hall]. apply elem_of_cons in Hv.
  destruct Hv as [-> | Hv]; [exact Ha | now apply Hall].
Qed.

Lemma recorded_bound (d : Database Store) v : v ∈ recorded d -> v <= currentVersion d.
Proof.
  intros Hv. unfold currentVersion. destruct (MAX_bound _ v Hv) as (m & -> & Hm). exact Hm.
Qed.

Lemma migrate_succeeds : forall pending i versions s d',
  migrate exec pending i versions s = (d', None) ->
  execAll exec pending s = Return (store d') /\
  exists versions',
    d' = {| schema_migrations := Some versions'; store := store d' |} /\
    (pending = [] -> versions' = versions) /\
    (pending <> [] -> (i + length pending) ∈ versions').
Proof.
  induction pending as [|sql rest IH]; intros i versions s d' H; simpl in H.
  - inversion H; subst d'. simpl. split; [reflexivity|].
    exists versions. split; [reflexivity|]. split; [reflexivity | congruence].
  - simpl. destruct (exec sql s) as [s1|e]; [|discriminate].
    destruct (existsb (Nat.eqb (i + 1)) versions); [discriminate|].
    destruct (IH _ _ _ _ H) as (Hexec & versions' & Hd & Hnone & Hsome).
    split; [exact Hexec|]. exists versions'. split; [exact Hd|].
    split; [discriminate|]. intros _.
    destruct rest as [|sql' rest'].
    + rewrite (Hnone eq_refl). simpl. apply elem_of_app. right. now left.
    + cbn [length]. rewrite Nat.add_succ_r. apply Hsome. discriminate.
Qed.

(** Migrations run once, and in order. A [runMigrations] that succeeds
    has run the scripts after the recorded version one after the other,
    and a second [runMigrations] runs nothing and changes nothing. *)
Theorem migrations_run_once_and_in_order MIGRATIONS (d d' : Database Store) :
  runMigrations exec MIGRATIONS d = (d', None) ->
  execAll exec (drop (currentVersion d) MIGRATIONS) (store d) = Return (store d') /\
  runMigrations exec MIGRATIONS d' = (d', None).
Proof.
  unfold runMigrations. intros H.
  destruct (migrate_succeeds _ _ _ _ _ H) as (Hexec & versions' & Hd & Hnone & Hsome).
  split; [exact Hexec|].
  assert (Hdone : length MIGRATIONS <= currentVersion d').
  { destruct (drop (currentVersion d) MIGRATIONS) as [|sql rest] eqn:E.
    - assert (Hsame : recorded d' = recorded d).
      { rewrite Hd. unfold recorded at 1. simpl. now apply Hnone. }
      unfold currentVersion. rewrite Hsame. fold (currentVersion d).
      apply (f_equal length) in E. rewrite length_drop in E. simpl in E. lia.
    - assert (Hin : (currentVersion d + length (sql :: rest)) ∈ recorded d').
      { rewrite Hd. unfold recorded. simpl. apply Hsome. discriminate. }
      apply recorded_bound in Hin.
      apply (f_equal length) in E. rewrite length_drop in E. lia. }
  rewrite drop_ge by exact Hdone. simpl.
  rewrite Hd at 3. rewrite Hd at 1. reflexivity.
Qed.

End Database.

Lemma migrations_run_once_and_in_order_witness :
  execAll recording (drop 1 ["one"; "two"; "three"]) ["one"] = Return ["one"; "two"; "three"] /\
  runMigrations recording ["one"; "two"; "three"]
    {| schema_migrations := Some [1; 2; 3]; store := ["one"; "two"; "three"] |}
  = ({| schema_migrations := Some [1; 2; 3]; store := ["one"; "two"; "three"] |}, None).
Proof.
  apply (migrations_run_once_and_in_order (list string) recording ["one"; "two"; "three"]
           {| schema_migrations := Some [1]; store := ["one"] |}
           {| schema_migrations := Some [1; 2; 3]; store := ["one"; "two"; "three"] |}).
  reflexivity.
Defined.

End MigrationsFacts.

(** ** The audit log *)

Module AuditFacts.
Import Audit.

(** The stored payload is capped: 10 000 characters and the marker. *)
Lemma payload_is_size_capped p s :
  payloadStr p = Some s ->
  String.length s <= MAX_PAYLOAD + String.length TRUNCATED.
Proof.
  unfold payloadStr.
  destruct p as [[v|] | | e]; try discriminate.
  - destruct (Nat.ltb MAX_PAYLOAD (String.length (stringify v))) eqn:E;
      intros H; inversion H; subst s.
    + rewrite JsonFacts.length_append.
      pose proof (JsonFacts.length_slice_to MAX_PAYLOAD (stringify v)) as Hcut.
      apply Nat.add_le_mono_r. exact Hcut.
    + apply Nat.ltb_ge in E. apply Nat.le_trans with MAX_PAYLOAD; [exact E|].
      apply Nat.le_add_r.
  - intros H. inversion H. apply Nat.leb_le. vm_compute. reflexivity.
  - intros H. inversion H. apply Nat.leb_le. vm_compute. reflexivity.
Qed.

Lemma payload_is_size_capped_witness :
  payloadStr (Serializable (Some (JStr "ok"))) = Some (quote "ok") /\
  String.length (quote "ok") <= MAX_PAYLOAD + String.length TRUNCATED.
Proof.
  assert (H : payloadStr (Serializable (Some (JStr "ok"))) = Some (quote "ok"))
    by (vm_compute; reflexivity).
  split; [exact H|].
  exact (payload_is_size_capped (Serializable (Some (JStr "ok"))) (quote "ok") H).
Defined.

(** An append leaves every earlier row as it was and adds one row, with
    the next id. *)
Lemma append_keeps_earlier_rows t entry db' :
  appendAuditLog (Some t) entry = Return db' ->
  exists row,
    db' = Some {| rows := rows t ++ [row]; sequence := sequence t + 1;
                  clock := clock t; fault := None |} /\
    id row = (sequence t + 1)%Z /\
    row_payload row = payloadStr (payload entry).
Proof.
  unfold appendAuditLog, insert. simpl.
  destruct (fault t); simpl; [discriminate|].
  intros H. inversion H. eexists. split; [reflexivity|]. now split.
Qed.

(** Clearing and pruning delete rows; the rows they keep are unchanged. *)
Lemma clear_only_deletes t agent t' :
  clearAuditLog (Some t) agent = Return (Some t') -> rows t' ⊆ rows t.
Proof.
  unfold clearAuditLog. simpl. destruct (fault t); simpl; [discriminate|].
  intros H. inversion H. simpl. intros r Hr.
  apply list_elem_of_filter in Hr. tauto.
Qed.

Lemma prune_only_deletes t expired t' :
  pruneAuditLog (Some t) expired = Return (Some t') -> rows t' ⊆ rows t.
Proof.
  unfold pruneAuditLog. simpl. destruct (fault t); simpl; [discriminate|].
  intros H. inversion H. simpl. intros r Hr.
  apply list_elem_of_filter in Hr. tauto.
Qed.

(** C8, at the failing input. A payload whose serialisation has at most
    10 000 characters is stored as that serialisation, character for
    character: nothing is stripped from it. *)
Theorem short_payload_is_stored_verbatim t entry v :
  fault t = None ->
  payload entry = Serializable (Some v) ->
  String.length (stringify v) <= MAX_PAYLOAD ->
  exists row,
    appendAuditLog (Some t) entry
    = Return (Some {| rows := rows t ++ [row]; sequence := sequence t + 1;
                      clock := clock t; fault := None |}) /\
    row_payload row = Some (stringify v).
Proof.
  intros Hfault Hpayload Hlen.
  unfold appendAuditLog, insert. simpl. rewrite Hfault. simpl.
  eexists. split; [reflexivity|]. simpl.
  rewrite Hpayload. unfold payloadStr.
  apply Nat.ltb_ge in Hlen. now rewrite Hlen.
Qed.

Lemma short_payload_is_stored_verbatim_witness :
  exists row,
    appendAuditLog (Some emptyTable) leakyEntry
    = Return (Some {| rows := [row]; sequence := 1;
                      clock := clock emptyTable; fault := None |}) /\
    row_payload row
    = Some ("{" ++ dquote ++ "userMessage" ++ dquote ++ ":" ++ dquote
            ++ "use key sk-ant-api03-SECRET" ++ dquote ++ "}").
Proof.
  destruct (short_payload_is_stored_verbatim emptyTable leakyEntry
              (JObj [("userMessage", JStr "use key sk-ant-api03-SECRET")]))
    as (row & Happend & Hpayload).
  - reflexivity.
  - reflexivity.
  - apply Nat.leb_le. vm_compute. reflexivity.
  - exists row. split; [exact Happend | exact Hpayload].
Defined.

(** The secret is in the stored row. *)
Example secret_is_stored :
  match appendAuditLog (Some emptyTable) leakyEntry with
  | Return (Some t) =>
      map (fun r => match row_payload r with
                    | Some s => includes "sk-ant-api03-SECRET" s
                    | None => false
                    end) (rows t)
  | _ => []
  end = [true].
Proof. vm_compute. reflexivity. Qed.

(** A long payload is cut at 10 000 characters. *)
Lemma long_payload_is_truncated v :
  MAX_PAYLOAD < String.length (stringify v) ->
  payloadStr (Serializable (Some v))
  = Some (slice_to MAX_PAYLOAD (stringify v) ++ TRUNCATED).
Proof.
  intros H. unfold payloadStr. apply Nat.ltb_lt in H. now rewrite H.
Qed.

Lemma insert_desc_elem x r l : x ∈ insert_desc r l <-> x = r \/ x ∈ l.
Proof.
  induction l as [|y rest IH]; simpl.
  - rewrite list_elem_of_singleton. split; [tauto|]. intros [H|H]; [exact H|]. inversion H.
  - destruct (Z.leb (id y) (id r)).
    + rewrite elem_of_cons. tauto.
    + rewrite !elem_of_cons, IH. tauto.
Qed.




Lemma insert_desc_sorted r l :
  StronglySorted newer l -> StronglySorted newer (insert_desc r l).
Proof.
  induction 1 as [|y rest Hsorted IH Hall]; simpl.
  - repeat constructor.
  - destruct (Z.leb (id y) (id r)) eqn:E.
    + apply Z.leb_le in E. constructor; [now constructor|].
      constructor; [exact E|].
      eapply Forall_impl; [exact Hall|]. unfold newer. simpl. intros z Hz. lia.
    + apply Z.leb_gt in E. constructor; [exact IH|].
      apply Forall_forall. intros z Hz. apply insert_desc_elem in Hz.
      destruct Hz as [->|Hz]; [unfold newer; lia|].
      rewrite Forall_forall in Hall. now apply Hall.
Qed.

Lemma order_sorted l : StronglySorted newer (order_by_id_desc l).
Proof.
  induction l as [|y rest IH]; simpl; [constructor | now apply insert_desc_sorted].
Qed.


Lemma sorted_take {A} (R : A -> A -> Prop) n l :
  StronglySorted R l -> StronglySorted R (take n l).
Proof.
  intros H. revert n. induction H as [|x rest Hs IH Hall]; intros [|n]; simpl;
    try constructor.
  - apply IH.
  - apply Forall_forall. intros y Hy. rewrite Forall_forall in Hall.
    apply Hall. eapply subseteq_take. exact Hy.
Qed.

Lemma sorted_drop {A} (R : A -> A -> Prop) n l :
  StronglySorted R l -> StronglySorted R (drop n l).
Proof.
  intros H. revert n. induction H as [|x rest Hs IH Hall]; intros [|n]; simpl;
    try constructor; try assumption.
  apply IH.
Qed.

Lemma limit_offset_sorted limit offset l :
  StronglySorted newer l -> StronglySorted newer (limit_offset limit offset l).
Proof.
  intros H. unfold limit_offset. destruct (Z.ltb limit 0).
  - now apply sorted_drop.
  - now apply sorted_take, sorted_drop.
Qed.



Lemma sorted_entries l : StronglySorted newer l -> newest_first (map toEntry l).
Proof.
  induction 1 as [|x rest Hs IH Hall]; simpl; constructor; [exact IH|].
  apply Forall_forall. intros e He. apply list_elem_of_fmap in He.
  destruct He as (y & -> & Hy). rewrite Forall_forall in Hall. exact (Hall y Hy).
Qed.





(** The defaults are a limit of 100 and no offset. *)
Lemma bind_page_default params :
  q_limit params = None -> q_offset params = None ->
  bind_page params = Return (100, 0)%Z.
Proof. unfold bind_page, limit_of, offset_of. now intros -> ->. Qed.

(** A limit of two to the 63rd, and any number that is not whole, is
    refused. *)
Example limit_out_of_range a :
  queryAuditLog (Some twoAgents) (byAgent a (Some (inject_Z (2 ^ 63))) None)
  = Throw DATATYPE_MISMATCH /\
  queryAuditLog (Some twoAgents) (byAgent a (Some (1 # 2)) None)
  = Throw DATATYPE_MISMATCH /\
  queryAuditLog (Some twoAgents) (byAgent a None (Some (inject_Z (2 ^ 63 - 1))))
  = Throw DATATYPE_MISMATCH.
Proof. repeat split. Qed.


(** A query that returns lists the newest entries first: the ids never
    grow along the page. *)
Theorem query_lists_newest_first t params r :
  queryAuditLog (Some t) params = Return r -> newest_first (entries r).
Proof.
  unfold queryAuditLog. cbn [Db.getDb bindE]. intros H.
  destruct (bind_page params) as [page|]; [|discriminate].
  cbn [bindE] in H. injection H as <-. cbn [entries].
  apply sorted_entries, limit_offset_sorted, order_sorted.
Qed.

Lemma query_lists_newest_first_witness :
  exists r,
    queryAuditLog (Some twoAgents) (byAgent "" (Some 2%Q) None) = Return r /\
    length (entries r) = 2 /\ newest_first (entries r).
Proof.
  eexists. split; [reflexivity|]. split; [reflexivity|].
  apply (query_lists_newest_first twoAgents (byAgent "" (Some 2%Q) None)). reflexivity.
Defined.

Lemma order_newest_last l r :
  Forall (fun x => (id x < id r)%Z) l ->
  order_by_id_desc (l ++ [r])%list = r :: order_by_id_desc l.
Proof.
  unfold order_by_id_desc. rewrite fold_right_app. simpl.
  induction 1 as [|x rest Hx Hall IH]; simpl; [reflexivity|].
  rewrite IH. simpl.
  destruct (Z.leb (id r) (id x)) eqn:E; [apply Z.leb_le in E; lia | reflexivity].
Qed.

(** Insert, then look up. On a table whose ids were all issued by its
    counter, the entry just appended heads the page of its run: it has
    the next id, the fields of the entry and the capped payload, and the
    run's total has grown by one. *)
Theorem appended_entry_heads_its_run t entry db' :
  issued t ->
  appendAuditLog (Some t) entry = Return db' ->
  exists e rest before,
    queryAuditLog (Some t) (byRun (runId entry)) = Return before /\
    queryAuditLog db' (byRun (runId entry))
    = Return {| entries := e :: rest; total := S (total before) |} /\
    e_id e = (sequence t + 1)%Z /\
    e_agentId e = agentId entry /\
    e_runId e = runId entry /\
    e_eventType e = eventType entry /\
    e_payload e = payloadStr (payload entry) /\
    e_outcome e = Outcome_text (outcome entry).
Proof.
  intros Hissued Happend.
  unfold appendAuditLog, insert in Happend. simpl in Happend.
  destruct (fault t); simpl in Happend; [discriminate|].
  inversion Happend; subst db'; clear Happend.
  set (row := {| id := sequence t + 1; ts := clock t; agent_id := agentId entry;
                 run_id := runId entry; event_type := eventType entry;
                 row_tool := tool entry; row_payload := payloadStr (payload entry);
                 row_outcome := Outcome_text (outcome entry);
                 row_error := entry_error entry |}).
  set (P := fun r => where_ (byRun (runId entry)) r = true).
  assert (Hrow : P row).
  { unfold P, where_, condition. simpl. rewrite String.eqb_refl.
    now destruct (String.eqb (runId entry) ""). }
  assert (Hbelow : Forall (fun x => (id x < id row)%Z) (filter P (rows t))).
  { apply Forall_forall. intros x Hx. apply list_elem_of_filter in Hx.
    destruct Hx as [_ Hx]. unfold issued in Hissued. rewrite Forall_forall in Hissued.
    specialize (Hissued x Hx). simpl. lia. }
  exists (toEntry row), (map toEntry (take 99 (order_by_id_desc (filter P (rows t))))).
  eexists. split; [reflexivity|]. split.
  - unfold queryAuditLog. cbn [Db.getDb bindE rows].
    rewrite (bind_page_default (byRun (runId entry)) eq_refl eq_refl).
    cbn [bindE fst snd total]. fold P.
    rewrite filter_app, filter_cons_True by exact Hrow. rewrite filter_nil.
    rewrite (order_newest_last _ _ Hbelow), length_app. simpl.
    f_equal. f_equal. apply Nat.add_1_r.
  - now repeat split.
Qed.


Lemma appended_entry_heads_its_run_witness :
  issued twoAgents /\
  exists e rest before,
    queryAuditLog (Some twoAgents) (byRun "r1") = Return before /\
    queryAuditLog
      (match appendAuditLog (Some twoAgents) leakyEntry with
       | Return d => d
       | Throw _ => None
       end) (byRun "r1")
    = Return {| entries := e :: rest; total := S (total before) |} /\
    e_id e = 3%Z /\ e_agentId e = "a1" /\ e_runId e = "r1" /\
    e_eventType e = "run-started" /\
    e_payload e = payloadStr (payload leakyEntry) /\
    e_outcome e = "success".
Proof.
  assert (H : issued twoAgents).
  { unfold issued. simpl. repeat constructor; simpl; lia. }
  split; [exact H|].
  exact (appended_entry_heads_its_run twoAgents leakyEntry _ H eq_refl).
Defined.

Lemma query_same_selection t t' params :
  filter (fun row => where_ params row = true) (rows t')
  = filter (fun row => where_ params row = true) (rows t) ->
  queryAuditLog (Some t') params = queryAuditLog (Some t) params.
Proof. intros H. unfold queryAuditLog. simpl. now rewrite H. Qed.

Lemma query_no_selection t params :
  filter (fun row => where_ params row = true) (rows t) = [] ->
  queryAuditLog (Some t) params
  = let! _ := bind_page params in Return {| entries := []; total := 0 |}.
Proof.
  intros H. unfold queryAuditLog. cbn [Db.getDb bindE]. rewrite H.
  destruct (bind_page params) as [page|]; [|reflexivity]. cbn [bindE length].
  unfold order_by_id_desc, limit_offset. cbn [fold_right].
  rewrite drop_nil, take_nil. now destruct (Z.ltb _ 0).
Qed.

Lemma filter_none {A} (P : A -> Prop) `{forall x, Decision (P x)} (l : list A) :
  (forall x, x ∈ l -> ~ P x) -> filter P l = [].
Proof.
  induction l as [|x rest IH]; intros Hnone; [reflexivity|].
  rewrite filter_cons_False by (apply Hnone; left).
  apply IH. intros y Hy. apply Hnone. now right.
Qed.

Lemma where_agent params b r :
  q_agentId params = Some b -> b <> "" -> where_ params r = true -> agent_id r = b.
Proof.
  intros Hp Hb Hw. unfold where_ in Hw. rewrite Hp in Hw. simpl in Hw.
  apply String.eqb_neq in Hb. rewrite Hb in Hw.
  destruct (String.eqb (agent_id r) b) eqn:E; [now apply String.eqb_eq in E|].
  discriminate.
Qed.

(** Clearing one agent's log removes every row of that agent and
    nothing else: afterwards a query for that agent finds nothing (it
    answers with no entry and a total of 0, unless SQLite refuses its
    limit or offset and it throws), and a query for any other agent
    answers as before. *)
Theorem clear_is_per_agent t a db' params :
  a <> "" ->
  clearAuditLog (Some t) (Some a) = Return db' ->
  (q_agentId params = Some a ->
   queryAuditLog db' params
   = let! _ := bind_page params in Return {| entries := []; total := 0 |}) /\
  (forall b, q_agentId params = Some b -> b <> "" -> b <> a ->
   queryAuditLog db' params = queryAuditLog (Some t) params).
Proof.
  intros Ha Hclear. unfold clearAuditLog in Hclear. simpl in Hclear.
  destruct (fault t); simpl in Hclear; [discriminate|].
  inversion Hclear; subst db'; clear Hclear.
  pose proof Ha as Ha'. apply String.eqb_neq in Ha'. rewrite Ha'.
  split.
  - intros Hp. apply query_no_selection. simpl.
    apply filter_none. intros r Hr Hw.
    apply list_elem_of_filter in Hr. destruct Hr as [Hkeep _].
    rewrite (where_agent params a r Hp Ha Hw), String.eqb_refl in Hkeep.
    discriminate.
  - intros b Hp Hb Hba. apply query_same_selection. simpl.
    rewrite list_filter_filter. apply list_filter_iff. intros r. split; [tauto|].
    intros Hw. split; [exact Hw|].
    rewrite (where_agent params b r Hp Hb Hw).
    apply String.eqb_neq in Hba. now rewrite Hba.
Qed.

Lemma clear_is_per_agent_witness :
  queryAuditLog
    (match clearAuditLog (Some twoAgents) (Some "a1") with
     | Return d => d
     | Throw _ => None
     end) (byAgent "a1" None None)
  = Return {| entries := []; total := 0 |} /\
  queryAuditLog
    (match clearAuditLog (Some twoAgents) (Some "a1") with
     | Return d => d
     | Throw _ => None
     end) (byAgent "a2" None None)
  = queryAuditLog (Some twoAgents) (byAgent "a2" None None).
Proof.
  assert (Ha : "a1" <> "") by discriminate.
  split.
  - exact (proj1 (clear_is_per_agent twoAgents "a1" _ (byAgent "a1" None None)
                    Ha eq_refl) eq_refl).
  - apply (proj2 (clear_is_per_agent twoAgents "a1" _ (byAgent "a2" None None)
                    Ha eq_refl) "a2"); [reflexivity | discriminate | discriminate].
Defined.

(** Without an agent id, and also with the empty string as agent id,
    the whole log is deleted: every later query finds nothing (it
    answers with no entry and a total of 0, unless SQLite refuses its
    limit or offset and it throws). *)
Theorem clear_without_agent_empties_the_log t agent db' params :
  agent = None \/ agent = Some "" ->
  clearAuditLog (Some t) agent = Return db' ->
  queryAuditLog db' params
  = let! _ := bind_page params in Return {| entries := []; total := 0 |}.
Proof.
  intros Hagent Hclear. unfold clearAuditLog in Hclear. simpl in Hclear.
  destruct (fault t); simpl in Hclear; [discriminate|].
  inversion Hclear; subst db'; clear Hclear.
  apply query_no_selection. simpl.
  apply filter_none. intros r Hr _.
  apply list_elem_of_filter in Hr. destruct Hr as [Hkeep _].
  destruct Hagent as [-> | ->]; simpl in Hkeep; discriminate.
Qed.

Lemma clear_without_agent_empties_the_log_witness :
  queryAuditLog
    (match clearAuditLog (Some twoAgents) (Some "") with
     | Return d => d
     | Throw _ => None
     end) (byAgent "a2" None None)
  = Return {| entries := []; total := 0 |}.
Proof.
  exact (clear_without_agent_empties_the_log twoAgents (Some "") _
           (byAgent "a2" None None) (or_intror eq_refl) eq_refl).
Defined.

(** Ids are never reused. Appending, clearing and pruning keep every id
    of the table at or below the counter, and an append takes the id
    after the counter: it is larger than every id of the table, also
    after rows were deleted. *)
Theorem ids_are_never_reused t :
  issued t ->
  (forall entry db', appendAuditLog (Some t) entry = Return db' ->
     exists row t', db' = Some t' /\ rows t' = (rows t ++ [row])%list /\
                    Forall (fun r => (id r < id row)%Z) (rows t) /\
                    issued t') /\
  (forall agent t', clearAuditLog (Some t) agent = Return (Some t') ->
     issued t' /\ sequence t' = sequence t) /\
  (forall expired t', pruneAuditLog (Some t) expired = Return (Some t') ->
     issued t' /\ sequence t' = sequence t).
Proof.
  unfold issued. intros Hissued. rewrite Forall_forall in Hissued.
  split; [|split].
  - intros entry db' Happend.
    unfold appendAuditLog, insert in Happend. simpl in Happend.
    destruct (fault t); simpl in Happend; [discriminate|].
    inversion Happend; subst db'; clear Happend.
    eexists. eexists. split; [reflexivity|]. simpl. split; [reflexivity|]. split.
    + apply Forall_forall. intros r Hr. specialize (Hissued r Hr). simpl. lia.
    + apply Forall_app. split.
      * apply Forall_forall. intros r Hr. specialize (Hissued r Hr). lia.
      * constructor; [simpl; lia | constructor].
  - intros agent t' Hclear. unfold clearAuditLog in Hclear. simpl in Hclear.
    destruct (fault t); simpl in Hclear; [discriminate|].
    inversion Hclear; subst t'; clear Hclear. simpl. split; [|reflexivity].
    apply Forall_forall. intros r Hr. apply list_elem_of_filter in Hr.
    apply Hissued. tauto.
  - intros expired t' Hprune. unfold pruneAuditLog in Hprune. simpl in Hprune.
    destruct (fault t); simpl in Hprune; [discriminate|].
    inversion Hprune; subst t'; clear Hprune. simpl. split; [|reflexivity].
    apply Forall_forall. intros r Hr. apply list_elem_of_filter in Hr.
    apply Hissued. tauto.
Qed.

Lemma ids_are_never_reused_witness :
  issued twoAgents /\
  exists row t',
    appendAuditLog
      (match clearAuditLog (Some twoAgents) None with
       | Return d => d
       | Throw _ => None
       end) leakyEntry = Return (Some t') /\
    rows t' = [row] /\ id row = 3%Z /\ issued t'.
Proof.
  assert (H : issued twoAgents).
  { unfold issued. simpl. repeat constructor; simpl; lia. }
  split; [exact H|].
  destruct (ids_are_never_reused twoAgents H) as (_ & Hclear & _).
  destruct (Hclear None _ eq_refl) as [Hissued _].
  destruct (ids_are_never_reused _ Hissued) as (Happend & _ & _).
  destruct (Happend leakyEntry _ eq_refl) as (row & t' & Hdb & Hrows & _ & Ht').
  injection Hdb as <-. cbn in Hrows. injection Hrows as <-.
  eexists. eexists. split; [reflexivity|]. split; [reflexivity|].
  split; [reflexivity | exact Ht'].
Defined.

End AuditFacts.

(** ** zod: parsing is idempotent *)

Module ZodFacts.
Import Zod.

Section Parsing.

Variable F : Formats.

Lemma parse_defined_array item xs :
  parse_defined F (ZArray item) (JArr xs)
  = (let! ys := parse_items F item xs in Return (JArr ys)).
Proof. reflexivity. Qed.

Lemma parse_defined_record value fields :
  parse_defined F (ZRecord value) (JObj fields)
  = (let! out := parse_entries F value fields in Return (JObj out)).
Proof. reflexivity. Qed.

Lemma parse_defined_object shape fields :
  parse_defined F (ZObject shape) (JObj fields)
  = (let! out := parse_props F fields shape in Return (JObj out)).
Proof. reflexivity. Qed.

Lemma parse_defined_union key options fields :
  parse_defined F (ZDiscriminatedUnion key options) (JObj fields)
  = pick F key fields options.
Proof. reflexivity. Qed.

Lemma field_idempotent s v r :
  idempotent F s ->
  parse_field (parse_defined F) s v = Return r ->
  parse_field (parse_defined F) s r = Return r.
Proof.
  intros Hs. unfold parse_field. destruct v as [j|].
  - destruct (parse_defined F s j) as [j'|e] eqn:E; simpl; [|discriminate].
    intros H. inversion H. subst r. now rewrite (Hs _ _ E).
  - destruct s; simpl; try discriminate.
    + intros H. now inversion H.
    + intros H. now inversion H.
    + destruct (parse_defined F s value) as [j'|e] eqn:E; simpl; [|discriminate].
      intros H. inversion H. subst r.
      assert (E' : parse_defined F (ZDefault s value) j' = Return j')
        by (apply (Hs value); exact E).
      simpl in E'. now rewrite E'.
Qed.

(** An object parse lists no key outside its shape. *)
Lemma props_keys fields k : forall sh out,
  parse_props F fields sh = Return out ->
  existsb (String.eqb k) (map fst sh) = false ->
  get_prop k out = None.
Proof.
  induction sh as [|[k0 s0] rest IH]; intros out; simpl.
  - intros H _. now inversion H.
  - destruct (parse_field (parse_defined F) s0 (get_prop k0 fields)) as [r|e]; simpl;
      [|discriminate].
    destruct (parse_props F fields rest) as [others|e]; simpl; [|discriminate].
    intros H Hk. inversion H. subst out.
    apply orb_false_iff in Hk. destruct Hk as [Hk0 Hrest].
    specialize (IH others eq_refl Hrest).
    destruct r as [y|]; simpl; [|exact IH].
    rewrite String.eqb_sym, Hk0. exact IH.
Qed.

(** Each property of the result is the parse of that property of the
    input. *)
Lemma props_lookup fields k sk : forall sh out,
  parse_props F fields sh = Return out ->
  distinct (map fst sh) = true ->
  lookup_shape k sh = Some sk ->
  parse_field (parse_defined F) sk (get_prop k fields) = Return (get_prop k out).
Proof.
  induction sh as [|[k0 s0] rest IH]; intros out; simpl; [discriminate|].
  destruct (parse_field (parse_defined F) s0 (get_prop k0 fields)) as [r|e] eqn:E0; simpl;
    [|discriminate].
  destruct (parse_props F fields rest) as [others|e] eqn:Erest; simpl; [|discriminate].
  intros H Hdistinct Hlookup. inversion H. subst out.
  apply andb_true_iff in Hdistinct. destruct Hdistinct as [Hfresh Hdistinct].
  apply negb_true_iff in Hfresh.
  destruct (String.eqb k0 k) eqn:Ek.
  - apply String.eqb_eq in Ek. subst k0. inversion Hlookup. subst s0.
    rewrite E0. f_equal.
    destruct r as [y|]; simpl.
    + now rewrite String.eqb_refl.
    + symmetry. exact (props_keys fields k rest others Erest Hfresh).
  - rewrite (IH others eq_refl Hdistinct Hlookup). f_equal.
    destruct r as [y|]; simpl; [now rewrite Ek | reflexivity].
Qed.

(** An object parse succeeds when each property parses. *)
Lemma props_succeed fields : forall sh,
  Forall (fun ks => exists r,
            parse_field (parse_defined F) (snd ks) (get_prop (fst ks) fields) = Return r) sh ->
  exists out, parse_props F fields sh = Return out.
Proof.
  induction sh as [|[k0 s0] rest IH]; intros Hall; simpl; [eauto|].
  inversion Hall as [|? ? [r Hr] Hrest]. subst. simpl in Hr.
  destruct (IH Hrest) as [others Hothers].
  rewrite Hr, Hothers. simpl. eauto.
Qed.

Lemma props_idempotent fields full : forall sh out,
  parse_props F fields sh = Return out ->
  distinct (map fst sh) = true ->
  Forall (fun ks => idempotent F (snd ks)) sh ->
  (forall k, existsb (String.eqb k) (map fst sh) = true -> get_prop k full = get_prop k out) ->
  parse_props F full sh = Return out.
Proof.
  induction sh as [|[k0 s0] rest IH]; intros out; simpl; [tauto|].
  destruct (parse_field (parse_defined F) s0 (get_prop k0 fields)) as [r|e] eqn:E0; simpl;
    [|discriminate].
  destruct (parse_props F fields rest) as [others|e] eqn:Erest; simpl; [|discriminate].
  intros H Hdistinct Hall Hfull. inversion H. subst out. clear H.
  apply andb_true_iff in Hdistinct. destruct Hdistinct as [Hfresh Hdistinct].
  apply negb_true_iff in Hfresh.
  inversion Hall as [|? ? Hs0 Hrest]. subst. simpl in Hs0.
  assert (Hk0 : get_prop k0 full = r).
  { rewrite (Hfull k0) by (now rewrite String.eqb_refl).
    destruct r as [y|]; simpl.
    - now rewrite String.eqb_refl.
    - exact (props_keys fields k0 rest others Erest Hfresh). }
  rewrite Hk0, (field_idempotent s0 _ r Hs0 E0). simpl.
  rewrite (IH others eq_refl Hdistinct Hrest); [reflexivity|].
  intros k Hk. rewrite (Hfull k) by (rewrite Hk; apply orb_true_r).
  destruct r as [y|]; simpl; [|reflexivity].
  destruct (String.eqb k0 k) eqn:Ek; [|reflexivity].
  apply String.eqb_eq in Ek. subst k0. congruence.
Qed.

Lemma items_idempotent item :
  idempotent F item ->
  forall xs ys, parse_items F item xs = Return ys -> parse_items F item ys = Return ys.
Proof.
  intros Hitem. induction xs as [|x rest IH]; intros ys; simpl.
  - intros H. now inversion H.
  - destruct (parse_defined F item x) as [y|e] eqn:E; simpl; [|discriminate].
    destruct (parse_items F item rest) as [ys'|e]; simpl; [|discriminate].
    intros H. inversion H. subst ys. simpl.
    now rewrite (Hitem _ _ E), (IH ys' eq_refl).
Qed.

Lemma entries_idempotent value :
  idempotent F value ->
  forall fs out, parse_entries F value fs = Return out -> parse_entries F value out = Return out.
Proof.
  intros Hvalue. induction fs as [|[k x] rest IH]; intros out; simpl.
  - intros H. now inversion H.
  - destruct (parse_defined F value x) as [y|e] eqn:E; simpl; [|discriminate].
    destruct (parse_entries F value rest) as [ys|e]; simpl; [|discriminate].
    intros H. inversion H. subst out. simpl.
    now rewrite (Hvalue _ _ E), (IH ys eq_refl).
Qed.

Lemma lookup_shape_None k : forall sh,
  lookup_shape k sh = None -> existsb (String.eqb k) (map fst sh) = false.
Proof.
  induction sh as [|[k0 s0] rest IH]; simpl; [reflexivity|].
  rewrite (String.eqb_sym k k0).
  destruct (String.eqb k0 k); [discriminate|]. exact IH.
Qed.

Lemma lookup_shape_In k sk : forall sh,
  lookup_shape k sh = Some sk -> In (k, sk) sh.
Proof.
  induction sh as [|[k0 s0] rest IH]; simpl; [discriminate|].
  destruct (String.eqb k0 k) eqn:E.
  - apply String.eqb_eq in E. subst k0. intros H. inversion H. now left.
  - intros H. right. now apply IH.
Qed.

(** The keys of a parsed object are distinct. *)
Lemma props_distinct fields : forall sh out,
  parse_props F fields sh = Return out ->
  distinct (map fst sh) = true ->
  distinct (map fst out) = true.
Proof.
  induction sh as [|[k0 s0] rest IH]; intros out; simpl.
  - intros H _. now inversion H.
  - destruct (parse_field (parse_defined F) s0 (get_prop k0 fields)) as [r|e]; simpl;
      [|discriminate].
    destruct (parse_props F fields rest) as [others|e] eqn:Erest; simpl; [|discriminate].
    intros H Hdistinct. inversion H. subst out.
    apply andb_true_iff in Hdistinct. destruct Hdistinct as [Hfresh Hdistinct].
    apply negb_true_iff in Hfresh.
    specialize (IH others eq_refl Hdistinct).
    destruct r as [y|]; simpl; [|exact IH].
    rewrite IH, andb_true_r. apply negb_true_iff.
    apply JsonFacts.keys_None_get_prop.
    exact (props_keys fields k0 rest others Erest Hfresh).
Qed.

(** Two parses by one shape agree on a property when the second input
    holds what the first parse returned for it. *)
Lemma props_agree fields fields' sh out out' k :
  parse_props F fields sh = Return out ->
  parse_props F fields' sh = Return out' ->
  distinct (map fst sh) = true ->
  Forall (fun ks => idempotent F (snd ks)) sh ->
  get_prop k fields' = get_prop k out ->
  get_prop k out' = get_prop k out.
Proof.
  intros Hout Hout' Hdistinct Hall Hk.
  destruct (lookup_shape k sh) as [sk|] eqn:E.
  - pose proof (props_lookup fields k sk sh out Hout Hdistinct E) as H1.
    pose proof (props_lookup fields' k sk sh out' Hout' Hdistinct E) as H2.
    rewrite Hk in H2.
    assert (Hsk : idempotent F sk).
    { rewrite Forall_forall in Hall.
      apply (Hall (k, sk)). apply list_elem_of_In. now apply lookup_shape_In. }
    rewrite (field_idempotent sk _ _ Hsk H1) in H2. now inversion H2.
  - apply lookup_shape_None in E.
    rewrite (props_keys fields k sh out Hout E).
    exact (props_keys fields' k sh out' Hout' E).
Qed.

(** What a required schema returns is defined; a string schema returns
    a string, a literal number a number. *)
Lemma field_defined s v r :
  required s = true ->
  parse_field (parse_defined F) s v = Return r ->
  exists j, r = Some j.
Proof.
  intros Hs. unfold parse_field. destruct v as [j|].
  - destruct (parse_defined F s j) as [j'|e]; simpl; [|discriminate].
    intros H. inversion H. eauto.
  - destruct s; simpl in *; try discriminate.
    destruct (parse_defined F s value) as [j'|e]; simpl; [|discriminate].
    intros H. inversion H. eauto.
Qed.

Lemma bind_string checks j r :
  (let! r0 := parse_defined F (ZString checks) j in Return (Some r0)) = Return r ->
  exists x, r = Some (JStr x).
Proof.
  destruct j; simpl; try discriminate.
  destruct (forallb (check_string F s) checks); simpl; [|discriminate].
  intros H. inversion H. eauto.
Qed.

Lemma field_string s v r :
  returns_string s = true ->
  parse_field (parse_defined F) s v = Return r ->
  exists x, r = Some (JStr x).
Proof.
  intros Hs. unfold parse_field.
  destruct s as [checks| | | | | | | | | |[checks| | | | | | | | | | |] d|];
    try discriminate.
  - destruct v as [j|]; [apply bind_string | discriminate].
  - destruct v as [j|]; apply bind_string.
Qed.

Lemma field_literal_number q v r :
  parse_field (parse_defined F) (ZLiteral (JNum q)) v = Return r ->
  exists q', r = Some (JNum q').
Proof.
  unfold parse_field. destruct v as [j|]; simpl; [|discriminate].
  destruct j; simpl; try discriminate.
  destruct (Qeq_bool q0 q); simpl; [|discriminate].
  intros H. inversion H. eauto.
Qed.

(** The option a discriminated union selects returns an object that
    carries the same tag. *)
Lemma pick_result key fields : forall options j',
  forallb (fun o => has_tag key o && well_formed o) options = true ->
  pick F key fields options = Return j' ->
  exists out, j' = JObj out /\ get_prop key out = get_prop key fields.
Proof.
  induction options as [|o rest IH]; intros j'; simpl; [discriminate|].
  intros Hwf. apply andb_true_iff in Hwf. destruct Hwf as [Ho Hrest].
  apply andb_true_iff in Ho. destruct Ho as [Htag Ho].
  destruct (selects key (get_prop key fields) o) eqn:Esel; [|now apply IH].
  destruct o as [| | | | | | | |shape| | |]; try discriminate.
  simpl in Htag, Esel, Ho.
  destruct (lookup_shape key shape) as [[| | |l| | | | | | | |]|] eqn:Elook; try discriminate.
  destruct (get_prop key fields) as [t|] eqn:Et; [|discriminate].
  rewrite parse_defined_object.
  destruct (parse_props F fields shape) as [out|e] eqn:Eprops; simpl; [|discriminate].
  intros H. inversion H. subst j'. exists out. split; [reflexivity|].
  apply andb_true_iff in Ho. destruct Ho as [Hdistinct _].
  pose proof (props_lookup fields key (ZLiteral l) shape out Eprops Hdistinct Elook) as Hl.
  rewrite Et in Hl. simpl in Hl. rewrite Esel in Hl. simpl in Hl.
  now inversion Hl.
Qed.

Lemma pick_again key fields full : forall options,
  Forall (idempotent F) options ->
  get_prop key full = get_prop key fields ->
  pick F key fields options = Return (JObj full) ->
  pick F key full options = Return (JObj full).
Proof.
  intros options Hall Htag. induction Hall as [|o rest Ho Hrest IH]; simpl; [discriminate|].
  rewrite Htag.
  destruct (selects key (get_prop key fields) o); [|exact IH].
  apply Ho.
Qed.

(** Parsing is idempotent: what a schema returns, it accepts and
    returns unchanged. *)
Theorem parse_idempotent (s : Schema) : well_formed s = true -> idempotent F s.
Proof.
  induction s using Schema_induction; intros Hwf j j' Hparse.
  - destruct j; simpl in *; try discriminate.
    destruct (forallb (check_string F s) checks) eqn:E; inversion Hparse.
    simpl. now rewrite E.
  - destruct j; simpl in *; try discriminate.
    destruct (forallb (check_number q) checks) eqn:E; inversion Hparse.
    simpl. now rewrite E.
  - destruct j; simpl in *; try discriminate. now inversion Hparse.
  - simpl in *. destruct (strict_equal j l) eqn:E; inversion Hparse.
    subst j'. now rewrite E.
  - destruct j; simpl in *; try discriminate.
    destruct (existsb (String.eqb s) values) eqn:E; inversion Hparse.
    simpl. now rewrite E.
  - simpl in *. now inversion Hparse.
  - destruct j as [| | | |xs|]; try discriminate.
    rewrite parse_defined_array in Hparse.
    destruct (parse_items F s xs) as [ys|e] eqn:E; simpl in Hparse; [|discriminate].
    inversion Hparse. rewrite parse_defined_array.
    now rewrite (items_idempotent s (IHs Hwf) xs ys E).
  - destruct j as [| | | | |fields]; try discriminate.
    rewrite parse_defined_record in Hparse.
    destruct (parse_entries F s fields) as [out|e] eqn:E; simpl in Hparse; [|discriminate].
    inversion Hparse. rewrite parse_defined_record.
    now rewrite (entries_idempotent s (IHs Hwf) fields out E).
  - destruct j as [| | | | |fields]; try discriminate.
    rewrite parse_defined_object in Hparse.
    destruct (parse_props F fields shape) as [out|e] eqn:E; simpl in Hparse; [|discriminate].
    inversion Hparse. rewrite parse_defined_object.
    simpl in Hwf. apply andb_true_iff in Hwf. destruct Hwf as [Hdistinct Hall].
    rewrite (props_idempotent fields out shape out E Hdistinct); [reflexivity| |reflexivity].
    rewrite forallb_forall in Hall. apply Forall_forall. intros ks Hks.
    rewrite Forall_forall in H. apply (H ks Hks). apply Hall.
    now apply list_elem_of_In.
  - simpl in *. exact (IHs Hwf j j' Hparse).
  - simpl in *. exact (IHs Hwf j j' Hparse).
  - destruct j as [| | | | |fields]; try discriminate.
    rewrite parse_defined_union in Hparse. simpl in Hwf.
    destruct (pick_result key fields options j' Hwf Hparse) as (out & -> & Htag).
    rewrite parse_defined_union. apply (pick_again key fields out); [|exact Htag|exact Hparse].
    rewrite forallb_forall in Hwf. apply Forall_forall. intros o Ho.
    rewrite Forall_forall in H. apply (H o Ho).
    apply list_elem_of_In in Ho. specialize (Hwf o Ho).
    now apply andb_true_iff in Hwf.
Qed.

Lemma bind_throws {A B} (m : Except A) (k : A -> Except B) e :
  bindE m k = Throw e -> m = Throw e \/ exists a, m = Return a /\ k a = Throw e.
Proof. destruct m as [a|e']; simpl; [eauto | intros H; left; now inversion H]. Qed.

Lemma field_throws s v e :
  throws_ZodError F s ->
  parse_field (parse_defined F) s v = Throw e -> e = ZodError.
Proof.
  intros Hs. destruct v as [j|]; simpl.
  - intros H. apply bind_throws in H. destruct H as [H | (a & _ & H)]; [|discriminate].
    exact (Hs j e H).
  - destruct s as [checks|checks| |l|values| |item|value|shape|inner|inner d|key options];
      simpl; try (intros H; now inversion H).
    intros H. apply bind_throws in H. destruct H as [H | (a & _ & H)]; [|discriminate].
    exact (Hs d e H).
Qed.

(** A parse that fails throws a [ZodError], whatever the schema. *)
Lemma parse_throws_ZodError (s : Schema) : throws_ZodError F s.
Proof.
  induction s using Schema_induction; intros j e Hparse.
  - destruct j; simpl in Hparse; try (now inversion Hparse).
    destruct (forallb _ _); now inversion Hparse.
  - destruct j; simpl in Hparse; try (now inversion Hparse).
    destruct (forallb _ _); now inversion Hparse.
  - destruct j; simpl in Hparse; now inversion Hparse.
  - simpl in Hparse. destruct (strict_equal j l); now inversion Hparse.
  - destruct j; simpl in Hparse; try (now inversion Hparse).
    destruct (existsb _ _); now inversion Hparse.
  - simpl in Hparse. discriminate.
  - destruct j as [| | | |xs|]; try (simpl in Hparse; now inversion Hparse).
    rewrite parse_defined_array in Hparse.
    apply bind_throws in Hparse. destruct Hparse as [H | (a & _ & H)]; [|discriminate].
    revert e H. induction xs as [|x rest IHxs]; intros e H; simpl in H; [discriminate|].
    apply bind_throws in H. destruct H as [H | (y & _ & H)]; [exact (IHs x e H)|].
    apply bind_throws in H. destruct H as [H | (ys & _ & H)]; [|discriminate].
    exact (IHxs e H).
  - destruct j as [| | | | |fields]; try (simpl in Hparse; now inversion Hparse).
    rewrite parse_defined_record in Hparse.
    apply bind_throws in Hparse. destruct Hparse as [H | (a & _ & H)]; [|discriminate].
    revert e H. induction fields as [|[k x] rest IHfs]; intros e H; simpl in H; [discriminate|].
    apply bind_throws in H. destruct H as [H | (y & _ & H)]; [exact (IHs x e H)|].
    apply bind_throws in H. destruct H as [H | (ys & _ & H)]; [|discriminate].
    exact (IHfs e H).
  - destruct j as [| | | | |fields]; try (simpl in Hparse; now inversion Hparse).
    rewrite parse_defined_object in Hparse.
    apply bind_throws in Hparse. destruct Hparse as [Hp | (a & _ & Hp)]; [|discriminate].
    revert e Hp. induction H as [|[k sk] rest Hsk Hrest IHrest]; intros e Hp;
      simpl in Hp; [discriminate|].
    apply bind_throws in Hp. destruct Hp as [Hp | (r & _ & Hp)].
    + exact (field_throws sk _ e Hsk Hp).
    + apply bind_throws in Hp. destruct Hp as [Hp | (others & _ & Hp)]; [|discriminate].
      exact (IHrest e Hp).
  - simpl in Hparse. exact (IHs j e Hparse).
  - simpl in Hparse. exact (IHs j e Hparse).
  - destruct j as [| | | | |fields]; try (simpl in Hparse; now inversion Hparse).
    rewrite parse_defined_union in Hparse.
    revert Hparse. induction H as [|o rest Ho Hrest IHrest]; simpl; intros Hparse.
    + now inversion Hparse.
    + destruct (selects key (get_prop key fields) o); [exact (Ho _ e Hparse) | exact (IHrest Hparse)].
Qed.

End Parsing.

End ZodFacts.

(** ** The permission schemas *)

Module SchemaFacts.
Import Zod Schemas ZodFacts.

Section Parsing.
Variable F : Formats.

Lemma enabled_only_explicitly shape sub out :
  lookup_shape "enabled" shape = Some (ZDefault ZBoolean (JBool false)) ->
  distinct (map fst shape) = true ->
  parse_props F sub shape = Return out ->
  get_prop "enabled" out = Some (JBool true) ->
  get_prop "enabled" sub = Some (JBool true).
Proof.
  intros Hshape Hdistinct Hout Henabled.
  pose proof (props_lookup F sub "enabled" _ shape out Hout Hdistinct Hshape) as H.
  rewrite Henabled in H.
  destruct (get_prop "enabled" sub) as [b|]; [|discriminate].
  destruct b; try discriminate. cbn in H. now inversion H.
Qed.

(** Disabled unless enabled in so many words. When
    [ToolPermissionsSchema] accepts an object, a tool is enabled in the
    result only if the input holds that tool with [enabled: true]; a
    tool, or an [enabled] flag, that the input leaves out comes back
    disabled. *)
Theorem tool_is_enabled_only_explicitly tool fields out sub' :
  In tool ["filesystem"; "http"; "shell"; "codeExec"] ->
  parse_defined F ToolPermissionsSchema (JObj fields) = Return (JObj out) ->
  get_prop tool out = Some (JObj sub') ->
  get_prop "enabled" sub' = Some (JBool true) ->
  exists sub,
    get_prop tool fields = Some (JObj sub) /\
    get_prop "enabled" sub = Some (JBool true).
Proof.
  intros Htool Hparse Hsub Henabled.
  unfold ToolPermissionsSchema in Hparse. rewrite parse_defined_object in Hparse.
  apply bindE_Return in Hparse as (o & Ho & Hparse). inversion Hparse; subst o; clear Hparse.
  assert (Hcase : forall schema shape,
            schema = ZObject shape ->
            lookup_shape "enabled" shape = Some (ZDefault ZBoolean (JBool false)) ->
            distinct (map fst shape) = true ->
            (forall d, parse_defined F schema (JObj []) = Return (JObj d) ->
                       get_prop "enabled" d = Some (JBool false)) ->
            parse_field (parse_defined F) (ZDefault schema (JObj [])) (get_prop tool fields)
            = Return (get_prop tool out) ->
            exists sub, get_prop tool fields = Some (JObj sub) /\
                        get_prop "enabled" sub = Some (JBool true)).
  { intros schema shape -> Hshape Hdistinct Hdefault Hfield. rewrite Hsub in Hfield.
    destruct (get_prop tool fields) as [j|].
    - cbn [parse_field] in Hfield.
      apply bindE_Return in Hfield as (r & Hr & Hfield). inversion Hfield; subst r.
      change (parse_defined F (ZObject shape) j = Return (JObj sub')) in Hr.
      destruct j as [| | | | |sub]; try discriminate.
      exists sub. split; [reflexivity|].
      rewrite parse_defined_object in Hr.
      apply bindE_Return in Hr as (o & Ho' & Hr). inversion Hr; subst o.
      exact (enabled_only_explicitly shape sub sub' Hshape Hdistinct Ho' Henabled).
    - cbn [parse_field parse_missing] in Hfield.
      apply bindE_Return in Hfield as (r & Hr & Hfield). inversion Hfield; subst r.
      rewrite (Hdefault sub' Hr) in Henabled. discriminate. }
  assert (Hlookup : forall schema,
            lookup_shape tool
              [("filesystem", ZDefault FileSystemPermissionSchema (JObj []));
               ("http", ZDefault HttpPermissionSchema (JObj []));
               ("shell", ZDefault ShellPermissionSchema (JObj []));
               ("codeExec", ZDefault CodeExecPermissionSchema (JObj []))]
            = Some (ZDefault schema (JObj [])) ->
            parse_field (parse_defined F) (ZDefault schema (JObj [])) (get_prop tool fields)
            = Return (get_prop tool out)).
  { intros schema Hk. exact (props_lookup F fields tool _ _ out Ho eq_refl Hk). }
  simpl in Htool.
  destruct Htool as [<- | [<- | [<- | [<- | []]]]].
  - apply (Hcase FileSystemPermissionSchema _ eq_refl eq_refl eq_refl);
      [|now apply Hlookup].
    intros d Hd. vm_compute in Hd. now inversion Hd.
  - apply (Hcase HttpPermissionSchema _ eq_refl eq_refl eq_refl);
      [|now apply Hlookup].
    intros d Hd. vm_compute in Hd. now inversion Hd.
  - apply (Hcase ShellPermissionSchema _ eq_refl eq_refl eq_refl);
      [|now apply Hlookup].
    intros d Hd. vm_compute in Hd. now inversion Hd.
  - apply (Hcase CodeExecPermissionSchema _ eq_refl eq_refl eq_refl);
      [|now apply Hlookup].
    intros d Hd. vm_compute in Hd. now inversion Hd.
Qed.

End Parsing.

Lemma tool_is_enabled_only_explicitly_witness :
  exists sub,
    get_prop "http" [("http", JObj [("enabled", JBool true)])] = Some (JObj sub) /\
    get_prop "enabled" sub = Some (JBool true).
Proof.
  destruct (parse_defined Agents.toyFormats ToolPermissionsSchema
              (JObj [("http", JObj [("enabled", JBool true)])])) as [[| | | | |out]|e] eqn:E;
    try (vm_compute in E; discriminate).
  destruct (get_prop "http" out) as [[| | | | |sub']|] eqn:Esub;
    try (vm_compute in E; inversion E; subst out; vm_compute in Esub; discriminate).
  apply (tool_is_enabled_only_explicitly Agents.toyFormats "http" _ out sub').
  - right. now left.
  - exact E.
  - exact Esub.
  - vm_compute in E. inversion E; subst out. vm_compute in Esub. now inversion Esub.
Defined.

End SchemaFacts.

(** ** The agents repository *)

Module AgentsFacts.
Import Zod Schemas Agents ZodFacts.

Lemma agent_schema_well_formed : well_formed AgentDefinitionSchema = true.
Proof. vm_compute. reflexivity. Qed.

Section Repo.

Variable F : Formats.
Variable Text : Type.
Variable JSON_stringify : json -> Text.
Variable JSON_stringify_indent : json -> Text.
Variable JSON_parse : Text -> Except json.

(** The three properties [updateAgent] writes last. *)
Lemma merged_props id_ now (fields : list (string * json)) :
  let merged :=
    set_prop "updatedAt" (JStr now)
      (set_prop "version" (num 1) (set_prop "id" (JStr id_) fields)) in
  get_prop "id" merged = Some (JStr id_) /\
  get_prop "version" merged = Some (num 1) /\
  get_prop "updatedAt" merged = Some (JStr now).
Proof.
  simpl. repeat split.
  - rewrite !JsonFacts.get_set_prop_ne by discriminate.
    apply JsonFacts.get_set_prop_eq.
  - rewrite JsonFacts.get_set_prop_ne by discriminate.
    apply JsonFacts.get_set_prop_eq.
  - apply JsonFacts.get_set_prop_eq.
Qed.

(** C10. When [updateAgent(id, updates)] returns, the agent it returns
    has the [id] it was called with, [version] 1 and the time of the
    update as [updatedAt], whatever [updates] holds under these keys;
    and the stored row keeps its [id] and its [created_at], and has
    [version] 1 and the time of the update as [updated_at]. No other
    row changes. *)
Theorem updateAgent_keeps_id_and_version
    (db : option (gmap string (AgentRow Text))) (id_ : string)
    (updates : list (string * json)) (now : string)
    (merged : json) (db' : option (gmap string (AgentRow Text))) :
  updateAgent F JSON_stringify JSON_parse db id_ updates now = Return (merged, db') ->
  prop "id" merged = Some (JStr id_) /\
  prop "version" merged = Some (num 1) /\
  prop "updatedAt" merged = Some (JStr now) /\
  exists t old t' stored,
    db = Some t /\ t !! id_ = Some old /\
    db' = Some t' /\ t' !! id_ = Some stored /\
    id stored = id old /\
    version stored = 1%Q /\
    updated_at stored = now /\
    created_at stored = created_at old /\
    (forall other, other <> id_ -> t' !! other = t !! other).
Proof.
  unfold updateAgent. intros H.
  apply bindE_Return in H as (t & Hdb & H).
  destruct db as [t0|]; [|discriminate]. inversion Hdb. subst t0. clear Hdb.
  apply bindE_Return in H as (existing & Hget & H).
  destruct existing as [existing|]; [|discriminate].
  unfold getAgent in Hget. cbn [Db.getDb bindE] in Hget.
  destruct (t !! id_) as [old|] eqn:Hold; [|discriminate].
  set (fields := spread (own_props existing) updates) in H.
  destruct (merged_props id_ now fields) as (Hid & Hversion & Hupdated).
  apply bindE_Return in H as (valid & _ & H).
  apply bindE_Return in H as (row & Hrow & H).
  apply bindE_Return in H as (written & Hupdate & H).
  inversion H. subst merged db'. clear H.
  destruct (agentToRow JSON_stringify _) as [row'|] eqn:Hto; [|discriminate].
  inversion Hrow. subst row'. clear Hrow.
  unfold agentToRow, prop in Hto. rewrite Hid, Hversion, Hupdated in Hto.
  unfold num in Hto. cbn [as_string as_number mbind option_bind] in Hto.
  repeat match type of Hto with
         | context [mbind _ ?m] =>
             destruct m; cbn [mbind option_bind] in Hto; [|discriminate]
         end.
  inversion Hto. subst row. clear Hto.
  unfold UPDATE in Hupdate. cbn [Db.getDb bindE id] in Hupdate.
  rewrite Hold in Hupdate. inversion Hupdate. subst written. clear Hupdate.
  unfold prop. split; [exact Hid|]. split; [exact Hversion|]. split; [exact Hupdated|].
  exists t, old. eexists. eexists. split; [reflexivity|]. split; [exact Hold|].
  split; [reflexivity|]. split; [apply lookup_insert_eq|].
  cbn. do 4 (split; [reflexivity|]).
  intros other Hother. now rewrite lookup_insert_ne.
Qed.

Lemma shape_distinct : distinct (map fst AgentDefinitionShape) = true.
Proof. vm_compute. reflexivity. Qed.

Lemma shape_idempotent :
  Forall (fun ks => idempotent F (snd ks)) AgentDefinitionShape.
Proof.
  pose proof agent_schema_well_formed as Hwf.
  unfold AgentDefinitionSchema in Hwf. cbn [well_formed] in Hwf.
  apply andb_true_iff in Hwf. destruct Hwf as [_ Hall].
  rewrite forallb_forall in Hall.
  apply Forall_forall. intros ks Hks.
  apply parse_idempotent. apply Hall. now apply list_elem_of_In.
Qed.

Lemma reidentified_kept uuid createdAt updatedAt o k :
  k <> "id" -> k <> "createdAt" -> k <> "updatedAt" ->
  get_prop k (reidentified uuid createdAt updatedAt o) = get_prop k o.
Proof.
  intros H1 H2 H3. unfold reidentified.
  rewrite !JsonFacts.get_set_prop_ne by congruence. reflexivity.
Qed.

Lemma reidentified_identity uuid createdAt updatedAt o :
  get_prop "id" (reidentified uuid createdAt updatedAt o) = Some (JStr uuid) /\
  get_prop "createdAt" (reidentified uuid createdAt updatedAt o) = Some (JStr createdAt) /\
  get_prop "updatedAt" (reidentified uuid createdAt updatedAt o) = Some (JStr updatedAt).
Proof.
  unfold reidentified. repeat split.
  - rewrite !JsonFacts.get_set_prop_ne by discriminate. apply JsonFacts.get_set_prop_eq.
  - rewrite JsonFacts.get_set_prop_ne by discriminate. apply JsonFacts.get_set_prop_eq.
  - apply JsonFacts.get_set_prop_eq.
Qed.

(** A property that the import leaves alone parses to itself. *)
Lemma kept_field raw o uuid createdAt updatedAt k sk :
  parse_props F raw AgentDefinitionShape = Return o ->
  lookup_shape k AgentDefinitionShape = Some sk ->
  k <> "id" -> k <> "createdAt" -> k <> "updatedAt" ->
  parse_field (parse_defined F) sk (get_prop k (reidentified uuid createdAt updatedAt o))
  = Return (get_prop k o).
Proof.
  intros Ho Hk H1 H2 H3. rewrite reidentified_kept by assumption.
  apply (field_idempotent F sk (get_prop k raw)).
  - pose proof shape_idempotent as Hall. rewrite Forall_forall in Hall.
    apply (Hall (k, sk)). apply list_elem_of_In. now apply lookup_shape_In.
  - exact (props_lookup F raw k sk _ o Ho shape_distinct Hk).
Qed.

(** The schema accepts the re-identified object, and returns it with
    the new identity and every other property as it was. *)
Lemma reidentified_parses raw o uuid createdAt updatedAt :
  parse_props F raw AgentDefinitionShape = Return o ->
  is_uuid F uuid = true ->
  is_datetime F createdAt = true ->
  is_datetime F updatedAt = true ->
  exists out,
    parse_props F (reidentified uuid createdAt updatedAt o) AgentDefinitionShape = Return out /\
    get_prop "id" out = Some (JStr uuid) /\
    get_prop "createdAt" out = Some (JStr createdAt) /\
    get_prop "updatedAt" out = Some (JStr updatedAt) /\
    (forall k, k <> "id" -> k <> "createdAt" -> k <> "updatedAt" ->
       get_prop k out = get_prop k o).
Proof.
  intros Ho Huuid Hcreated Hupdated.
  destruct (reidentified_identity uuid createdAt updatedAt o) as (Hid & Hc & Hu).
  destruct (props_succeed F (reidentified uuid createdAt updatedAt o) AgentDefinitionShape)
    as [out Hout].
  { unfold AgentDefinitionShape.
    repeat apply List.Forall_cons; try apply List.Forall_nil; cbn [fst snd];
      first
        [ rewrite Hid; cbn; rewrite Huuid; eexists; reflexivity
        | rewrite Hc; cbn; rewrite Hcreated; eexists; reflexivity
        | rewrite Hu; cbn; rewrite Hupdated; eexists; reflexivity
        | eexists; apply (kept_field raw o); [exact Ho | reflexivity | discriminate ..] ]. }
  exists out. split; [exact Hout|].
  assert (Hfield : forall k sk v,
            lookup_shape k AgentDefinitionShape = Some sk ->
            get_prop k (reidentified uuid createdAt updatedAt o) = Some v ->
            parse_defined F sk v = Return v ->
            get_prop k out = Some v).
  { intros k sk v Hk Hv Hparse.
    pose proof (props_lookup F _ k sk _ out Hout shape_distinct Hk) as H.
    rewrite Hv in H. cbn [parse_field] in H. rewrite Hparse in H.
    cbn [bindE] in H. now inversion H. }
  split; [|split; [|split]].
  - apply (Hfield "id" (ZString [Uuid])); [reflexivity | exact Hid |].
    cbn. now rewrite Huuid.
  - apply (Hfield "createdAt" (ZString [Datetime])); [reflexivity | exact Hc |].
    cbn. now rewrite Hcreated.
  - apply (Hfield "updatedAt" (ZString [Datetime])); [reflexivity | exact Hu |].
    cbn. now rewrite Hupdated.
  - intros k H1 H2 H3.
    apply (props_agree F raw (reidentified uuid createdAt updatedAt o)
             AgentDefinitionShape o out k Ho Hout shape_distinct shape_idempotent).
    now apply reidentified_kept.
Qed.

(** A parsed agent binds to a row, under its own [id]. *)
Lemma parsed_agent_binds fields out :
  parse_props F fields AgentDefinitionShape = Return out ->
  exists row,
    agentToRow JSON_stringify (JObj out) = Some row /\
    get_prop "id" out = Some (JStr (id row)).
Proof.
  intros Hout.
  assert (Hstr : forall k sk,
            lookup_shape k AgentDefinitionShape = Some sk ->
            returns_string sk = true ->
            exists x, get_prop k out = Some (JStr x)).
  { intros k sk Hk Hsk.
    exact (field_string F sk _ _ Hsk (props_lookup F fields k sk _ out Hout shape_distinct Hk)). }
  assert (Hdef : forall k sk,
            lookup_shape k AgentDefinitionShape = Some sk ->
            required sk = true ->
            exists j, get_prop k out = Some j).
  { intros k sk Hk Hsk.
    exact (field_defined F sk _ _ Hsk (props_lookup F fields k sk _ out Hout shape_distinct Hk)). }
  destruct (Hstr "id" _ eq_refl eq_refl) as [id_ Hid].
  destruct (Hstr "name" _ eq_refl eq_refl) as [name_ Hname].
  destruct (Hstr "description" _ eq_refl eq_refl) as [description_ Hdescription].
  destruct (Hstr "systemPrompt" _ eq_refl eq_refl) as [systemPrompt_ HsystemPrompt].
  destruct (Hstr "createdAt" _ eq_refl eq_refl) as [createdAt_ HcreatedAt].
  destruct (Hstr "updatedAt" _ eq_refl eq_refl) as [updatedAt_ HupdatedAt].
  destruct (Hdef "provider" _ eq_refl eq_refl) as [provider_ Hprovider].
  destruct (Hdef "graph" _ eq_refl eq_refl) as [graph_ Hgraph].
  destruct (Hdef "codeBlocks" _ eq_refl eq_refl) as [codeBlocks_ HcodeBlocks].
  destruct (Hdef "permissions" _ eq_refl eq_refl) as [permissions_ Hpermissions].
  destruct (Hdef "tags" _ eq_refl eq_refl) as [tags_ Htags].
  destruct (field_literal_number F _ _ _
              (props_lookup F fields "version" _ _ out Hout shape_distinct eq_refl))
    as [version_ Hversion].
  unfold agentToRow, prop.
  rewrite Hid, Hname, Hdescription, HsystemPrompt, HcreatedAt, HupdatedAt,
    Hprovider, Hgraph, HcodeBlocks, Hpermissions, Htags, Hversion.
  cbn [as_string as_number mbind option_bind].
  eexists. split; reflexivity.
Qed.

Hypothesis parse_stringify_indent :
  forall v, JSON_parse (JSON_stringify_indent v) = Return v.

(** The round trip of an agent that [getAgent] returns. What
    [exportAgent] serialises is accepted by [importAgent] (given a fresh
    uuid and two timestamps), and the agent it returns has the
    permission model and the graph of the original: every property but
    [id], [createdAt] and [updatedAt] is the original's, and these three
    hold the new identity. *)
Lemma export_import_roundtrip
    (db : option (gmap string (AgentRow Text))) (id_ : string) (agent : json)
    (uuid createdAt updatedAt : string) :
  getAgent F JSON_parse db id_ = Return (Some agent) ->
  is_uuid F uuid = true ->
  is_datetime F createdAt = true ->
  is_datetime F updatedAt = true ->
  (forall t, db = Some t -> t !! uuid = None) ->
  exists text imported db',
    exportAgent F JSON_stringify_indent JSON_parse db id_ = Return text /\
    importAgent F JSON_stringify JSON_parse db text uuid createdAt updatedAt
    = Return (imported, db') /\
    prop "permissions" imported = prop "permissions" agent /\
    prop "graph" imported = prop "graph" agent /\
    prop "id" imported = Some (JStr uuid) /\
    prop "createdAt" imported = Some (JStr createdAt) /\
    prop "updatedAt" imported = Some (JStr updatedAt) /\
    (forall k, k <> "id" -> k <> "createdAt" -> k <> "updatedAt" ->
       prop k imported = prop k agent).
Proof.
  intros Hget Huuid Hcreated Hupdated Hfresh.
  (* the stored agent is what the schema returned for its row *)
  assert (Hparsed : exists t raw o,
            db = Some t /\ agent = JObj o /\
            parse_props F raw AgentDefinitionShape = Return o).
  { unfold getAgent in Hget.
    apply bindE_Return in Hget as (t & Hdb & Hget).
    destruct db as [t0|]; [|discriminate]. inversion Hdb. subst t0.
    destruct (t !! id_) as [row|]; [|discriminate].
    apply bindE_Return in Hget as (agent' & Hrow & Hget).
    inversion Hget. subst agent'. clear Hget.
    unfold rowToAgent in Hrow.
    do 5 (apply bindE_Return in Hrow as (? & _ & Hrow)).
    unfold AgentDefinitionSchema in Hrow. rewrite parse_defined_object in Hrow.
    apply bindE_Return in Hrow as (o & Ho & Hrow). inversion Hrow.
    eauto 10. }
  destruct Hparsed as (t & raw & o & -> & -> & Ho).
  exists (JSON_stringify_indent (JObj o)).
  destruct (reidentified_parses raw o uuid createdAt updatedAt Ho Huuid Hcreated Hupdated)
    as (out & Hout & Hid & Hc & Hu & Hkept).
  destruct (parsed_agent_binds _ out Hout) as (row & Hrow & Hrowid).
  assert (Hrowid' : id row = uuid) by congruence.
  exists (JObj out), (Some (<[uuid := row]> t)).
  split; [|split].
  - unfold exportAgent. now rewrite Hget.
  - unfold importAgent. rewrite parse_stringify_indent. cbn [bindE own_props].
    rewrite (JsonFacts.spread_distinct o []);
      [|exact (props_distinct F raw _ o Ho shape_distinct)|now left].
    cbn [app]. fold (reidentified uuid createdAt updatedAt o).
    unfold AgentDefinitionSchema. rewrite parse_defined_object, Hout. cbn [bindE].
    rewrite Hrow. cbn [bound bindE]. unfold INSERT. cbn [Db.getDb bindE].
    rewrite Hrowid', (Hfresh t eq_refl). reflexivity.
  - unfold prop. repeat split; try assumption; apply Hkept; discriminate.
Qed.

End Repo.

Lemma updateAgent_keeps_id_and_version_witness :
  match updateAgent toyFormats asText Return toyDb researcherId hostileUpdates
          "2026-02-02T00:00:00.000Z" with
  | Return (merged, _) =>
      prop "id" merged = Some (JStr researcherId) /\
      prop "version" merged = Some (num 1) /\
      prop "updatedAt" merged = Some (JStr "2026-02-02T00:00:00.000Z")
  | Throw _ => False
  end.
Proof.
  destruct (updateAgent toyFormats asText Return toyDb researcherId hostileUpdates
              "2026-02-02T00:00:00.000Z") as [[merged db']|e] eqn:E.
  - destruct (updateAgent_keeps_id_and_version toyFormats json asText Return toyDb
                researcherId hostileUpdates "2026-02-02T00:00:00.000Z" merged db' E)
      as (Hid & Hversion & Hupdated & _).
    split; [exact Hid|]. split; [exact Hversion | exact Hupdated].
  - returned E.
Defined.

(** The row that the update of the example leaves in the table. *)
Example hostile_update_stored :
  match updateAgent toyFormats asText Return toyDb researcherId hostileUpdates
          "2026-02-02T00:00:00.000Z" with
  | Return (_, Some t) =>
      (fun r => (id r, version r, name r, created_at r, updated_at r)) <$> t !! researcherId
  | _ => None
  end
  = Some (researcherId, 1%Q, "renamed", "2026-01-01T00:00:00.000Z",
          "2026-02-02T00:00:00.000Z").
Proof. vm_compute. reflexivity. Qed.

(** An update the schema refuses throws and stores nothing. *)
Example invalid_update_throws :
  updateAgent toyFormats asText Return toyDb researcherId [("name", JStr "")]
    "2026-02-02T00:00:00.000Z"
  = Throw ZodError.
Proof. vm_compute. reflexivity. Qed.

Lemma export_import_roundtrip_witness :
  match getAgent toyFormats Return toyDb researcherId with
  | Return (Some agent) =>
      exists text imported db',
        exportAgent toyFormats asText Return toyDb researcherId = Return text /\
        importAgent toyFormats asText Return toyDb text
          "22222222-2222-4222-8222-222222222222"
          "2026-03-01T00:00:00.000Z" "2026-03-01T00:00:00.001Z"
        = Return (imported, db') /\
        prop "permissions" imported = prop "permissions" agent /\
        prop "graph" imported = prop "graph" agent /\
        prop "id" imported = Some (JStr "22222222-2222-4222-8222-222222222222")
  | _ => False
  end.
Proof.
  destruct (getAgent toyFormats Return toyDb researcherId) as [[agent|]|e] eqn:E.
  - destruct (export_import_roundtrip toyFormats json asText asText Return
                (fun v => eq_refl) toyDb researcherId agent
                "22222222-2222-4222-8222-222222222222"
                "2026-03-01T00:00:00.000Z" "2026-03-01T00:00:00.001Z" E)
      as (text & imported & db' & Hexport & Himport & Hperm & Hgraph & Hid & _).
    + reflexivity.
    + reflexivity.
    + reflexivity.
    + intros t Ht. inversion Ht. vm_compute. reflexivity.
    + exists text, imported, db'. repeat split; assumption.
  - returned E.
  - returned E.
Defined.

(** What the import of the example returns: the permission model of the
    stored agent, with its HTTP grant. *)
Example imported_permissions :
  match exportAgent toyFormats asText Return toyDb researcherId with
  | Return text =>
      match importAgent toyFormats asText Return toyDb text
              "22222222-2222-4222-8222-222222222222"
              "2026-03-01T00:00:00.000Z" "2026-03-01T00:00:00.001Z" with
      | Return (imported, _) =>
          match prop "permissions" imported with
          | Some permissions => prop "http" permissions
          | None => None
          end
      | Throw _ => None
      end
  | Throw _ => None
  end
  = Some (JObj [("enabled", JBool true);
                ("allowedDomains", JArr [JStr "api.example.com"]);
                ("blockedDomains", JArr []);
                ("allowedMethods", JArr [JStr "GET"]);
                ("rateLimitPerMinute", num 30);
                ("timeoutMs", num 10000);
                ("followRedirects", JBool true);
                ("maxResponseBytes", num (5 * 1024 * 1024))]).
Proof. vm_compute. reflexivity. Qed.

(** An agent that [createAgent] stores does not read back: its
    provider has the empty [apiKeyRef] of [DEFAULT_PROVIDER], which the
    schema refuses. *)
Example created_agent_does_not_parse :
  match createAgent asText (Some ∅) "fresh" "" researcherId "2026-01-01T00:00:00.000Z" with
  | Return (_, db) => getAgent toyFormats Return db researcherId
  | Throw e => Throw e
  end
  = Throw ZodError.
Proof. vm_compute. reflexivity. Qed.

(** The defaults of the permission schema are [DEFAULT_TOOL_PERMISSIONS]:
    every tool disabled. *)
Example permission_defaults F :
  parse_defined F ToolPermissionsSchema (JObj []) = Return DEFAULT_TOOL_PERMISSIONS /\
  permissions_json Permissions.DEFAULT_TOOL_PERMISSIONS = DEFAULT_TOOL_PERMISSIONS.
Proof. vm_compute. split; reflexivity. Qed.

Section Stored.

Variable F : Formats.
Variable Text : Type.
Variable JSON_stringify : json -> Text.
Variable JSON_stringify_indent : json -> Text.
Variable JSON_parse : Text -> Except json.

Hypothesis parse_stringify : forall v, JSON_parse (JSON_stringify v) = Return v.

(** What [createAgent] stores: a row under the new id, which was not
    in the table; the schema refuses the row when it is read. *)
Lemma created_row_does_not_parse db name_ description_ uuid now agent db' :
  createAgent JSON_stringify db name_ description_ uuid now = Return (agent, db') ->
  getAgent F JSON_parse db' uuid = Throw ZodError /\
  exists t row,
    db = Some t /\ t !! uuid = None /\ db' = Some (<[uuid := row]> t) /\
    agentToRow JSON_stringify agent = Some row.
Proof.
  intros Hcreate.
  unfold createAgent in Hcreate. destruct db as [t|]; [|discriminate].
  cbn [Db.getDb bindE] in Hcreate.
  apply bindE_Return in Hcreate as (row & Hrow & Hcreate).
  apply bindE_Return in Hcreate as (d & Hinsert & Hcreate).
  inversion Hcreate; subst d; clear Hcreate. subst agent.
  match type of Hrow with bound ?r = _ =>
    assert (Hstored : r = Some row) by (destruct r; [now inversion Hrow | discriminate])
  end.
  cbv in Hrow. inversion Hrow; subst row; clear Hrow.
  unfold INSERT in Hinsert. cbn [Db.getDb bindE id] in Hinsert.
  destruct (t !! uuid) eqn:Hfresh; [discriminate|].
  inversion Hinsert; subst db'; clear Hinsert.
  split.
  2: { exists t. eexists. split; [reflexivity|]. split; [exact Hfresh|].
       split; [reflexivity | exact Hstored]. }
  unfold getAgent. cbn [Db.getDb bindE]. rewrite lookup_insert_eq.
  unfold rowToAgent.
  cbn [provider graph code_blocks permissions tags].
  rewrite !parse_stringify. cbn [bindE].
  match goal with |- context [parse_defined F AgentDefinitionSchema (JObj ?raw)] =>
    destruct (parse_defined F AgentDefinitionSchema (JObj raw)) as [out|e] eqn:E end.
  - exfalso. unfold AgentDefinitionSchema in E. rewrite parse_defined_object in E.
    apply bindE_Return in E as (o & Ho & _).
    pose proof (props_lookup F _ "provider" ProviderConfigSchema _ o Ho
                  shape_distinct eq_refl) as Hprovider.
    vm_compute in Hprovider. discriminate.
  - cbn [bindE]. now rewrite (parse_throws_ZodError F _ _ _ E).
Qed.

(** An agent that [createAgent] has stored cannot be read back. The row
    holds [DEFAULT_PROVIDER], whose [apiKeyRef] is the empty string, and
    the schema that [getAgent] applies to every row asks for a non-empty
    one: [getAgent], and with it [updateAgent] and [exportAgent], throw a
    [ZodError] for the new agent's id. *)
Theorem created_agent_cannot_be_read db name_ description_ uuid now agent db'
    updates later :
  createAgent JSON_stringify db name_ description_ uuid now = Return (agent, db') ->
  getAgent F JSON_parse db' uuid = Throw ZodError /\
  updateAgent F JSON_stringify JSON_parse db' uuid updates later = Throw ZodError /\
  exportAgent F JSON_stringify_indent JSON_parse db' uuid = Throw ZodError.
Proof.
  intros Hcreate.
  destruct (created_row_does_not_parse _ _ _ _ _ _ _ Hcreate) as [Hget _].
  split; [exact Hget|]. split.
  - unfold updateAgent. destruct db' as [t'|]; [|discriminate].
    cbn [Db.getDb bindE]. now rewrite Hget.
  - unfold exportAgent. now rewrite Hget.
Qed.

(** C9, at the failing input. Every agent that [createAgent] makes,
    whatever its name and description, is stored, and it cannot be
    exported: its row is in the table under the new id, and
    [exportAgent] throws a [ZodError] for that id, so that there is no
    text [importAgent] could be given. *)
Theorem created_agent_cannot_be_exported
    (t : gmap string (AgentRow Text)) name_ description_ uuid now :
  t !! uuid = None ->
  exists agent row,
    createAgent JSON_stringify (Some t) name_ description_ uuid now
    = Return (agent, Some (<[uuid := row]> t)) /\
    prop "id" agent = Some (JStr uuid) /\
    prop "name" agent = Some (JStr name_) /\
    agentToRow JSON_stringify agent = Some row /\
    exportAgent F JSON_stringify_indent JSON_parse (Some (<[uuid := row]> t)) uuid
    = Throw ZodError.
Proof.
  intros Hfresh.
  destruct (createAgent JSON_stringify (Some t) name_ description_ uuid now)
    as [[agent db']|e] eqn:Hcreate.
  - destruct (created_row_does_not_parse _ _ _ _ _ _ _ Hcreate)
      as (Hget & t0 & row & Ht & _ & -> & Hrow).
    injection Ht as <-. exists agent, row.
    split; [reflexivity|].
    assert (Hprops : prop "id" agent = Some (JStr uuid) /\
                     prop "name" agent = Some (JStr name_)).
    { unfold createAgent in Hcreate. cbn [Db.getDb bindE] in Hcreate.
      apply bindE_Return in Hcreate as (r & _ & Hcreate).
      apply bindE_Return in Hcreate as (d & _ & Hcreate).
      injection Hcreate as <- _. now split. }
    destruct Hprops as [Hid Hname].
    do 3 (split; [assumption|]).
    unfold exportAgent. now rewrite Hget.
  - exfalso. unfold createAgent in Hcreate. cbn [Db.getDb bindE] in Hcreate.
    match type of Hcreate with bindE (bound ?r) _ = _ =>
      assert (Hrow : exists row, r = Some row /\ id row = uuid)
        by (eexists; split; reflexivity)
    end.
    destruct Hrow as (row & Hrow & Hid). rewrite Hrow in Hcreate.
    cbn [bound bindE] in Hcreate. unfold INSERT in Hcreate.
    cbn [Db.getDb bindE] in Hcreate. rewrite Hid, Hfresh in Hcreate. discriminate.
Qed.


(** An import always makes a new agent. Whatever the text holds (an
    [id] of its own, timestamps, a row of this table), an [importAgent]
    that returns has given the agent the fresh id and the two
    timestamps of the call and has added one row under that id: the id
    was not in the table before, and no other row has changed. *)
Theorem imported_agent_is_a_new_row db text uuid createdAt updatedAt agent db' :
  importAgent F JSON_stringify JSON_parse db text uuid createdAt updatedAt
  = Return (agent, db') ->
  prop "id" agent = Some (JStr uuid) /\
  prop "createdAt" agent = Some (JStr createdAt) /\
  prop "updatedAt" agent = Some (JStr updatedAt) /\
  exists t row,
    db = Some t /\ t !! uuid = None /\
    db' = Some (<[uuid := row]> t) /\ id row = uuid /\
    created_at row = createdAt /\
    forall other, other <> uuid -> <[uuid := row]> t !! other = t !! other.
Proof.
  intros Himport. unfold importAgent in Himport.
  apply bindE_Return in Himport as (parsed & _ & Himport).
  apply bindE_Return in Himport as (agent' & Hparse & Himport).
  apply bindE_Return in Himport as (row & Hrow & Himport).
  apply bindE_Return in Himport as (d & Hinsert & Himport).
  inversion Himport; subst agent' d; clear Himport.
  unfold AgentDefinitionSchema in Hparse. rewrite parse_defined_object in Hparse.
  apply bindE_Return in Hparse as (out & Hout & Hparse).
  inversion Hparse; subst agent; clear Hparse.
  destruct (reidentified_identity uuid createdAt updatedAt (own_props parsed))
    as (Hid & Hc & Hu).
  assert (Hkept : forall k check v,
            lookup_shape k AgentDefinitionShape = Some (ZString [check]) ->
            get_prop k (reidentified uuid createdAt updatedAt (own_props parsed))
            = Some (JStr v) ->
            get_prop k out = Some (JStr v)).
  { intros k check v Hk Hv.
    pose proof (props_lookup F _ k _ _ out Hout shape_distinct Hk) as H.
    rewrite Hv in H. cbn [parse_field parse_defined forallb] in H.
    destruct (check_string F v check && true); cbn [bindE] in H; now inversion H. }
  pose proof (Hkept "id" Uuid uuid eq_refl Hid) as Hid'.
  pose proof (Hkept "createdAt" Datetime createdAt eq_refl Hc) as Hc'.
  pose proof (Hkept "updatedAt" Datetime updatedAt eq_refl Hu) as Hu'.
  cbn [prop]. do 3 (split; [assumption|]).
  assert (Hrowid : id row = uuid /\ created_at row = createdAt).
  { destruct (parsed_agent_binds F Text JSON_stringify _ out Hout) as (row' & Hrow' & Hrowid).
    rewrite Hrow' in Hrow. inversion Hrow; subst row'; clear Hrow.
    split; [congruence|].
    unfold agentToRow, prop in Hrow'. rewrite Hc' in Hrow'.
    cbn [as_string] in Hrow'.
    repeat match type of Hrow' with
           | context [mbind _ ?m] =>
               destruct m eqn:?; cbn [mbind option_bind] in Hrow'; try discriminate
           end.
    inversion Hrow'. cbn [created_at]. congruence. }
  destruct Hrowid as [Hrowid Hcreated].
  unfold INSERT in Hinsert. destruct db as [t|]; [|discriminate].
  cbn [Db.getDb bindE] in Hinsert. rewrite Hrowid in Hinsert.
  destruct (t !! uuid) eqn:Hfresh; [discriminate|]. inversion Hinsert; subst db'.
  exists t, row. repeat split; try assumption; try reflexivity.
  intros other Hother. now apply lookup_insert_ne.
Qed.

(** A deleted agent is gone, and only that agent: [getAgent] returns
    [null] for its id and what it returned before for every other id,
    and deleting it again throws. *)
Theorem deleted_agent_is_gone db id_ db' :
  deleteAgent db id_ = Return db' ->
  getAgent F JSON_parse db' id_ = Return None /\
  (forall other, other <> id_ ->
     getAgent F JSON_parse db' other = getAgent F JSON_parse db other) /\
  deleteAgent db' id_ = Throw ("Error: Agent not found: " ++ id_).
Proof.
  unfold deleteAgent. destruct db as [t|]; [|discriminate]. cbn [Db.getDb bindE].
  destruct (t !! id_) eqn:E; [|discriminate]. intros H. inversion H; subst db'.
  unfold getAgent. cbn [Db.getDb bindE]. rewrite lookup_delete_eq.
  split; [reflexivity|]. split; [|reflexivity].
  intros other Hother. now rewrite lookup_delete_ne.
Qed.

End Stored.

Lemma created_agent_cannot_be_read_witness :
  match createAgent asText (Some ∅) "fresh" "" researcherId "2026-01-01T00:00:00.000Z" with
  | Return (_, db') =>
      getAgent toyFormats Return db' researcherId = Throw ZodError /\
      updateAgent toyFormats asText Return db' researcherId
        [("name", JStr "renamed")] "2026-01-02T00:00:00.000Z" = Throw ZodError /\
      exportAgent toyFormats asText Return db' researcherId = Throw ZodError
  | Throw _ => False
  end.
Proof.
  destruct (createAgent asText (Some ∅) "fresh" "" researcherId "2026-01-01T00:00:00.000Z")
    as [[agent db']|e] eqn:E.
  - apply (created_agent_cannot_be_read toyFormats json asText asText Return
             (fun v => eq_refl) (Some ∅) "fresh" "" researcherId
             "2026-01-01T00:00:00.000Z" agent db'). exact E.
  - returned E.
Defined.

Lemma created_agent_cannot_be_exported_witness :
  exists agent row,
    createAgent asText (Some ∅) "fresh" "" researcherId "2026-01-01T00:00:00.000Z"
    = Return (agent, Some (<[researcherId := row]> ∅)) /\
    prop "name" agent = Some (JStr "fresh") /\
    exportAgent toyFormats asText Return (Some (<[researcherId := row]> ∅)) researcherId
    = Throw ZodError.
Proof.
  destruct (created_agent_cannot_be_exported toyFormats json asText asText Return
              (fun v => eq_refl) ∅ "fresh" "" researcherId "2026-01-01T00:00:00.000Z"
              (lookup_empty _))
    as (agent & row & Hcreate & _ & Hname & _ & Hexport).
  exists agent, row. split; [exact Hcreate|]. split; [exact Hname | exact Hexport].
Defined.

Lemma imported_agent_is_a_new_row_witness :
  match importAgent toyFormats asText Return toyDb
          (JObj [("id", JStr researcherId); ("version", num 1); ("name", JStr "copy");
                 ("createdAt", JStr "2020-01-01T00:00:00.000Z");
                 ("provider", JObj [("provider", JStr "ollama")]);
                 ("graph", JObj [])])
          "22222222-2222-4222-8222-222222222222"
          "2026-02-01T00:00:00.000Z" "2026-02-01T00:00:00.000Z" with
  | Return (agent, db') =>
      prop "id" agent = Some (JStr "22222222-2222-4222-8222-222222222222") /\
      prop "createdAt" agent = Some (JStr "2026-02-01T00:00:00.000Z")
  | Throw _ => False
  end.
Proof.
  destruct (importAgent toyFormats asText Return toyDb
              (JObj [("id", JStr researcherId); ("version", num 1); ("name", JStr "copy");
                     ("createdAt", JStr "2020-01-01T00:00:00.000Z");
                     ("provider", JObj [("provider", JStr "ollama")]);
                     ("graph", JObj [])])
              "22222222-2222-4222-8222-222222222222"
              "2026-02-01T00:00:00.000Z" "2026-02-01T00:00:00.000Z")
    as [[agent db']|e] eqn:E.
  - destruct (imported_agent_is_a_new_row toyFormats json asText Return _ _ _ _ _ _ _ E)
      as (Hid & Hcreated & _). now split.
  - returned E.
Defined.

Lemma deleted_agent_is_gone_witness :
  getAgent toyFormats Return (Some (delete researcherId {[ researcherId := researcherRow ]}))
    researcherId = Return None /\
  deleteAgent (Some (delete researcherId {[ researcherId := researcherRow ]})) researcherId
  = Throw ("Error: Agent not found: " ++ researcherId).
Proof.
  destruct (deleted_agent_is_gone toyFormats json Return toyDb researcherId
              (Some (delete researcherId {[ researcherId := researcherRow ]})))
    as (Hget & _ & Hagain).
  - reflexivity.
  - now split.
Defined.

Section Updates.
Variable F : Formats.
Variable Text : Type.
Variable JSON_stringify : json -> Text.
Variable JSON_parse : Text -> Except json.

(** [createdAt] is reported, not stored. When the updates hold a
    [createdAt], the agent that [updateAgent] returns carries it, while
    the row keeps the [created_at] it had: the [UPDATE] statement does
    not write that column. *)
Theorem update_reports_a_createdAt_it_does_not_store
    (db : option (gmap string (AgentRow Text))) id_ updates now created merged db' :
  updateAgent F JSON_stringify JSON_parse db id_ updates now = Return (merged, db') ->
  distinct (map fst updates) = true ->
  get_prop "createdAt" updates = Some (JStr created) ->
  prop "createdAt" merged = Some (JStr created) /\
  exists t old t' stored,
    db = Some t /\ t !! id_ = Some old /\
    db' = Some t' /\ t' !! id_ = Some stored /\
    created_at stored = created_at old.
Proof.
  unfold updateAgent. intros H Hdistinct Hcreated.
  apply bindE_Return in H as (t & Hdb & H).
  destruct db as [t0|]; [|discriminate]. inversion Hdb. subst t0. clear Hdb.
  apply bindE_Return in H as (existing & Hget & H).
  destruct existing as [existing|]; [|discriminate].
  unfold getAgent in Hget. cbn [Db.getDb bindE] in Hget.
  destruct (t !! id_) as [old|] eqn:Hold; [|discriminate].
  set (fields := spread (own_props existing) updates) in H.
  apply bindE_Return in H as (valid & _ & H).
  apply bindE_Return in H as (row & Hrow & H).
  apply bindE_Return in H as (written & Hupdate & H).
  inversion H. subst merged db'. clear H.
  unfold UPDATE in Hupdate. cbn [Db.getDb bindE] in Hupdate.
  assert (Hid : id row = id_).
  { destruct (agentToRow JSON_stringify _) as [row'|] eqn:Hto; [|discriminate].
    inversion Hrow. subst row'. clear Hrow.
    destruct (merged_props id_ now fields) as (Hid & _ & _).
    unfold agentToRow, prop in Hto. rewrite Hid in Hto.
    cbn [as_string mbind option_bind] in Hto.
    repeat match type of Hto with
           | context [mbind _ ?m] =>
               destruct m; cbn [mbind option_bind] in Hto; [|discriminate]
           end.
    now inversion Hto. }
  rewrite Hid, Hold in Hupdate. inversion Hupdate. subst written. clear Hupdate.
  split.
  - cbn [prop]. rewrite !JsonFacts.get_set_prop_ne by discriminate.
    subst fields. rewrite (JsonFacts.get_prop_spread _ _ _ Hdistinct). now rewrite Hcreated.
  - exists t, old. eexists. eexists. split; [reflexivity|]. split; [exact Hold|].
    split; [reflexivity|]. split; [apply lookup_insert_eq | reflexivity].
Qed.

End Updates.

Lemma update_reports_a_createdAt_it_does_not_store_witness :
  match updateAgent toyFormats asText Return toyDb researcherId
          [("createdAt", JStr "1999-12-31T00:00:00.000Z")] "2026-03-01T00:00:00.000Z" with
  | Return (merged, Some t') =>
      prop "createdAt" merged = Some (JStr "1999-12-31T00:00:00.000Z") /\
      option_map created_at (t' !! researcherId) = Some "2026-01-01T00:00:00.000Z"
  | _ => False
  end.
Proof.
  destruct (updateAgent toyFormats asText Return toyDb researcherId
              [("createdAt", JStr "1999-12-31T00:00:00.000Z")] "2026-03-01T00:00:00.000Z")
    as [[merged db']|e] eqn:E; [|returned E].
  destruct (update_reports_a_createdAt_it_does_not_store toyFormats json asText Return
              toyDb researcherId _ _ "1999-12-31T00:00:00.000Z" merged db' E
              eq_refl eq_refl)
    as (Hmerged & t & old & t' & stored & Hdb & Hold & -> & Hstored & Hcreated).
  split; [exact Hmerged|].
  rewrite Hstored. cbn [option_map]. rewrite Hcreated.
  inversion Hdb; subst t. rewrite lookup_singleton_eq in Hold. now inversion Hold.
Defined.

End AgentsFacts.

(** ** The list of agents *)

Module AgentListFacts.
Import Zod Schemas Agents AgentList.

Section Listing.

Variable Text : Type.
Variable JSON_stringify : json -> Text.
Variable JSON_parse : Text -> Except json.

Lemma insert_by_updated_elem (x r : AgentRow Text) l :
  x ∈ insert_by_updated r l <-> x = r \/ x ∈ l.
Proof.
  induction l as [|y rest IH]; simpl.
  - rewrite list_elem_of_singleton. split; [tauto|]. intros [H|H]; [exact H|]. inversion H.
  - destruct (String.leb (updated_at y) (updated_at r)).
    + rewrite elem_of_cons. tauto.
    + rewrite !elem_of_cons, IH. tauto.
Qed.

Lemma order_by_updated_elem (x : AgentRow Text) l :
  x ∈ order_by_updated_desc l <-> x ∈ l.
Proof.
  induction l as [|y rest IH]; simpl; [tauto|].
  rewrite insert_by_updated_elem, elem_of_cons, IH. tauto.
Qed.

Lemma insert_by_updated_length (r : AgentRow Text) l :
  length (insert_by_updated r l) = S (length l).
Proof.
  induction l as [|y rest IH]; simpl; [reflexivity|].
  destruct (String.leb (updated_at y) (updated_at r)); simpl; [reflexivity | now rewrite IH].
Qed.

Lemma order_by_updated_length (l : list (AgentRow Text)) :
  length (order_by_updated_desc l) = length l.
Proof.
  induction l as [|y rest IH]; simpl; [reflexivity|].
  now rewrite insert_by_updated_length, IH.
Qed.

Lemma mapE_Return {A B} (f : A -> Except B) : forall l out,
  mapE f l = Return out ->
  length out = length l /\
  forall x, x ∈ l -> exists y, y ∈ out /\ f x = Return y.
Proof.
  induction l as [|x rest IH]; intros out H; simpl in H.
  - inversion H. split; [reflexivity|]. intros x Hx. inversion Hx.
  - apply bindE_Return in H as (y & Hy & H).
    apply bindE_Return in H as (ys & Hys & H). inversion H; subst out.
    destruct (IH ys Hys) as [Hlen Hall]. split; [simpl; now rewrite Hlen|].
    intros x' Hx'. apply elem_of_cons in Hx'. destruct Hx' as [-> | Hx'].
    + exists y. split; [left | exact Hy].
    + destruct (Hall x' Hx') as (y' & Hin & Hf). exists y'. split; [now right | exact Hf].
Qed.

(** What [listAgents] returns has one summary for each row of the
    table, under the row's id and name. No schema is applied: an agent
    is listed whether or not [getAgent] accepts its row. *)
Theorem every_stored_agent_is_listed (t : gmap string (AgentRow Text)) l :
  listAgents JSON_stringify JSON_parse (Some t) = Return l ->
  length l = size t /\
  forall key row, t !! key = Some row ->
    exists s, s ∈ l /\ s_id s = id row /\ s_name s = name row /\
              s_updatedAt s = updated_at row.
Proof.
  unfold listAgents. cbn [Db.getDb bindE]. intros H.
  apply mapE_Return in H. destruct H as [Hlen Hall]. split.
  - now rewrite Hlen, order_by_updated_length, length_map, length_map_to_list.
  - intros key row Hrow.
    destruct (Hall row) as (s & Hs & Hsummary).
    { apply order_by_updated_elem. apply list_elem_of_fmap.
      exists (key, row). split; [reflexivity | now apply elem_of_map_to_list]. }
    exists s. split; [exact Hs|].
    unfold summary in Hsummary.
    do 6 (apply bindE_Return in Hsummary as (? & _ & Hsummary)).
    now inversion Hsummary.
Qed.

Hypothesis parse_stringify : forall v, JSON_parse (JSON_stringify v) = Return v.

(** A new agent has no tool enabled. The summary that [listAgents]
    gives for an agent that [createAgent] has just stored counts no
    enabled tool, and names the default provider. *)
Theorem new_agent_is_listed_without_tools db name_ description_ uuid now agent db' l :
  createAgent JSON_stringify db name_ description_ uuid now = Return (agent, db') ->
  listAgents JSON_stringify JSON_parse db' = Return l ->
  exists s, s ∈ l /\ s_id s = uuid /\ s_name s = name_ /\
            enabledToolCount s = 0 /\ s_provider s = Some (JStr "anthropic").
Proof.
  intros Hcreate Hlist.
  unfold createAgent in Hcreate. destruct db as [t|]; [|discriminate].
  cbn [Db.getDb bindE] in Hcreate.
  apply bindE_Return in Hcreate as (row & Hrow & Hcreate).
  apply bindE_Return in Hcreate as (d & Hinsert & Hcreate).
  inversion Hcreate; subst d; clear Hcreate.
  cbv in Hrow. inversion Hrow; subst row; clear Hrow.
  unfold INSERT in Hinsert. cbn [Db.getDb bindE id] in Hinsert.
  destruct (t !! uuid); [discriminate|]. inversion Hinsert; subst db'; clear Hinsert.
  unfold listAgents in Hlist. cbn [Db.getDb bindE] in Hlist.
  apply mapE_Return in Hlist. destruct Hlist as [_ Hall].
  match type of Hall with context [<[uuid := ?r]> t] => set (row := r) in * end.
  destruct (Hall row) as (s & Hs & Hsummary).
  { apply order_by_updated_elem. apply list_elem_of_fmap.
    exists (uuid, row). split; [reflexivity|].
    apply elem_of_map_to_list. apply lookup_insert_eq. }
  exists s. split; [exact Hs|].
  unfold summary in Hsummary. cbn [id row] in Hsummary.
  rewrite lookup_insert_eq in Hsummary.
  cbn [provider permissions tags row] in Hsummary.
  rewrite !parse_stringify in Hsummary. cbn [bindE] in Hsummary.
  vm_compute in Hsummary. now inversion Hsummary.
Qed.

End Listing.
Lemma every_stored_agent_is_listed_witness :
  match listAgents asText Return toyDb with
  | Return l =>
      length l = size ({[ researcherId := researcherRow ]} : gmap string (AgentRow json)) /\
      exists s, s ∈ l /\ s_id s = researcherId /\ s_name s = "researcher"
  | Throw _ => False
  end.
Proof.
  destruct (listAgents asText Return toyDb) as [l|e] eqn:E.
  - destruct (every_stored_agent_is_listed json asText Return
                {[ researcherId := researcherRow ]} l E) as [Hlen Hall].
    split; [exact Hlen|].
    destruct (Hall researcherId researcherRow) as (s & Hs & Hid & Hname & _).
    + apply lookup_singleton_eq.
    + exists s. now repeat split.
  - returned E.
Defined.

Lemma new_agent_is_listed_without_tools_witness :
  match createAgent asText toyDb "fresh" "" "22222222-2222-4222-8222-222222222222"
          "2026-02-01T00:00:00.000Z" with
  | Return (_, db') =>
      match listAgents asText Return db' with
      | Return l =>
          exists s, s ∈ l /\ s_id s = "22222222-2222-4222-8222-222222222222" /\
                    enabledToolCount s = 0
      | Throw _ => False
      end
  | Throw _ => False
  end.
Proof.
  destruct (createAgent asText toyDb "fresh" "" "22222222-2222-4222-8222-222222222222"
              "2026-02-01T00:00:00.000Z") as [[agent db']|e] eqn:E;
    [|returned E].
  destruct (listAgents asText Return db') as [l|e] eqn:El.
  - destruct (new_agent_is_listed_without_tools json asText Return (fun v => eq_refl)
                toyDb "fresh" "" "22222222-2222-4222-8222-222222222222"
                "2026-02-01T00:00:00.000Z" agent db' l E El)
      as (s & Hs & Hid & _ & Hcount & _).
    exists s. now repeat split.
  - assert (H : match createAgent asText toyDb "fresh" ""
                        "22222222-2222-4222-8222-222222222222"
                        "2026-02-01T00:00:00.000Z" with
                | Return (_, d) => returns (listAgents asText Return d)
                | Throw _ => false
                end = true) by (vm_compute; reflexivity).
    rewrite E, El in H. discriminate H.
Defined.

End AgentListFacts.

(** ** The application settings *)

Module AppSettingsFacts.
Import Settings AppSettings.


Lemma set_prop_distinct k v : forall l : list (string * json),
  Zod.distinct (map fst l) = true -> Zod.distinct (map fst (set_prop k v l)) = true.
Proof.
  induction l as [|[k0 w] rest IH]; simpl; [reflexivity|].
  intros H. apply andb_true_iff in H. destruct H as [Hfresh Hdistinct].
  destruct (String.eqb k0 k) eqn:E; simpl.
  - now rewrite Hfresh, Hdistinct.
  - rewrite (IH Hdistinct), andb_true_r. apply negb_true_iff.
    apply negb_true_iff in Hfresh.
    apply JsonFacts.keys_None_get_prop.
    apply String.eqb_neq in E.
    rewrite JsonFacts.get_set_prop_ne by congruence.
    now apply JsonFacts.get_prop_None_keys.
Qed.

Lemma spread_keys_distinct : forall (b a : list (string * json)),
  Zod.distinct (map fst a) = true -> Zod.distinct (map fst (spread a b)) = true.
Proof.
  unfold spread. induction b as [|[k0 v0] rest IH]; intros a H; simpl; [exact H|].
  apply IH. now apply set_prop_distinct.
Qed.

Lemma get_prop_omit key k : forall l : list (string * json),
  get_prop k (filter (fun kv => fst kv <> key) l)
  = if String.eqb k key then None else get_prop k l.
Proof.
  induction l as [|[k0 w] rest IH]; simpl.
  - now destruct (String.eqb k key).
  - destruct (decide (k0 = key)) as [Heq|Hne].
    + rewrite filter_cons_False by (simpl; tauto). rewrite IH. subst k0.
      rewrite (String.eqb_sym key k). now destruct (String.eqb k key).
    + rewrite filter_cons_True by exact Hne. simpl. rewrite IH.
      destruct (String.eqb k0 k) eqn:E; [|reflexivity].
      apply String.eqb_eq in E. subst k0.
      apply String.eqb_neq in Hne. now rewrite Hne.
Qed.

Lemma omit_distinct key : forall l : list (string * json),
  Zod.distinct (map fst l) = true ->
  Zod.distinct (map fst (filter (fun kv => fst kv <> key) l)) = true.
Proof.
  induction l as [|[k0 w] rest IH]; simpl; [reflexivity|].
  intros H. apply andb_true_iff in H. destruct H as [Hfresh Hdistinct].
  destruct (decide (k0 = key)) as [Heq|Hne].
  - rewrite filter_cons_False by (simpl; tauto). now apply IH.
  - rewrite filter_cons_True by exact Hne. simpl. rewrite (IH Hdistinct), andb_true_r.
    apply negb_true_iff. apply negb_true_iff in Hfresh.
    apply JsonFacts.keys_None_get_prop. rewrite get_prop_omit.
    destruct (String.eqb k0 key); [reflexivity|].
    now apply JsonFacts.get_prop_None_keys.
Qed.

Lemma assigned_distinct key value l :
  Zod.distinct (map fst l) = true -> Zod.distinct (map fst (assigned key value l)) = true.
Proof.
  destruct value as [v|]; simpl; [apply set_prop_distinct | apply omit_distinct].
Qed.

Section Codec.

Variable JSON_parse : string -> Except json.

(** What [getSettings] returns has every key once, and every default
    key. *)
Lemma settings_shape db current :
  getSettings JSON_parse db = Return current ->
  Zod.distinct (map fst current) = true /\
  forall k, get_prop k current = None -> get_prop k DEFAULT_SETTINGS = None.
Proof.
  unfold getSettings, dbGet. destruct db as [t|]; simpl; [|discriminate].
  assert (Hdefault : Zod.distinct (map fst DEFAULT_SETTINGS) = true) by reflexivity.
  destruct (t !! "app_settings") as [stored|]; [|intros H; inversion H; now split].
  destruct (String.eqb stored ""); [intros H; inversion H; now split|].
  destruct (JSON_parse stored) as [v|e]; intros H; inversion H; [|now split].
  split; [now apply spread_keys_distinct | intros k; apply JsonFacts.get_prop_spread_None].
Qed.

(** Write, then read. After [setSetting(key, value)], [getSettings]
    returns [value] under [key] and the former settings under every
    other key; a [value] of [undefined] is not stored, so that the key
    reads as its default again. The JSON text written must parse back to
    the object it was written from. *)
Theorem setting_is_read_back db key value current db' :
  getSettings JSON_parse db = Return current ->
  setSetting JSON_parse db key value = Return db' ->
  JSON_parse (stringify (JObj (assigned key value current)))
  = Return (JObj (assigned key value current)) ->
  exists settings,
    getSettings JSON_parse db' = Return settings /\
    get_prop key settings
    = match value with
      | Some v => Some v
      | None => get_prop key DEFAULT_SETTINGS
      end /\
    forall k, k <> key -> get_prop k settings = get_prop k current.
Proof.
  intros Hcurrent Hset Hparse.
  destruct (settings_shape db current Hcurrent) as [Hdistinct Hdefaults].
  assert (Htext : String.eqb (stringify (JObj (assigned key value current))) "" = false)
    by reflexivity.
  unfold setSetting in Hset. rewrite Hcurrent in Hset. cbn [bindE] in Hset.
  set (text := stringify (JObj (assigned key value current))) in *.
  unfold dbSet in Hset. destruct db as [t|]; cbn [Db.getDb bindE] in Hset; [|discriminate].
  inversion Hset; subst db'; clear Hset.
  pose proof (assigned_distinct key value current Hdistinct) as Hobj.
  eexists. split.
  - unfold getSettings, dbGet. cbn [Db.getDb bindE]. rewrite lookup_insert_eq.
    rewrite Htext, Hparse. reflexivity.
  - unfold Agents.own_props.
    rewrite (JsonFacts.spread_distinct _ [] Hobj) by (intros k; now left).
    rewrite app_nil_l. split.
    + rewrite (JsonFacts.get_prop_spread _ _ _ Hobj).
      destruct value as [v|]; simpl.
      * now rewrite JsonFacts.get_set_prop_eq.
      * now rewrite get_prop_omit, String.eqb_refl.
    + intros k Hne. rewrite (JsonFacts.get_prop_spread _ _ _ Hobj).
      assert (Hsame : get_prop k (assigned key value current) = get_prop k current).
      { destruct value as [v|]; simpl.
        - apply JsonFacts.get_set_prop_ne. congruence.
        - rewrite get_prop_omit. apply String.eqb_neq in Hne. now rewrite Hne. }
      rewrite Hsame. destruct (get_prop k current) eqn:E; [reflexivity|].
      now apply Hdefaults.
Qed.

End Codec.

Lemma setting_is_read_back_witness :
  let written := JObj (assigned "theme" (Some (JStr "dark")) DEFAULT_SETTINGS) in
  exists settings,
    getSettings (parseOnly written)
      (Some {[ "app_settings" := stringify written ]}) = Return settings /\
    get_prop "theme" settings = Some (JStr "dark") /\
    get_prop "auditRetentionDays" settings = Some (JNum (30 # 1)).
Proof.
  cbv zeta.
  set (written := JObj (assigned "theme" (Some (JStr "dark")) DEFAULT_SETTINGS)).
  assert (Hcurrent : getSettings (parseOnly written) (Some ∅) = Return DEFAULT_SETTINGS)
    by (vm_compute; reflexivity).
  assert (Hset : setSetting (parseOnly written) (Some ∅) "theme" (Some (JStr "dark"))
                 = Return (Some {[ "app_settings" := stringify written ]}))
    by (vm_compute; reflexivity).
  assert (Hparse : parseOnly written
                     (stringify (JObj (assigned "theme" (Some (JStr "dark")) DEFAULT_SETTINGS)))
                   = Return (JObj (assigned "theme" (Some (JStr "dark")) DEFAULT_SETTINGS)))
    by (vm_compute; reflexivity).
  destruct (setting_is_read_back (parseOnly written) (Some ∅) "theme" (Some (JStr "dark"))
              DEFAULT_SETTINGS _ Hcurrent Hset Hparse) as (settings & Hget & Hkey & Hothers).
  exists settings. split; [exact Hget|]. split; [exact Hkey|].
  now rewrite (Hothers "auditRetentionDays") by discriminate.
Defined.

End AppSettingsFacts.
